(** * Weisfeiler-Lehman walker of pyRDF2Vec: the relabeling pass and the
      canonicalisation of walks.

    The development embeds [pyrdf2vec/walkers/weisfeiler_lehman.py]: the
    attrs class [WLWalker] with its two tables, [_create_label],
    [_weisfeiler_lehman] and [_extract].  The Python library functions the
    module calls ([hashlib.md5], [bytes.__repr__], [str.join], [sorted],
    [set], [range], [collections.defaultdict]) are given executable models,
    so that every definition can be run on a concrete graph. *)

From Stdlib Require Import ZArith Ascii String List Lia.
From stdpp Require Import base list gmap strings sorting.

Local Open Scope Z_scope.

(** ** hashlib.md5 (RFC 1321) over bytes held as integers in [0, 256) *)

Module MD5.

Definition add32 (x y : Z) : Z := (x + y) mod 2 ^ 32.
Definition not32 (x : Z) : Z := Z.lxor x 0xffffffff.
Definition rotl32 (x c : Z) : Z :=
  Z.lor (Z.shiftl x c mod 2 ^ 32) (Z.shiftr x (32 - c)).

(** Per-round shift amounts. *)
Definition S_table : list Z :=
  [ 7; 12; 17; 22; 7; 12; 17; 22; 7; 12; 17; 22; 7; 12; 17; 22;
    5; 9; 14; 20; 5; 9; 14; 20; 5; 9; 14; 20; 5; 9; 14; 20;
    4; 11; 16; 23; 4; 11; 16; 23; 4; 11; 16; 23; 4; 11; 16; 23;
    6; 10; 15; 21; 6; 10; 15; 21; 6; 10; 15; 21; 6; 10; 15; 21 ].

(** K[i] = floor(2^32 * abs(sin(i + 1))). *)
Definition K_table : list Z :=
  [ 0xd76aa478; 0xe8c7b756; 0x242070db; 0xc1bdceee;
    0xf57c0faf; 0x4787c62a; 0xa8304613; 0xfd469501;
    0x698098d8; 0x8b44f7af; 0xffff5bb1; 0x895cd7be;
    0x6b901122; 0xfd987193; 0xa679438e; 0x49b40821;
    0xf61e2562; 0xc040b340; 0x265e5a51; 0xe9b6c7aa;
    0xd62f105d; 0x02441453; 0xd8a1e681; 0xe7d3fbc8;
    0x21e1cde6; 0xc33707d6; 0xf4d50d87; 0x455a14ed;
    0xa9e3e905; 0xfcefa3f8; 0x676f02d9; 0x8d2a4c8a;
    0xfffa3942; 0x8771f681; 0x6d9d6122; 0xfde5380c;
    0xa4beea44; 0x4bdecfa9; 0xf6bb4b60; 0xbebfbc70;
    0x289b7ec6; 0xeaa127fa; 0xd4ef3085; 0x04881d05;
    0xd9d4d039; 0xe6db99e5; 0x1fa27cf8; 0xc4ac5665;
    0xf4292244; 0x432aff97; 0xab9423a7; 0xfc93a039;
    0x655b59c3; 0x8f0ccc92; 0xffeff47d; 0x85845dd1;
    0x6fa87e4f; 0xfe2ce6e0; 0xa3014314; 0x4e0811a1;
    0xf7537e82; 0xbd3af235; 0x2ad7d2bb; 0xeb86d391 ].

Record regs := Regs { rA : Z; rB : Z; rC : Z; rD : Z }.

Definition init_regs : regs :=
  Regs 0x67452301 0xefcdab89 0x98badcfe 0x10325476.

(** The non-linear function of round [i] and the index of the message
    word it mixes in. *)
Definition round_fn (i : Z) (b c d : Z) : Z * Z :=
  if i <? 16 then (Z.lor (Z.land b c) (Z.land (not32 b) d), i)
  else if i <? 32 then
    (Z.lor (Z.land d b) (Z.land (not32 d) c), (5 * i + 1) mod 16)
  else if i <? 48 then (Z.lxor (Z.lxor b c) d, (3 * i + 5) mod 16)
  else (Z.lxor c (Z.lor b (not32 d)), (7 * i) mod 16).

Definition nthZ (l : list Z) (i : Z) : Z := nth (Z.to_nat i) l 0.

Definition step (M : list Z) (r : regs) (i : Z) : regs :=
  let '(f, g) := round_fn i (rB r) (rC r) (rD r) in
  let f' := add32 (add32 (add32 f (rA r)) (nthZ K_table i)) (nthZ M g) in
  Regs (rD r) (add32 (rB r) (rotl32 f' (nthZ S_table i))) (rB r) (rC r).

(** Little-endian 32-bit words of a block of bytes. *)
Fixpoint words_le (bs : list Z) : list Z :=
  match bs with
  | b0 :: b1 :: b2 :: b3 :: rest =>
      (b0 + 2 ^ 8 * b1 + 2 ^ 16 * b2 + 2 ^ 24 * b3) :: words_le rest
  | _ => []
  end.

Definition bytes_le (n : nat) (x : Z) : list Z :=
  map (fun k => Z.shiftr x (8 * Z.of_nat k) mod 256) (seq 0 n).

Definition process_chunk (h : regs) (chunk : list Z) : regs :=
  let M := words_le chunk in
  let r := fold_left (step M) (map Z.of_nat (seq 0 64)) h in
  Regs (add32 (rA h) (rA r)) (add32 (rB h) (rB r))
       (add32 (rC h) (rC r)) (add32 (rD h) (rD r)).

Definition pad (msg : list Z) : list Z :=
  let len := Z.of_nat (length msg) in
  let zeros := Z.to_nat ((55 - len) mod 64) in
  msg ++ [0x80] ++ repeat 0 zeros ++ bytes_le 8 ((8 * len) mod 2 ^ 64).

Fixpoint chunks (n : nat) (bs : list Z) : list (list Z) :=
  match n with
  | O => []
  | S n' => firstn 64 bs :: chunks n' (skipn 64 bs)
  end.

Definition digest (msg : list Z) : list Z :=
  let p := pad msg in
  let r := fold_left process_chunk (chunks (length p / 64) p) init_regs in
  bytes_le 4 (rA r) ++ bytes_le 4 (rB r) ++ bytes_le 4 (rC r)
    ++ bytes_le 4 (rD r).

End MD5.

(** ** Python strings and bytes

    A Python [str] is held as the string of its UTF-8 bytes, so that
    [str.encode()] is the list of its bytes and the code-point order used
    by [sorted] is the byte-wise lexicographic order. *)

Definition byte_of_ascii (a : ascii) : Z := Z.of_N (N_of_ascii a).
Definition ascii_of_byte (b : Z) : ascii := ascii_of_N (Z.to_N b).

Definition encode (s : string) : list Z :=
  map byte_of_ascii (list_ascii_of_string s).

Definition hex_digit (d : Z) : ascii :=
  if d <? 10 then ascii_of_byte (48 + d) else ascii_of_byte (87 + d).

Definition quote1 : Z := 39.
Definition quote2 : Z := 34.
Definition backslash : Z := 92.

(** One byte of [bytes.__repr__], for the chosen quote character. *)
Definition repr_byte (quote : Z) (c : Z) : list ascii :=
  if (c =? quote) || (c =? backslash) then
    [ascii_of_byte backslash; ascii_of_byte c]
  else if c =? 9 then [ascii_of_byte backslash; "t"%char]
  else if c =? 10 then [ascii_of_byte backslash; "n"%char]
  else if c =? 13 then [ascii_of_byte backslash; "r"%char]
  else if (c <? 32) || (127 <=? c) then
    [ascii_of_byte backslash; "x"%char; hex_digit (c / 16);
     hex_digit (c mod 16)]
  else [ascii_of_byte c].

Definition memZ (x : Z) (l : list Z) : bool := existsb (Z.eqb x) l.

(** [str(b)] for a bytes object [b]: the quote is the single quote unless
    the bytes hold one and hold no double quote. *)
Definition bytes_repr (bs : list Z) : string :=
  let quote :=
    if memZ quote1 bs && negb (memZ quote2 bs) then quote2 else quote1 in
  string_of_list_ascii
    ("b"%char :: ascii_of_byte quote
       :: flat_map (repr_byte quote) bs ++ [ascii_of_byte quote]).

(** [str(md5(s.encode()).digest())] *)
Definition md5_digest_str (s : string) : string :=
  bytes_repr (MD5.digest (encode s)).


(** ** Python containers *)

(** A [dict] keeps its keys in insertion order; assigning to a key that is
    present keeps its place, assigning to a new key appends it. *)
Section pydict.
Context {K V : Type} `{EqDecision K}.

Fixpoint dict_get (k : K) (d : list (K * V)) : option V :=
  match d with
  | [] => None
  | (k', v) :: d' => if decide (k = k') then Some v else dict_get k d'
  end.

Fixpoint dict_set (k : K) (v : V) (d : list (K * V)) : list (K * V) :=
  match d with
  | [] => [(k, v)]
  | (k', v') :: d' =>
      if decide (k = k') then (k', v) :: d' else (k', v') :: dict_set k v d'
  end.

Definition dict_items (d : list (K * V)) : list (K * V) := d.
End pydict.

(** [range(lo, hi)] *)
Definition range (lo hi : Z) : list Z :=
  map (fun i => lo + Z.of_nat i) (seq 0 (Z.to_nat (hi - lo))).

(** Code-point order on strings, as used by [sorted]. *)
Definition str_le (s1 s2 : string) : Prop := String.leb s1 s2 = true.

#[global] Instance str_le_dec : RelDecision str_le.
Proof. intros s1 s2. unfold str_le. apply _. Defined.

(** [sorted(set(l))] for a list of strings. *)
Definition sorted_set (l : list string) : list string :=
  merge_sort str_le (elements (list_to_set l : gset string)).

(** [sep.join(l)] *)
Definition join (sep : string) (l : list string) : string :=
  String.concat sep l.

(** The values of a [Dict[Any, Any]] of the walker: integers and strings. *)
Inductive pyany := AInt (z : Z) | AStr (s : string).

#[global] Instance pyany_eq_dec : EqDecision pyany.
Proof. solve_decision. Defined.

(** ** The graph collaborator *)

(** Modelled from the spec: the class [Vertex] of [pyrdf2vec.graphs] is not
    among the sources.  A vertex has a name and a flag that marks a
    predicate; the walker reads the name only. *)
Record Vertex := mkVertex { name : string; predicate : bool }.

#[global] Instance Vertex_eq_dec : EqDecision Vertex.
Proof. solve_decision. Defined.

(** Modelled from the spec: the class [KG] of [pyrdf2vec.graphs] is not among
    the sources.  The graph exposes its vertex set, here in the order in
    which one pass enumerates it, and the neighbours of a vertex, the
    predecessors when [is_reverse] is set. *)
Record KG := mkKG {
  _vertices : list Vertex;
  get_neighbors : Vertex -> bool -> list Vertex
}.

(** A graph given by its vertices and directed edges. *)
Definition kg_of_edges (vs : list Vertex) (es : list (Vertex * Vertex)) : KG :=
  mkKG vs (fun v is_reverse =>
    if is_reverse then map fst (filter (fun e => bool_decide (snd e = v)) es)
    else map snd (filter (fun e => bool_decide (fst e = v)) es)).

(** ** The walker and its effects *)

Record WLWalker := mkWLWalker {
  wl_iterations : Z;
  _inv_label_map : gmap string (list (pyany * pyany));
  _label_map : gmap string (list (Z * string))
}.

Inductive exn :=
| KeyError (key : pyany)
| TypeError.

(** [LookupError] is the base class of [KeyError]. *)
Definition is_LookupError (e : exn) : bool :=
  match e with KeyError _ => true | TypeError => false end.

Inductive outcome (A : Type) :=
| Ret (a : A)
| Raise (e : exn)
| OutOfFuel.
Arguments Ret {A} a.
Arguments Raise {A} e.
Arguments OutOfFuel {A}.

(** A method of the walker: it reads and writes the instance and returns or
    raises; what it wrote before raising stays written. *)
Definition M (A : Type) : Type := WLWalker -> outcome A * WLWalker.

Definition ret {A} (a : A) : M A := fun self => (Ret a, self).
Definition raise {A} (e : exn) : M A := fun self => (Raise e, self).
Definition out_of_fuel {A} : M A := fun self => (OutOfFuel, self).

Definition bind {A B} (m : M A) (k : A -> M B) : M B :=
  fun self =>
    match m self with
    | (Ret a, self') => k a self'
    | (Raise e, self') => (Raise e, self')
    | (OutOfFuel, self') => (OutOfFuel, self')
    end.

Notation "'do' x <- m ; k" := (bind m (fun x => k))
  (at level 10, x pattern, m at level 100, k at level 200).
Notation "m ;; k" := (bind m (fun _ => k))
  (at level 100, k at level 200, right associativity).

(** [for x in l: body(x)] *)
Fixpoint for_ {A} (l : list A) (body : A -> M unit) : M unit :=
  match l with
  | [] => ret tt
  | x :: l' => body x ;; for_ l' body
  end.

(** [[f(x) for x in l]] *)
Fixpoint comprehension {A B} (f : A -> M B) (l : list A) : M (list B) :=
  match l with
  | [] => ret []
  | x :: l' => do y <- f x; do ys <- comprehension f l'; ret (y :: ys)
  end.

Definition get_wl_iterations : M Z := fun self => (Ret (wl_iterations self), self).

Definition set_label_map (lm : gmap string (list (Z * string)))
    (self : WLWalker) : WLWalker :=
  mkWLWalker (wl_iterations self) (_inv_label_map self) lm.

Definition set_inv_label_map (im : gmap string (list (pyany * pyany)))
    (self : WLWalker) : WLWalker :=
  mkWLWalker (wl_iterations self) im (_label_map self).

(** [self._label_map[x]]: a [defaultdict(dict)] stores and returns an empty
    dict for a missing key. *)
Definition label_map_row (x : string) : M (list (Z * string)) := fun self =>
  match _label_map self !! x with
  | Some d => (Ret d, self)
  | None => (Ret [], set_label_map (<[x := []]> (_label_map self)) self)
  end.

Definition inv_label_map_row (x : string) : M (list (pyany * pyany)) :=
  fun self =>
    match _inv_label_map self !! x with
    | Some d => (Ret d, self)
    | None => (Ret [], set_inv_label_map (<[x := []]> (_inv_label_map self)) self)
    end.

(** [self._label_map[x][n]] *)
Definition label_map_getitem (x : string) (n : Z) : M string :=
  do d <- label_map_row x;
  match dict_get n d with
  | Some l => ret l
  | None => raise (KeyError (AInt n))
  end.

(** [self._label_map[x][n] = l] *)
Definition label_map_setitem (x : string) (n : Z) (l : string) : M unit :=
  do d <- label_map_row x;
  fun self => (Ret tt, set_label_map (<[x := dict_set n l d]> (_label_map self)) self).

(** [self._inv_label_map[x][k] = v] *)
Definition inv_label_map_setitem (x : string) (k v : pyany) : M unit :=
  do d <- inv_label_map_row x;
  fun self =>
    (Ret tt, set_inv_label_map (<[x := dict_set k v d]> (_inv_label_map self)) self).

(** [len(self._label_map)] *)
Definition label_map_len : M Z := fun self =>
  (Ret (Z.of_nat (size (_label_map self))), self).

(** [_weisfeiler_lehman] and [_create_label] call each other; [fuel] bounds
    the depth of the calls. *)
Fixpoint _weisfeiler_lehman (fuel : nat) (kg : KG) {struct fuel} : M unit :=
  match fuel with
  | O => out_of_fuel
  | S fuel' =>
      for_ (_vertices kg) (fun vertex =>
        label_map_setitem (name vertex) 0 (name vertex) ;;
        inv_label_map_setitem (name vertex) (AInt 0) (AStr (name vertex))) ;;
      do iterations <- get_wl_iterations;
      for_ (range 1 (iterations + 1)) (fun n =>
        for_ (_vertices kg) (fun vertex =>
          do label <- _create_label fuel' kg vertex n;
          label_map_setitem (name vertex) n (md5_digest_str label))) ;;
      for_ (_vertices kg) (fun vertex =>
        do row <- label_map_row (name vertex);
        for_ (dict_items row) (fun '(k, v) =>
          inv_label_map_setitem (name vertex) (AStr v) (AInt k)))
  end
with _create_label (fuel : nat) (kg : KG) (vertex : Vertex) (n : Z)
    {struct fuel} : M string :=
  match fuel with
  | O => out_of_fuel
  | S fuel' =>
      do len <- label_map_len;
      (if len =? 0 then _weisfeiler_lehman fuel' kg else ret tt) ;;
      do labels <- comprehension
                     (fun neighbor => label_map_getitem (name neighbor) (n - 1))
                     (get_neighbors kg vertex true);
      let suffix := join "-" (sorted_set labels) in
      do own <- label_map_getitem (name vertex) (n - 1);
      ret (own ++ "-" ++ suffix)%string
  end.

(** [enumerate(walk)] *)
Definition enumerate {A} (l : list A) : list (Z * A) :=
  zip (map Z.of_nat (seq 0 (length l))) l.

(** The body of the loop over the hops of one walk: the list built by
    [canonical_walk.append]. *)
Fixpoint canonical_hops (n : Z) (hops : list (Z * Vertex))
    (canonical_walk : list string) : M (list string) :=
  match hops with
  | [] => ret canonical_walk
  | (i, hop) :: hops' =>
      if (i =? 0) || (i mod 2 =? 1) then
        canonical_hops n hops' (canonical_walk ++ [name hop])
      else
        do label <- label_map_getitem (name hop) n;
        canonical_hops n hops' (canonical_walk ++ [label])
  end.

(** The two nested loops of [_extract], threading the set of walks. *)
Fixpoint extract_walks_loop (n : Z) (walks : list (list Vertex))
    (canonical_walks : gset (list string)) : M (gset (list string)) :=
  match walks with
  | [] => ret canonical_walks
  | walk :: walks' =>
      do canonical_walk <- canonical_hops n (enumerate walk) [];
      extract_walks_loop n walks' (canonical_walks ∪ {[ canonical_walk ]})
  end.

Fixpoint extract_levels_loop (levels : list Z) (walks : list (list Vertex))
    (canonical_walks : gset (list string)) : M (gset (list string)) :=
  match levels with
  | [] => ret canonical_walks
  | n :: levels' =>
      do canonical_walks' <- extract_walks_loop n walks canonical_walks;
      extract_levels_loop levels' walks canonical_walks'
  end.

(** [_extract]; the sampler [extract_walks] of the base class is not among
    the sources and is a parameter.  The tuple built from the set lists its
    members once each, in the order of [elements]. *)
Definition _extract (extract_walks : KG -> Vertex -> list (list Vertex))
    (kg : KG) (instance : Vertex) : M (gmap string (list (list string))) :=
  let walks := extract_walks kg instance in
  do iterations <- get_wl_iterations;
  do canonical_walks <-
    extract_levels_loop (range 0 (iterations + 1)) walks ∅;
  ret {[ name instance := elements canonical_walks ]}.

(** ** Construction *)

(** Values a caller can pass for [wl_iterations]. *)
Inductive pyval :=
| PyInt (z : Z)
| PyBool (b : bool)
| PyFloat (mantissa exponent : Z)
| PyStr (s : string)
| PyNone.

(** [isinstance(value, int)]; [bool] is a subclass of [int]. *)
Definition isinstance_int (value : pyval) : bool :=
  match value with
  | PyInt _ | PyBool _ => true
  | _ => false
  end.

(** The integer an instance of [int] stands for. *)
Definition int_value (value : pyval) : Z :=
  match value with
  | PyInt z => z
  | PyBool true => 1
  | _ => 0
  end.

(** The attrs-generated [__init__], as far as the attributes declared in
    [WLWalker] go: [wl_iterations] defaults to 4 and is validated by
    [instance_of(int)]; both tables start empty.  The attributes of the base
    class are taken as given and valid. *)
Definition WLWalker_init (wl_iterations : option pyval) : exn + WLWalker :=
  let value := default (PyInt 4) wl_iterations in
  if isinstance_int value then inr (mkWLWalker (int_value value) ∅ ∅)
  else inl TypeError.

(** A positive integer: an instance of [int] whose value is above 0. *)
Definition positive_int (value : pyval) : Prop :=
  isinstance_int value = true /\ 0 < int_value value.

(** ** What a relabeling pass is expected to store *)

Definition kg_names (kg : KG) : list string := map name (_vertices kg).

(** The predecessors of a vertex: [kg.get_neighbors(vertex, is_reverse=True)]. *)
Definition predecessors (kg : KG) (v : Vertex) : list Vertex :=
  get_neighbors kg v true.

(** The graphs of the data model: the names of the vertices are unique and
    the vertex set is full, that is, it holds the predecessors of its
    vertices. *)
Definition well_formed (kg : KG) : Prop :=
  NoDup (kg_names kg) /\
  Forall (fun v => Forall (fun p => p ∈ _vertices kg) (predecessors kg v))
         (_vertices kg).

#[global] Instance well_formed_dec kg : Decision (well_formed kg).
Proof. unfold well_formed. apply _. Defined.

(** The stored label of a name at a level, if any. *)
Definition label_of (self : WLWalker) (x : string) (n : Z) : option string :=
  match _label_map self !! x with
  | Some d => dict_get n d
  | None => None
  end.

(** The string that is hashed. *)
Definition pre_hash (own : string) (labels : list string) : string :=
  (own ++ "-" ++ join "-" (sorted_set labels))%string.

(** The label of a vertex at a level, by recursion on the level. *)
Fixpoint wl_label (kg : KG) (n : nat) (v : Vertex) : string :=
  match n with
  | O => name v
  | S m =>
      md5_digest_str
        (pre_hash (wl_label kg m v) (map (wl_label kg m) (predecessors kg v)))
  end.

(** The per-vertex dict after the levels [0..n] were assigned in turn. *)
Fixpoint row_upto (kg : KG) (v : Vertex) (row : list (Z * string)) (n : nat)
    : list (Z * string) :=
  match n with
  | O => dict_set 0 (name v) row
  | S m => dict_set (Z.of_nat (S m)) (wl_label kg (S m) v) (row_upto kg v row m)
  end.

(** The inverse dict after the items of a row were assigned in turn. *)
Definition invert_row (row : list (Z * string)) (d : list (pyany * pyany))
    : list (pyany * pyany) :=
  fold_left (fun d kv => dict_set (AStr (snd kv)) (AInt (fst kv)) d) row d.

(** The per-vertex dicts a pass starts from; the inverse one already holds
    the entry written by the first loop. *)
Definition row0 (self : WLWalker) (v : Vertex) : list (Z * string) :=
  default [] (_label_map self !! name v).

Definition inv_row0 (self : WLWalker) (v : Vertex) : list (pyany * pyany) :=
  dict_set (AInt 0) (AStr (name v)) (default [] (_inv_label_map self !! name v)).

(** The tables of [self'] hold the given dicts for the vertices [done] and
    are those of [self] elsewhere. *)
Definition st_rel (self self' : WLWalker) (done : list Vertex)
    (row : Vertex -> list (Z * string))
    (irow : Vertex -> list (pyany * pyany)) : Prop :=
  wl_iterations self' = wl_iterations self /\
  (forall v, v ∈ done -> _label_map self' !! name v = Some (row v)) /\
  (forall x, x ∉ map name done -> _label_map self' !! x = _label_map self !! x) /\
  (forall v, v ∈ done -> _inv_label_map self' !! name v = Some (irow v)) /\
  (forall x, x ∉ map name done ->
     _inv_label_map self' !! x = _inv_label_map self !! x).

(** The dict of a vertex after a pass with the iteration count of [self]. *)
Definition final_row (kg : KG) (self : WLWalker) (v : Vertex)
    : list (Z * string) :=
  row_upto kg v (row0 self v) (Z.to_nat (wl_iterations self)).

(** The state a relabeling pass over [kg] leaves, in terms of the state
    [self] it started from. *)
Definition relabel_post (kg : KG) (self self' : WLWalker) : Prop :=
  st_rel self self' (_vertices kg) (final_row kg self)
    (fun v => invert_row (final_row kg self v) (inv_row0 self v)).

(** *** The pass as a sequence of writes

    For graphs outside the data model too, a pass is a sequence of
    assignments [self._label_map[x][n] = l]; the labels of level [n] are
    computed from the entries of level [n - 1] only. *)

(** [m[x][n]] without the side effect. *)
Definition lm_get (m : gmap string (list (Z * string))) (x : string) (n : Z)
    : option string :=
  match m !! x with
  | Some d => dict_get n d
  | None => None
  end.

(** [m[x][n] = l] *)
Definition lm_set (x : string) (n : Z) (l : string)
    (m : gmap string (list (Z * string))) : gmap string (list (Z * string)) :=
  <[x := dict_set n l (default [] (m !! x))]> m.

Definition apply_writes (ws : list (string * Z * string))
    (m : gmap string (list (Z * string))) : gmap string (list (Z * string)) :=
  fold_left (fun m w => lm_set (fst (fst w)) (snd (fst w)) (snd w) m) ws m.

(** The label that the last write to [key] assigns. *)
Definition last_write (ws : list (string * Z * string)) (key : string * Z)
    : option string :=
  fold_left (fun acc w => if decide (fst w = key) then Some (snd w) else acc)
            ws None.

(** The writes of the first loop. *)
Definition init_writes (vs : list Vertex) : list (string * Z * string) :=
  map (fun v => (name v, 0, name v)) vs.

(** The labels of the predecessors, when all are stored. *)
Fixpoint labels_at (m : gmap string (list (Z * string))) (ps : list Vertex)
    (k : Z) : option (list string) :=
  match ps with
  | [] => Some []
  | p :: ps' =>
      match lm_get m (name p) k, labels_at m ps' k with
      | Some l, Some ls => Some (l :: ls)
      | _, _ => None
      end
  end.

(** What [_create_label] returns on the table [m], when every label it reads
    is stored. *)
Definition pre_hash_of (m : gmap string (list (Z * string))) (kg : KG)
    (v : Vertex) (n : Z) : option string :=
  match labels_at m (predecessors kg v) (n - 1), lm_get m (name v) (n - 1) with
  | Some labels, Some own => Some (pre_hash own labels)
  | _, _ => None
  end.

(** The writes of level [n] over the vertices [vs], computed on the table
    [m]. *)
Fixpoint level_writes (m : gmap string (list (Z * string))) (kg : KG) (n : Z)
    (vs : list Vertex) : option (list (string * Z * string)) :=
  match vs with
  | [] => Some []
  | v :: vs' =>
      match pre_hash_of m kg v n, level_writes m kg n vs' with
      | Some l, Some ws => Some ((name v, n, md5_digest_str l) :: ws)
      | _, _ => None
      end
  end.

(** The table after the levels were relabelled in turn, when every label
    read on the way is stored. *)
Fixpoint levels_pure (kg : KG) (levels : list Z)
    (m : gmap string (list (Z * string)))
    : option (gmap string (list (Z * string))) :=
  match levels with
  | [] => Some m
  | n :: levels' =>
      match level_writes m kg n (_vertices kg) with
      | Some ws => levels_pure kg levels' (apply_writes ws m)
      | None => None
      end
  end.

(** The table [m] holds, for the vertices of [kg], the labels that the first
    loop and the given levels of the second loop write when run on [m]
    itself. *)
Definition settled (kg : KG) (m : gmap string (list (Z * string)))
    (levels : list Z) : Prop :=
  (forall v, v ∈ _vertices kg -> lm_get m (name v) 0 = Some (name v)) /\
  forall n, n ∈ levels ->
    exists ws,
      level_writes m kg n (_vertices kg) = Some ws /\
      forall key l, last_write ws key = Some l ->
                    lm_get m (fst key) (snd key) = Some l.

(** The level of the last item of a row that holds the label [s]. *)
Definition last_level (row : list (Z * string)) (s : string) : option Z :=
  fold_left (fun acc kv => if decide (snd kv = s) then Some (fst kv) else acc)
            row None.

(** The row of a vertex when the pass starts from an empty row. *)
Definition levels_row (kg : KG) (v : Vertex) (n : nat) : list (Z * string) :=
  map (fun m => (Z.of_nat m, wl_label kg m v)) (seq 0 (S n)).

(** The canonical form of one hop, given the stored labels. *)
Definition canonical_hop (self : WLWalker) (n : Z) (i : Z) (hop : Vertex)
    : option string :=
  if (i =? 0) || (i mod 2 =? 1) then Some (name hop)
  else label_of self (name hop) n.

(** The canonical walk of a list of enumerated hops when every label it
    needs is stored. *)
Definition canonical_walk_of (self : WLWalker) (n : Z)
    (hops : list (Z * Vertex)) : list string :=
  map (fun ih => default ""%string (canonical_hop self n (fst ih) (snd ih))) hops.

(** Every label that the canonical walk needs is stored. *)
Definition hops_present (self : WLWalker) (n : Z) (hops : list (Z * Vertex))
    : Prop :=
  Forall (fun ih => is_Some (canonical_hop self n (fst ih) (snd ih))) hops.

(** The canonical walks of all the walks at all the levels, in the order in
    which [_extract] builds them. *)
Definition all_canonical (self : WLWalker) (levels : list Z)
    (walks : list (list Vertex)) : list (list string) :=
  flat_map (fun n => map (fun w => canonical_walk_of self n (enumerate w)) walks)
           levels.

Definition walks_present (self : WLWalker) (n : Z) (walks : list (list Vertex))
    : Prop :=
  Forall (fun w => hops_present self n (enumerate w)) walks.

Definition levels_present (self : WLWalker) (levels : list Z)
    (walks : list (list Vertex)) : Prop :=
  Forall (fun n => walks_present self n walks) levels.

(** [c] is the canonical walk of [walk] at level [n]: it has the length of
    the walk, holds the name of the hop at position 0 and at the odd
    positions, and the stored label of the hop at level [n] at the other
    positions. *)
Definition canonical_for (self : WLWalker) (n : Z) (walk : list Vertex)
    (c : list string) : Prop :=
  length c = length walk /\
  forall (i : nat) hop,
    walk !! i = Some hop ->
    (i = O \/ (i mod 2 = 1)%nat -> c !! i = Some (name hop)) /\
    (i <> O -> (i mod 2 = 0)%nat -> c !! i = label_of self (name hop) n).

#[global] Instance hops_present_dec self n hops : Decision (hops_present self n hops).
Proof. unfold hops_present. apply _. Defined.

#[global] Instance walks_present_dec self n walks :
  Decision (walks_present self n walks).
Proof. unfold walks_present. apply _. Defined.

#[global] Instance levels_present_dec self levels walks :
  Decision (levels_present self levels walks).
Proof. unfold levels_present. apply _. Defined.

(** The freshly constructed walker with a given number of iterations. *)
Definition fresh (iterations : Z) : WLWalker := mkWLWalker iterations ∅ ∅.

(** ** The public entry point and what the methods leave alone *)

(** [extract]: it relabels and then calls [extract] of the base class, which
    is not among the sources and is a parameter. *)
Definition extract {R} (super_extract : KG -> list string -> Z -> M R)
    (fuel : nat) (kg : KG) (instances : list string) (verbose : Z) : M R :=
  _weisfeiler_lehman fuel kg ;; super_extract kg instances verbose.

(** A method that, run with the iteration count [L], leaves the count alone
    and raises nothing but [KeyError] with an integer key in [allowed]. *)
Definition raises_only {A} (L : Z) (allowed : Z -> Prop) (m : M A) : Prop :=
  forall self o self',
    wl_iterations self = L -> m self = (o, self') ->
    wl_iterations self' = L /\
    forall e, o = Raise e -> exists k, e = KeyError (AInt k) /\ allowed k.

(** Whenever [m1] returns or raises, [m2] does the same and leaves the same
    walker: [m2] is [m1] with at least as much fuel. *)
Definition fuel_mono {A} (m1 m2 : M A) : Prop :=
  forall self o self', m1 self = (o, self') -> o <> OutOfFuel -> m2 self = (o, self').

(** [self'] has the iteration count, the inverse table and every stored
    label of [self], and the dicts of the names that had one. *)
Definition same_labels (self self' : WLWalker) : Prop :=
  wl_iterations self' = wl_iterations self /\
  _inv_label_map self' = _inv_label_map self /\
  (forall x n, label_of self' x n = label_of self x n) /\
  (forall x, is_Some (_label_map self !! x) ->
             _label_map self' !! x = _label_map self !! x).

(** A method that, whatever its outcome, leaves the stored labels alone. *)
Definition keeps_labels {A} (m : M A) : Prop :=
  forall self o self', m self = (o, self') -> same_labels self self'.

(** A method all of whose runs, whatever their outcome, leave the walker
    in the relation [R] to the walker they started from. *)
Definition keeps {A} (R : relation WLWalker) (m : M A) : Prop :=
  forall self o self', m self = (o, self') -> R self self'.

(** The stored entry of the inverse table under a name and a key, if any. *)
Definition inv_of (self : WLWalker) (x : string) (k : pyany) : option pyany :=
  match _inv_label_map self !! x with
  | Some d => dict_get k d
  | None => None
  end.

(** [self'] has the iteration count of [self] and an entry wherever a table
    of [self] has one. *)
Definition no_entry_lost (self self' : WLWalker) : Prop :=
  wl_iterations self' = wl_iterations self /\
  (forall x n, is_Some (label_of self x n) -> is_Some (label_of self' x n)) /\
  (forall x k, is_Some (inv_of self x k) -> is_Some (inv_of self' x k)).

(** The entries that the first loop of a pass over [kg] writes: the name of
    each vertex as its label of level 0, and under the key 0 of its inverse
    dict. *)
Definition named_at_zero (kg : KG) (self : WLWalker) : Prop :=
  forall v, v ∈ _vertices kg ->
    label_of self (name v) 0 = Some (name v) /\
    inv_of self (name v) (AInt 0) = Some (AStr (name v)).

(** ** Example graphs *)

Definition vA : Vertex := mkVertex "A" false.
Definition vB : Vertex := mkVertex "B" false.
Definition vC : Vertex := mkVertex "C" false.
Definition vZ : Vertex := mkVertex "Z" false.

(** The chain A -> B -> C. *)
Definition kg_abc : KG := kg_of_edges [vA; vB; vC] [(vA, vB); (vB, vC)].


(** Outside the data model: two vertices of one name, a predicate and an
    entity, with different predecessors, enumerated in two orders. *)
Definition vP : Vertex := mkVertex "P" true.
Definition vP' : Vertex := mkVertex "P" false.
Definition kg_dup : KG :=
  kg_of_edges [vA; vC; vP; vP'] [(vA, vP); (vC, vP')].
Definition kg_dup' : KG :=
  kg_of_edges [vA; vC; vP'; vP] [(vA, vP); (vC, vP')].

(** The graph with the single vertex A and no edge. *)
Definition kg_a : KG := kg_of_edges [vA] [].

(** The vertex B with the edge from A, which is not in the vertex set. *)
Definition kg_dangling : KG := kg_of_edges [vB] [(vA, vB)].

(** The graph without vertices. *)
Definition kg_empty : KG := kg_of_edges [] [].

(** The vertices of the chain with the edges removed. *)
Definition kg_abc_cut : KG := kg_of_edges [vA; vB; vC] [].

(** The graph with the single vertex Z, and the walker after a pass over
    it. *)
Definition kg_z : KG := kg_of_edges [vZ] [].

Definition relabelled_z : WLWalker :=
  snd (_weisfeiler_lehman 2 kg_z (fresh 1)).

(** The walker after one pass over the chain, with one iteration. *)
Definition relabelled_abc : WLWalker :=
  snd (_weisfeiler_lehman 2 kg_abc (fresh 1)).

(** A sampler that returns the one walk A, B, C. *)
Definition sample_abc (kg : KG) (instance : Vertex) : list (list Vertex) :=
  [[vA; vB; vC]].

(** A sampler that returns the walk that holds the root only. *)
Definition sample_root (kg : KG) (instance : Vertex) : list (list Vertex) :=
  [[instance]].

(** ** The model of hashlib agrees with the published digests *)

Example md5_empty :
  MD5.digest (encode "") =
  [0xd4; 0x1d; 0x8c; 0xd9; 0x8f; 0x00; 0xb2; 0x04;
   0xe9; 0x80; 0x09; 0x98; 0xec; 0xf8; 0x42; 0x7e].
Proof. vm_compute. reflexivity. Qed.

Example md5_abc :
  MD5.digest (encode "abc") =
  [0x90; 0x01; 0x50; 0x98; 0x3c; 0xd2; 0x4f; 0xb0;
   0xd6; 0x96; 0x3f; 0x7d; 0x28; 0xe1; 0x7f; 0x72].
Proof. vm_compute. reflexivity. Qed.

Example md5_message_digest :
  MD5.digest (encode "message digest") =
  [0xf9; 0x6b; 0x69; 0x7d; 0x7c; 0xb7; 0x93; 0x8d;
   0x52; 0x5a; 0x2f; 0x31; 0xaa; 0xf1; 0x61; 0xd0].
Proof. vm_compute. reflexivity. Qed.

(** [str] of bytes objects: the escapes, and the choice of the quote. *)
Example bytes_repr_escapes :
  bytes_repr [0; 9; 10; 13; 92; 65; 127; 255] = "b'\x00\t\n\r\\A\x7f\xff'".
Proof. vm_compute. reflexivity. Qed.

Example bytes_repr_quotes :
  bytes_repr [39; 65] =
    String "b" (String (ascii_of_byte quote2)
      (String "'" (String "A" (String (ascii_of_byte quote2) "")))) /\
  bytes_repr [39; 34] =
    String "b" (String "'" (String (ascii_of_byte backslash) (String "'"
      (String (ascii_of_byte quote2) (String "'" ""))))).
Proof. vm_compute. split; reflexivity. Qed.

(** [str(md5(b"B-A").digest())] as Python prints it. *)
Example md5_digest_str_B_A :
  md5_digest_str "B-A" =
  "b'\x93\xee\x8c\ny\x95\x84\x80\xa3\xb1\xbc\x8c5u\xdc\xbd'".
Proof. vm_compute. reflexivity. Qed.

(** ** The scenario of the specification: the chain A -> B -> C, one
    iteration *)

Example chain_label_map :
  _label_map relabelled_abc =
  {[ "A" := [(0, "A"); (1, md5_digest_str "A-")];
     "B" := [(0, "B"); (1, md5_digest_str "B-A")];
     "C" := [(0, "C"); (1, md5_digest_str "C-B")] ]}.
Proof. vm_compute. reflexivity. Qed.

Example chain_inv_label_map :
  _inv_label_map relabelled_abc =
  {[ "A" := [(AInt 0, AStr "A"); (AStr "A", AInt 0);
             (AStr (md5_digest_str "A-"), AInt 1)];
     "B" := [(AInt 0, AStr "B"); (AStr "B", AInt 0);
             (AStr (md5_digest_str "B-A"), AInt 1)];
     "C" := [(AInt 0, AStr "C"); (AStr "C", AInt 0);
             (AStr (md5_digest_str "C-B"), AInt 1)] ]}.
Proof. vm_compute. reflexivity. Qed.

Example chain_canonical_walks :
  _extract sample_abc kg_abc vA relabelled_abc =
  (Ret {[ "A" := [["A"; "B"; "C"]; ["A"; "B"; md5_digest_str "C-B"]] ]},
   relabelled_abc).
Proof. vm_compute. reflexivity. Qed.

(** A pass needs two units of fuel and no more; the lazy call in
    [_create_label] on an empty table needs one more. *)
Example chain_fuel :
  fst (_weisfeiler_lehman 1 kg_abc (fresh 1)) = OutOfFuel /\
  fst (_weisfeiler_lehman 2 kg_abc (fresh 1)) = Ret tt /\
  fst (_create_label 3 kg_abc vB 1 (fresh 1)) = Ret "B-A"%string.
Proof. vm_compute. repeat split; reflexivity. Qed.

(** ** Dicts *)

Section pydict_facts.
Context {K V : Type} `{EqDecision K}.
Implicit Types (k : K) (v : V) (d : list (K * V)).

Lemma dict_get_set_eq k v d : dict_get k (dict_set k v d) = Some v.
Proof.
  induction d as [|[k' v'] d IH]; simpl.
  - by rewrite decide_True.
  - destruct (decide (k = k')) as [->|Hne]; simpl.
    + by rewrite decide_True.
    + by rewrite decide_False.
Qed.

Lemma dict_get_set_ne k k' v d :
  k <> k' -> dict_get k' (dict_set k v d) = dict_get k' d.
Proof.
  intros Hne. induction d as [|[k0 v0] d IH]; simpl.
  - rewrite decide_False; [done | congruence].
  - destruct (decide (k = k0)) as [->|Hne0]; simpl.
    + rewrite !decide_False; [done | congruence | congruence].
    + destruct (decide (k' = k0)); done.
Qed.

Lemma dict_get_set k k' v d :
  dict_get k' (dict_set k v d) =
  if decide (k = k') then Some v else dict_get k' d.
Proof.
  destruct (decide (k = k')) as [->|Hne].
  - apply dict_get_set_eq.
  - by apply dict_get_set_ne.
Qed.

Lemma dict_set_id k v d : dict_get k d = Some v -> dict_set k v d = d.
Proof.
  induction d as [|[k' v'] d IH]; simpl; [done|].
  destruct (decide (k = k')) as [->|Hne].
  - by intros [= ->].
  - intros Hd. by rewrite IH.
Qed.

End pydict_facts.

(** ** The order of [sorted] *)

Lemma ascii_compare_refl a : Ascii.compare a a = Eq.
Proof. unfold Ascii.compare. apply N.compare_refl. Qed.

Lemma ascii_compare_lt_trans a b c :
  Ascii.compare a b = Lt -> Ascii.compare b c = Lt -> Ascii.compare a c = Lt.
Proof. unfold Ascii.compare. rewrite !N.compare_lt_iff. lia. Qed.

Lemma string_compare_refl s : String.compare s s = Eq.
Proof. induction s as [|a s IH]; simpl; [done|]. by rewrite ascii_compare_refl. Qed.

Lemma string_compare_lt_trans s1 :
  forall s2 s3,
    String.compare s1 s2 = Lt -> String.compare s2 s3 = Lt ->
    String.compare s1 s3 = Lt.
Proof.
  induction s1 as [|a s1 IH]; intros [|b s2] [|c s3]; simpl; try done.
  destruct (Ascii.compare a b) eqn:Eab; try done;
    destruct (Ascii.compare b c) eqn:Ebc; try done.
  - apply Ascii.compare_eq_iff in Eab as ->.
    apply Ascii.compare_eq_iff in Ebc as ->.
    rewrite ascii_compare_refl. apply IH.
  - apply Ascii.compare_eq_iff in Eab as ->. by rewrite Ebc.
  - apply Ascii.compare_eq_iff in Ebc as ->. by rewrite Eab.
  - by rewrite (ascii_compare_lt_trans _ _ _ Eab Ebc).
Qed.

Lemma str_le_cases s1 s2 : str_le s1 s2 <-> String.compare s1 s2 = Lt \/ s1 = s2.
Proof.
  unfold str_le, String.leb. split.
  - destruct (String.compare s1 s2) eqn:E; try done.
    + apply String.compare_eq_iff in E. by right.
    + by left.
  - intros [-> | ->]; [done|]. by rewrite string_compare_refl.
Qed.

#[global] Instance str_le_trans : Transitive str_le.
Proof.
  intros s1 s2 s3. rewrite !str_le_cases.
  intros [H12 | ->] [H23 | ->]; eauto using string_compare_lt_trans.
Qed.

#[global] Instance str_le_total : Total str_le.
Proof. intros s1 s2. apply String.leb_total. Qed.

#[global] Instance str_le_antisym : AntiSymm (=) str_le.
Proof. intros s1 s2. apply String.leb_antisym. Qed.


(** It depends on the set of the labels only. *)
Lemma sorted_set_ext (l1 l2 : list string) :
  (forall x, x ∈ l1 <-> x ∈ l2) -> sorted_set l1 = sorted_set l2.
Proof.
  intros Hl. unfold sorted_set.
  assert ((list_to_set l1 : gset string) = list_to_set l2) as ->; [|done].
  apply set_eq. intros x. by rewrite !elem_of_list_to_set.
Qed.

(** ** range *)

Lemma elem_of_range lo hi n : n ∈ range lo hi <-> lo <= n < hi.
Proof.
  unfold range. rewrite list_elem_of_In, in_map_iff. split.
  - intros (i & <- & Hi). apply in_seq in Hi. lia.
  - intros Hn. exists (Z.to_nat (n - lo)). split; [lia|].
    apply in_seq. lia.
Qed.

Lemma range_split lo hi d x r :
  range lo hi = d ++ x :: r -> x = lo + Z.of_nat (length d).
Proof.
  unfold range. intros Heq.
  assert (Hx : (d ++ x :: r) !! length d = Some x).
  { by rewrite list_lookup_middle. }
  rewrite <- Heq in Hx.
  rewrite list_lookup_fmap in Hx.
  destruct (seq 0 (Z.to_nat (hi - lo)) !! length d) as [i|] eqn:Hi;
    simpl in Hx; [|done].
  apply lookup_seq in Hi as [-> _]. simpl in Hx. congruence.
Qed.

Lemma range_length lo hi : length (range lo hi) = Z.to_nat (hi - lo).
Proof. unfold range. by rewrite length_map, length_seq. Qed.

(** ** Running the methods *)

Lemma bind_ret_run {A B} (m : M A) (k : A -> M B) self a self' :
  m self = (Ret a, self') -> bind m k self = k a self'.
Proof. unfold bind. by intros ->. Qed.

Lemma bind_raise_run {A B} (m : M A) (k : A -> M B) self e self' :
  m self = (Raise e, self') -> bind m k self = (Raise e, self').
Proof. unfold bind. by intros ->. Qed.

Lemma set_inv_label_map_id self :
  set_inv_label_map (_inv_label_map self) self = self.
Proof. by destruct self. Qed.

Lemma label_map_setitem_run x n l self :
  label_map_setitem x n l self =
  (Ret tt,
   set_label_map
     (<[x := dict_set n l (default [] (_label_map self !! x))]> (_label_map self))
     self).
Proof.
  unfold label_map_setitem, bind, label_map_row.
  destruct (_label_map self !! x) eqn:E; simpl; [done|].
  unfold set_label_map; simpl. by rewrite insert_insert_eq.
Qed.

Lemma inv_label_map_setitem_run x k v self :
  inv_label_map_setitem x k v self =
  (Ret tt,
   set_inv_label_map
     (<[x := dict_set k v (default [] (_inv_label_map self !! x))]>
        (_inv_label_map self))
     self).
Proof.
  unfold inv_label_map_setitem, bind, inv_label_map_row.
  destruct (_inv_label_map self !! x) eqn:E; simpl; [done|].
  unfold set_inv_label_map; simpl. by rewrite insert_insert_eq.
Qed.

Lemma label_map_getitem_some x n l self :
  label_of self x n = Some l -> label_map_getitem x n self = (Ret l, self).
Proof.
  unfold label_of, label_map_getitem, bind, label_map_row.
  destruct (_label_map self !! x) as [d|]; [|done].
  intros ->. done.
Qed.

Lemma label_map_getitem_none x n self :
  label_of self x n = None ->
  label_map_getitem x n self =
  (Raise (KeyError (AInt n)),
   match _label_map self !! x with
   | Some _ => self
   | None => set_label_map (<[x := []]> (_label_map self)) self
   end).
Proof.
  unfold label_of, label_map_getitem, bind, label_map_row.
  destruct (_label_map self !! x) as [d|]; [|done].
  intros ->. done.
Qed.

Lemma label_map_row_some x d self :
  _label_map self !! x = Some d -> label_map_row x self = (Ret d, self).
Proof. unfold label_map_row. by intros ->. Qed.

(** A loop whose body keeps an invariant and returns, returns and
    establishes the invariant for the whole list. *)
Lemma for_invariant {A} (I : list A -> WLWalker -> Prop) (body : A -> M unit)
    (l : list A) :
  forall done self,
    I done self ->
    (forall d x r s, done ++ l = d ++ x :: r -> I d s ->
       exists s', body x s = (Ret tt, s') /\ I (d ++ [x]) s') ->
    exists self', for_ l body self = (Ret tt, self') /\ I (done ++ l) self'.
Proof.
  induction l as [|x l IH]; intros done self HI Hbody; simpl.
  - exists self. by rewrite app_nil_r.
  - destruct (Hbody done x l self eq_refl HI) as (s1 & Hrun & HI1).
    destruct (IH (done ++ [x]) s1 HI1) as (s2 & Hrun2 & HI2).
    { intros d y r s Heq. apply (Hbody d y r s).
      by rewrite <- Heq, <- app_assoc. }
    exists s2. rewrite (bind_ret_run _ _ _ _ _ Hrun).
    by rewrite <- app_assoc in HI2.
Qed.

Lemma comprehension_run {A B} (f : A -> M B) (g : A -> B) (l : list A) self :
  (forall x, x ∈ l -> f x self = (Ret (g x), self)) ->
  comprehension f l self = (Ret (map g l), self).
Proof.
  induction l as [|x l IH]; intros Hf; simpl; [done|].
  rewrite (bind_ret_run _ _ _ _ _ (Hf x ltac:(left))).
  rewrite (bind_ret_run _ _ _ _ _ (IH ltac:(intros; apply Hf; by right))).
  done.
Qed.

Lemma create_label_run fuel kg v n self (lab : Vertex -> string) own :
  _label_map self <> ∅ ->
  (forall p, p ∈ predecessors kg v ->
     label_of self (name p) (n - 1) = Some (lab p)) ->
  label_of self (name v) (n - 1) = Some own ->
  _create_label (S fuel) kg v n self =
  (Ret (pre_hash own (map lab (predecessors kg v))), self).
Proof.
  intros Hne Hpred Hown. simpl.
  unfold bind at 1. unfold label_map_len.
  assert ((Z.of_nat (size (_label_map self)) =? 0) = false) as ->.
  { apply Z.eqb_neq. intros Hz.
    apply Hne, map_size_empty_iff. lia. }
  unfold bind at 1. unfold ret at 1.
  rewrite (bind_ret_run _ _ _ _ _
             (comprehension_run _ lab _ self
                (fun p Hp => label_map_getitem_some _ _ _ _ (Hpred p Hp)))).
  rewrite (bind_ret_run _ _ _ _ _ (label_map_getitem_some _ _ _ _ Hown)).
  done.
Qed.

Lemma invert_items_run x (items : list (Z * string)) :
  forall self d,
    _inv_label_map self !! x = Some d ->
    for_ (dict_items items)
      (fun '(k, v) => inv_label_map_setitem x (AStr v) (AInt k)) self =
    (Ret tt,
     set_inv_label_map (<[x := invert_row items d]> (_inv_label_map self)) self).
Proof.
  induction items as [|[k l] items IH]; intros self d Hd; simpl.
  - unfold ret. by rewrite insert_id, set_inv_label_map_id.
  - rewrite (bind_ret_run _ _ _ _ _ (inv_label_map_setitem_run _ _ _ _)).
    rewrite Hd; simpl.
    rewrite (IH _ (dict_set (AStr l) (AInt k) d)).
    + unfold set_inv_label_map; simpl. by rewrite insert_insert_eq.
    + simpl. apply lookup_insert_eq.
Qed.

(** ** The relabeling pass *)

Lemma name_inj_on (l : list Vertex) :
  NoDup (map name l) ->
  forall v w, v ∈ l -> w ∈ l -> name v = name w -> v = w.
Proof.
  induction l as [|a l IH]; intros Hnd v w Hv Hw Heq.
  - by apply elem_of_nil in Hv.
  - simpl in Hnd. apply NoDup_cons in Hnd as [Ha Hnd].
    apply elem_of_cons in Hv as [->|Hv]; apply elem_of_cons in Hw as [->|Hw].
    + done.
    + exfalso. apply Ha. rewrite Heq. apply list_elem_of_In, in_map.
      by apply list_elem_of_In.
    + exfalso. apply Ha. rewrite <- Heq. apply list_elem_of_In, in_map.
      by apply list_elem_of_In.
    + by apply IH.
Qed.

Lemma elem_of_map_name (l : list Vertex) x :
  x ∈ map name l <-> exists v, v ∈ l /\ name v = x.
Proof.
  rewrite list_elem_of_In, in_map_iff. split.
  - intros (v & Hv & Hin). exists v. by rewrite list_elem_of_In.
  - intros (v & Hin & Hv). exists v. by rewrite <- list_elem_of_In.
Qed.

Lemma NoDup_names_split (l d r : list Vertex) x :
  NoDup (map name l) -> l = d ++ x :: r -> (name x ∉ map name d) /\ (x ∉ d).
Proof.
  intros Hnd ->. rewrite map_app in Hnd. simpl in Hnd.
  apply NoDup_app in Hnd as (_ & Hdisj & _).
  assert (Hx : name x ∉ map name d).
  { intros Hin. apply (Hdisj _ Hin). left. }
  split; [done|]. intros Hin. apply Hx, elem_of_map_name. eauto.
Qed.

Lemma st_rel_ext self self' done row row' irow irow' :
  (forall v, v ∈ done -> row v = row' v) ->
  (forall v, v ∈ done -> irow v = irow' v) ->
  st_rel self self' done row irow -> st_rel self self' done row' irow'.
Proof.
  intros Hr Hi (Hwl & Hlm & Hlm' & Him & Him').
  repeat split; try done.
  - intros v Hv. by rewrite <- Hr, Hlm.
  - intros v Hv. by rewrite <- Hi, Him.
Qed.

Lemma row_upto_get kg v row n m :
  (m <= n)%nat -> dict_get (Z.of_nat m) (row_upto kg v row n) = Some (wl_label kg m v).
Proof.
  induction n as [|n IH]; intros Hm.
  - assert (m = O) as -> by lia. simpl. apply dict_get_set_eq.
  - change (row_upto kg v row (S n))
      with (dict_set (Z.of_nat (S n)) (wl_label kg (S n) v) (row_upto kg v row n)).
    rewrite dict_get_set. destruct (decide (Z.of_nat (S n) = Z.of_nat m)) as [E|E].
    + by assert (m = S n) as -> by lia.
    + apply IH. lia.
Qed.

Lemma row_upto_get_other kg v row n k :
  (k < 0 \/ Z.of_nat n < k) ->
  dict_get k (row_upto kg v row n) = dict_get k row.
Proof.
  induction n as [|n IH]; intros Hk.
  - simpl. apply dict_get_set_ne. lia.
  - change (row_upto kg v row (S n))
      with (dict_set (Z.of_nat (S n)) (wl_label kg (S n) v) (row_upto kg v row n)).
    rewrite dict_get_set_ne by lia. apply IH. lia.
Qed.

Section relabel.
Variable kg : KG.
Variable self0 : WLWalker.
Hypothesis Hwf : well_formed kg.

Local Abbreviation V := (_vertices kg).
Local Abbreviation row_at n := (fun v => row_upto kg v (row0 self0 v) n).

Lemma V_name_inj v w : v ∈ V -> w ∈ V -> name v = name w -> v = w.
Proof. apply name_inj_on, Hwf. Qed.

Lemma V_closed v p : v ∈ V -> p ∈ predecessors kg v -> p ∈ V.
Proof.
  intros Hv Hp. destruct Hwf as [_ Hcl].
  rewrite Forall_forall in Hcl. specialize (Hcl v Hv).
  rewrite Forall_forall in Hcl. by apply Hcl.
Qed.

(** The first loop: level 0 of both tables. *)
Lemma init_loop self :
  self = self0 ->
  exists self',
    for_ V (fun vertex =>
      label_map_setitem (name vertex) 0 (name vertex) ;;
      inv_label_map_setitem (name vertex) (AInt 0) (AStr (name vertex))) self
    = (Ret tt, self') /\
    st_rel self0 self' V (row_at O) (inv_row0 self0).
Proof.
  intros ->.
  apply (for_invariant
           (fun d s => st_rel self0 s d (row_at O) (inv_row0 self0)) _ V []).
  { repeat split; try done; intros v Hv; by apply elem_of_nil in Hv. }
  intros d v r s Heq (Hwl & Hlm & Hlm' & Him & Him').
  destruct (NoDup_names_split V d r v (proj1 Hwf) Heq) as [Hv Hvd].
  rewrite (bind_ret_run _ _ _ _ _ (label_map_setitem_run _ _ _ _)).
  rewrite inv_label_map_setitem_run. eexists; split; [done|].
  unfold set_label_map, set_inv_label_map; simpl.
  assert (Hnames : forall x, x ∉ map name (d ++ [v]) ->
                             x <> name v /\ x ∉ map name d).
  { intros x Hx. rewrite map_app, elem_of_app in Hx. simpl in Hx.
    split; [|tauto]. intros ->. apply Hx. right. left. }
  repeat split; simpl; try done.
  - intros w [Hw | ->%list_elem_of_singleton]%elem_of_app.
    + rewrite lookup_insert_ne; [by apply Hlm|].
      intros E. apply Hv, elem_of_map_name. eauto.
    + rewrite lookup_insert_eq, (Hlm' _ Hv). done.
  - intros x [Hne Hx]%Hnames. rewrite lookup_insert_ne by done. by apply Hlm'.
  - intros w [Hw | ->%list_elem_of_singleton]%elem_of_app.
    + rewrite lookup_insert_ne; [by apply Him|].
      intros E. apply Hv, elem_of_map_name. eauto.
    + rewrite lookup_insert_eq, (Him' _ Hv). done.
  - intros x [Hne Hx]%Hnames. rewrite lookup_insert_ne by done. by apply Him'.
Qed.

(** One level of the second loop, over all the vertices. *)
Lemma level_loop fuel k self :
  st_rel self0 self V (row_at k) (inv_row0 self0) ->
  exists self',
    for_ V (fun vertex =>
      do label <- _create_label (S fuel) kg vertex (Z.of_nat (S k));
      label_map_setitem (name vertex) (Z.of_nat (S k)) (md5_digest_str label))
      self
    = (Ret tt, self') /\
    st_rel self0 self' V (row_at (S k)) (inv_row0 self0).
Proof.
  intros Hst.
  pose (I := fun (d : list Vertex) s =>
    st_rel self0 s V
      (fun v => if decide (v ∈ d) then row_at (S k) v else row_at k v)
      (inv_row0 self0)).
  destruct (for_invariant I
    (fun vertex =>
      do label <- _create_label (S fuel) kg vertex (Z.of_nat (S k));
      label_map_setitem (name vertex) (Z.of_nat (S k)) (md5_digest_str label))
    V [] self) as (self' & Hrun & HI).
  { revert Hst. apply st_rel_ext; [|done].
    intros v _. rewrite decide_False; [done|]. apply not_elem_of_nil. }
  { intros d v r s Heq (Hwl & Hlm & Hlm' & Him & Him').
    simpl in Heq.
    destruct (NoDup_names_split V d r v (proj1 Hwf) Heq) as [_ Hvd].
    assert (HvV : v ∈ V).
    { rewrite Heq. apply elem_of_app. right. left. }
    assert (Hlab : forall p, p ∈ V ->
              label_of s (name p) (Z.of_nat (S k) - 1) = Some (wl_label kg k p)).
    { intros p Hp. unfold label_of. rewrite (Hlm p Hp).
      replace (Z.of_nat (S k) - 1) with (Z.of_nat k) by lia.
      destruct (decide (p ∈ d)); apply row_upto_get; lia. }
    rewrite (bind_ret_run _ _ _ _ _
      (create_label_run fuel kg v _ s (wl_label kg k) (wl_label kg k v)
         ltac:(intros E; specialize (Hlm v HvV); rewrite E in Hlm; done)
         ltac:(intros p Hp; apply Hlab; by apply (V_closed v))
         (Hlab v HvV))).
    rewrite label_map_setitem_run. eexists; split; [done|].
    unfold set_label_map; simpl.
    repeat split; simpl; try done.
    - intros w Hw. destruct (decide (w = v)) as [->|Hne].
      + rewrite lookup_insert_eq, (Hlm v HvV).
        rewrite decide_False by done.
        rewrite decide_True by (apply elem_of_app; right; left).
        done.
      + rewrite lookup_insert_ne.
        2:{ intros E. apply Hne. symmetry. by apply V_name_inj. }
        rewrite (Hlm w Hw).
        destruct (decide (w ∈ d)) as [Hd|Hd].
        * rewrite decide_True by (apply elem_of_app; by left). done.
        * rewrite decide_False; [done|].
          intros [?|?%list_elem_of_singleton]%elem_of_app; done.
    - intros x Hx. rewrite lookup_insert_ne; [by apply Hlm'|].
      intros <-. apply Hx, elem_of_map_name. eauto. }
  exists self'. split; [done|].
  revert HI. apply st_rel_ext; [|done].
  intros v Hv. by rewrite decide_True.
Qed.

(** The second loop: the levels [1..iterations]. *)
Lemma levels_loop fuel iterations self :
  st_rel self0 self V (row_at O) (inv_row0 self0) ->
  exists self',
    for_ (range 1 (iterations + 1)) (fun n =>
      for_ V (fun vertex =>
        do label <- _create_label (S fuel) kg vertex n;
        label_map_setitem (name vertex) n (md5_digest_str label))) self
    = (Ret tt, self') /\
    st_rel self0 self' V (row_at (Z.to_nat iterations)) (inv_row0 self0).
Proof.
  intros Hst.
  destruct (for_invariant
    (fun (d : list Z) s =>
       st_rel self0 s V (row_at (length d)) (inv_row0 self0))
    (fun n =>
      for_ V (fun vertex =>
        do label <- _create_label (S fuel) kg vertex n;
        label_map_setitem (name vertex) n (md5_digest_str label)))
    (range 1 (iterations + 1)) [] self Hst) as (self' & Hrun & HI).
  { intros d n r s Heq Hs. simpl in Heq.
    apply range_split in Heq.
    assert (n = Z.of_nat (S (length d))) as -> by lia.
    destruct (level_loop fuel (length d) s Hs) as (s' & Hrun & Hs').
    exists s'. split; [done|].
    by rewrite length_app, Nat.add_1_r. }
  exists self'. split; [done|].
  simpl in HI. rewrite range_length in HI.
  by replace (Z.to_nat (iterations + 1 - 1)) with (Z.to_nat iterations) in HI by lia.
Qed.

(** The third loop: the inverse table. *)
Lemma invert_loop n self :
  st_rel self0 self V (row_at n) (inv_row0 self0) ->
  exists self',
    for_ V (fun vertex =>
      do row <- label_map_row (name vertex);
      for_ (dict_items row) (fun '(k, v) =>
        inv_label_map_setitem (name vertex) (AStr v) (AInt k))) self
    = (Ret tt, self') /\
    st_rel self0 self' V (row_at n)
      (fun v => invert_row (row_at n v) (inv_row0 self0 v)).
Proof.
  intros Hst.
  pose (I := fun (d : list Vertex) s =>
    st_rel self0 s V (row_at n)
      (fun v => if decide (v ∈ d)
                then invert_row (row_at n v) (inv_row0 self0 v)
                else inv_row0 self0 v)).
  destruct (for_invariant I
    (fun vertex =>
      do row <- label_map_row (name vertex);
      for_ (dict_items row) (fun '(k, v) =>
        inv_label_map_setitem (name vertex) (AStr v) (AInt k)))
    V [] self) as (self' & Hrun & HI).
  { revert Hst. apply st_rel_ext; [done|].
    intros v _. rewrite decide_False; [done|]. apply not_elem_of_nil. }
  { intros d v r s Heq (Hwl & Hlm & Hlm' & Him & Him').
    simpl in Heq.
    destruct (NoDup_names_split V d r v (proj1 Hwf) Heq) as [_ Hvd].
    assert (HvV : v ∈ V).
    { rewrite Heq. apply elem_of_app. right. left. }
    rewrite (bind_ret_run _ _ _ _ _ (label_map_row_some _ _ _ (Hlm v HvV))).
    pose proof (Him v HvV) as Hiv. rewrite decide_False in Hiv by done.
    rewrite (invert_items_run _ _ _ _ Hiv).
    eexists; split; [done|].
    unfold set_inv_label_map; simpl.
    repeat split; simpl; try done.
    - intros w Hw. destruct (decide (w = v)) as [->|Hne].
      + rewrite lookup_insert_eq.
        rewrite decide_True by (apply elem_of_app; right; left).
        done.
      + rewrite lookup_insert_ne.
        2:{ intros E. apply Hne. symmetry. by apply V_name_inj. }
        rewrite (Him w Hw).
        destruct (decide (w ∈ d)) as [Hd|Hd].
        * rewrite decide_True by (apply elem_of_app; by left). done.
        * rewrite decide_False; [done|].
          intros [?|?%list_elem_of_singleton]%elem_of_app; done.
    - intros x Hx. rewrite lookup_insert_ne; [by apply Him'|].
      intros <-. apply Hx, elem_of_map_name. eauto. }
  exists self'. split; [done|].
  revert HI. apply st_rel_ext; [done|].
  intros v Hv. by rewrite decide_True.
Qed.

(** A pass over a graph of the data model returns, whatever the state it
    starts from, and leaves the tables described by [relabel_post]. *)
Lemma relabel_run fuel :
  exists self',
    _weisfeiler_lehman (S (S fuel)) kg self0 = (Ret tt, self') /\
    relabel_post kg self0 self'.
Proof.
  destruct (init_loop self0 eq_refl) as (s1 & Hrun1 & Hs1).
  destruct (levels_loop fuel (wl_iterations self0) s1 Hs1)
    as (s2 & Hrun2 & Hs2).
  destruct (invert_loop (Z.to_nat (wl_iterations self0)) s2 Hs2)
    as (s3 & Hrun3 & Hs3).
  exists s3. split; [|exact Hs3].
  change (_weisfeiler_lehman (S (S fuel)) kg)
    with (for_ V (fun vertex =>
            label_map_setitem (name vertex) 0 (name vertex) ;;
            inv_label_map_setitem (name vertex) (AInt 0) (AStr (name vertex))) ;;
          do iterations <- get_wl_iterations;
          for_ (range 1 (iterations + 1)) (fun n =>
            for_ V (fun vertex =>
              do label <- _create_label (S fuel) kg vertex n;
              label_map_setitem (name vertex) n (md5_digest_str label))) ;;
          for_ V (fun vertex =>
            do row <- label_map_row (name vertex);
            for_ (dict_items row) (fun '(k, v) =>
              inv_label_map_setitem (name vertex) (AStr v) (AInt k)))).
  rewrite (bind_ret_run _ _ _ _ _ Hrun1).
  unfold bind at 1, get_wl_iterations.
  destruct Hs1 as [-> _].
  by rewrite (bind_ret_run _ _ _ _ _ Hrun2).
Qed.
End relabel.

(** ** Stored labels after a pass *)

Lemma relabel_label_of kg self self' v m :
  relabel_post kg self self' ->
  v ∈ _vertices kg ->
  0 <= m <= wl_iterations self \/ m = 0 ->
  label_of self' (name v) m = Some (wl_label kg (Z.to_nat m) v).
Proof.
  intros (_ & Hlm & _) Hv Hm. unfold label_of. rewrite (Hlm v Hv).
  unfold final_row.
  replace m with (Z.of_nat (Z.to_nat m)) at 1 by lia.
  apply row_upto_get. lia.
Qed.




(** ** Independence of the enumeration order *)

Section order.
Variables kg1 kg2 : KG.
Hypothesis Hwf : well_formed kg1.
Hypothesis Hvertices : _vertices kg1 ≡ₚ _vertices kg2.
Hypothesis Hpreds :
  Forall (fun v => predecessors kg1 v ≡ₚ predecessors kg2 v) (_vertices kg1).





End order.



(** ** The tables are not cleared *)

(** C5, as stated, fails: a walker that has relabelled the graph with the
    single vertex Z and then relabels the graph with the single vertex A
    keeps the dicts of Z in both tables; a freshly constructed walker run
    over the same graph has none. *)
Lemma relabel_keeps_rows_outside_graph :
  exists self0 self1 self2,
    _weisfeiler_lehman 2 kg_z (fresh 1) = (Ret tt, self0) /\
    _weisfeiler_lehman 2 kg_a self0 = (Ret tt, self1) /\
    _weisfeiler_lehman 2 kg_a (fresh (wl_iterations self0)) = (Ret tt, self2) /\
    _label_map self1 !! "Z" = Some [(0, "Z"); (1, md5_digest_str "Z-")] /\
    _label_map self2 !! "Z" = None /\
    _inv_label_map self1 !! "Z" =
      Some [(AInt 0, AStr "Z"); (AStr "Z", AInt 0);
            (AStr (md5_digest_str "Z-"), AInt 1)] /\
    _inv_label_map self2 !! "Z" = None /\
    kg_names kg_a = ["A"].
Proof.
  exists relabelled_z, (snd (_weisfeiler_lehman 2 kg_a relabelled_z)),
    (snd (_weisfeiler_lehman 2 kg_a (fresh (wl_iterations relabelled_z)))).
  vm_compute. repeat split; reflexivity.
Qed.

(** C5, amended. A relabeling pass does not clear the tables.  From every
    prior state and for every graph of the data model, the pass returns and
    stores, for the vertices of the graph at the levels [0..L], the labels a
    freshly constructed walker with the same [L] stores for that graph; the
    label table entries of these vertices at other levels, and every entry
    of both tables under a name that is not in the graph, are those of the
    prior state. *)
Theorem relabel_overwrites_graph_rows (kg : KG) (self : WLWalker)
    (fuel1 fuel2 : nat) :
  well_formed kg ->
  exists self' fresh',
    _weisfeiler_lehman (S (S fuel1)) kg self = (Ret tt, self') /\
    _weisfeiler_lehman (S (S fuel2)) kg (fresh (wl_iterations self))
      = (Ret tt, fresh') /\
    (forall v n,
       v ∈ _vertices kg -> 0 <= n <= wl_iterations self \/ n = 0 ->
       is_Some (label_of self' (name v) n) /\
       label_of self' (name v) n = label_of fresh' (name v) n) /\
    (forall v n,
       v ∈ _vertices kg -> ~ (0 <= n <= wl_iterations self \/ n = 0) ->
       label_of self' (name v) n = label_of self (name v) n) /\
    (forall x,
       x ∉ kg_names kg ->
       _label_map self' !! x = _label_map self !! x /\
       _inv_label_map self' !! x = _inv_label_map self !! x).
Proof.
  intros Hwf.
  destruct (relabel_run kg self Hwf fuel1) as (self' & Hrun1 & Hpost1).
  destruct (relabel_run kg (fresh (wl_iterations self)) Hwf fuel2)
    as (fresh' & Hrun2 & Hpost2).
  exists self', fresh'. split; [done|]. split; [done|]. split; [|split].
  - intros v n Hv Hn.
    rewrite (relabel_label_of kg self self' v n Hpost1) by done.
    by rewrite (relabel_label_of kg _ fresh' v n Hpost2).
  - intros v n Hv Hn.
    destruct Hpost1 as (_ & Hlm & _). unfold label_of.
    rewrite (Hlm v Hv). unfold final_row.
    rewrite row_upto_get_other by lia.
    unfold row0. by destruct (_label_map self !! name v).
  - intros x Hx. split; by apply Hpost1.
Qed.

Lemma relabel_overwrites_graph_rows_witness :
  exists self' fresh',
    _weisfeiler_lehman 2 kg_a relabelled_z = (Ret tt, self') /\
    _weisfeiler_lehman 2 kg_a (fresh (wl_iterations relabelled_z))
      = (Ret tt, fresh') /\
    (forall v n,
       v ∈ _vertices kg_a -> 0 <= n <= wl_iterations relabelled_z \/ n = 0 ->
       is_Some (label_of self' (name v) n) /\
       label_of self' (name v) n = label_of fresh' (name v) n) /\
    (forall v n,
       v ∈ _vertices kg_a -> ~ (0 <= n <= wl_iterations relabelled_z \/ n = 0) ->
       label_of self' (name v) n = label_of relabelled_z (name v) n) /\
    (forall x,
       x ∉ kg_names kg_a ->
       _label_map self' !! x = _label_map relabelled_z !! x /\
       _inv_label_map self' !! x = _inv_label_map relabelled_z !! x).
Proof.
  apply (relabel_overwrites_graph_rows kg_a relabelled_z 0 0).
  apply (bool_decide_unpack _). vm_compute. exact I.
Defined.

(** ** The inverse table *)

Lemma dict_set_fresh {K V} `{EqDecision K} (k : K) (v : V) (d : list (K * V)) :
  dict_get k d = None -> dict_set k v d = d ++ [(k, v)].
Proof.
  induction d as [|[k' v'] d IH]; simpl; [done|].
  destruct (decide (k = k')); [done|]. intros Hd. by rewrite IH.
Qed.

Lemma levels_row_S kg v n :
  levels_row kg v (S n) =
  levels_row kg v n ++ [(Z.of_nat (S n), wl_label kg (S n) v)].
Proof. unfold levels_row. by rewrite (seq_S (S n)), map_app. Qed.

Lemma levels_row_get_above kg v n k :
  Z.of_nat n < k -> dict_get k (levels_row kg v n) = None.
Proof.
  induction n as [|n IH]; intros Hk.
  - simpl. rewrite decide_False; [done|lia].
  - rewrite levels_row_S.
    assert (Hget : forall (d1 d2 : list (Z * string)),
               dict_get k d1 = None -> dict_get k (d1 ++ d2) = dict_get k d2).
    { induction d1 as [|[k' v'] d1 IHd]; simpl; [done|].
      intros d2. destruct (decide (k = k')); [done|]. apply IHd. }
    rewrite Hget by (apply IH; lia). simpl.
    rewrite decide_False; [done|lia].
Qed.

Lemma row_upto_nil kg v n : row_upto kg v [] n = levels_row kg v n.
Proof.
  induction n as [|n IH]; [done|].
  change (row_upto kg v [] (S n))
    with (dict_set (Z.of_nat (S n)) (wl_label kg (S n) v) (row_upto kg v [] n)).
  rewrite IH, levels_row_S. apply dict_set_fresh, levels_row_get_above. lia.
Qed.

Lemma invert_row_snoc row k l d :
  invert_row (row ++ [(k, l)]) d = dict_set (AStr l) (AInt k) (invert_row row d).
Proof. unfold invert_row. by rewrite fold_left_app. Qed.

Lemma last_level_snoc row k l s :
  last_level (row ++ [(k, l)]) s =
  if decide (l = s) then Some k else last_level row s.
Proof. unfold last_level. by rewrite fold_left_app. Qed.

(** A string key of the inverted dict maps to the level of the last item of
    the row that holds it; other keys are those of the dict it started from. *)
Lemma invert_row_get_str row d s :
  dict_get (AStr s) (invert_row row d) =
  match last_level row s with
  | Some n => Some (AInt n)
  | None => dict_get (AStr s) d
  end.
Proof.
  induction row as [|[k l] row IH] using rev_ind; [done|].
  rewrite invert_row_snoc, last_level_snoc, dict_get_set.
  destruct (decide (l = s)) as [->|Hne].
  - by rewrite decide_True.
  - rewrite decide_False by congruence. done.
Qed.

Lemma invert_row_get_int row d z :
  dict_get (AInt z) (invert_row row d) = dict_get (AInt z) d.
Proof.
  induction row as [|[k l] row IH] using rev_ind; [done|].
  rewrite invert_row_snoc, dict_get_set_ne; [done|congruence].
Qed.

Lemma last_level_levels_row kg v n s :
  match last_level (levels_row kg v n) s with
  | Some k =>
      exists m, (m <= n)%nat /\ k = Z.of_nat m /\ wl_label kg m v = s /\
                forall m', (m' <= n)%nat -> wl_label kg m' v = s -> (m' <= m)%nat
  | None => forall m, (m <= n)%nat -> wl_label kg m v <> s
  end.
Proof.
  induction n as [|n IH].
  - unfold levels_row, last_level. simpl.
    destruct (decide (name v = s)) as [E|E].
    + exists O. repeat split; try done; intros; lia.
    + intros m Hm. by assert (m = O) as -> by lia.
  - rewrite levels_row_S, last_level_snoc.
    destruct (decide (wl_label kg (S n) v = s)) as [E|E].
    + exists (S n). repeat split; try done.
    + destruct (last_level (levels_row kg v n) s) as [k|].
      * destruct IH as (m & Hm & -> & Hs & Hmax).
        exists m. repeat split; try done; [lia|].
        intros m' Hm' Hs'. destruct (decide (m' = S n)) as [->|Hne]; [done|].
        apply Hmax; [lia|done].
      * intros m Hm. destruct (decide (m = S n)) as [->|Hne]; [done|].
        apply IH. lia.
Qed.

Lemma fresh_label_of kg iterations self' v n s :
  relabel_post kg (fresh iterations) self' ->
  v ∈ _vertices kg ->
  label_of self' (name v) n = Some s <->
  (0 <= n <= iterations \/ n = 0) /\ wl_label kg (Z.to_nat n) v = s.
Proof.
  intros Hpost Hv.
  destruct (decide (0 <= n <= iterations \/ n = 0)) as [Hn|Hn].
  - rewrite (relabel_label_of kg _ self' v n Hpost Hv) by done.
    split; [intros [= <-]; done | intros [_ <-]; done].
  - destruct Hpost as (_ & Hlm & _). unfold label_of.
    rewrite (Hlm v Hv). unfold final_row. simpl.
    rewrite row_upto_get_other by lia.
    unfold row0. simpl. rewrite lookup_empty. simpl.
    split; [done | tauto].
Qed.

(** C3, as stated, fails: the inverse table is not rebuilt from the label
    table of the pass.  After a pass over the chain A -> B -> C and a second
    pass over the same vertices without the edges, the inverse dict of B
    still maps the label that the first pass gave B at level 1 to that
    level, although the label table of B no longer holds it. *)
Lemma inverse_table_keeps_earlier_labels :
  exists self1 self2 d,
    _weisfeiler_lehman 2 kg_abc (fresh 1) = (Ret tt, self1) /\
    _weisfeiler_lehman 2 kg_abc_cut self1 = (Ret tt, self2) /\
    _label_map self2 !! "B" = Some [(0, "B"); (1, md5_digest_str "B-")] /\
    _inv_label_map self2 !! "B" = Some d /\
    dict_get (AStr (md5_digest_str "B-A")) d = Some (AInt 1) /\
    md5_digest_str "B-A" <> "B" /\
    md5_digest_str "B-A" <> md5_digest_str "B-".
Proof.
  exists (snd (_weisfeiler_lehman 2 kg_abc (fresh 1))),
    (snd (_weisfeiler_lehman 2 kg_abc_cut
            (snd (_weisfeiler_lehman 2 kg_abc (fresh 1))))).
  eexists. vm_compute. repeat split; try reflexivity; discriminate.
Qed.

(** C3, amended. After a relabeling pass that a freshly constructed walker
    runs over a graph of the data model, the inverse table has a dict under
    exactly the names of the vertices, and the string keys of the dict of a
    vertex are exactly the labels that the label table stores for it; each
    is mapped to a level at which the label table stores it, the highest
    one. *)
Theorem inverse_table_of_fresh_walker (kg : KG) (iterations : Z) (fuel : nat) :
  well_formed kg ->
  exists self',
    _weisfeiler_lehman (S (S fuel)) kg (fresh iterations) = (Ret tt, self') /\
    (forall x, is_Some (_inv_label_map self' !! x) <-> x ∈ kg_names kg) /\
    forall v, v ∈ _vertices kg ->
      exists d,
        _inv_label_map self' !! name v = Some d /\
        (forall s k, dict_get (AStr s) d = Some k ->
           exists n, k = AInt n /\ label_of self' (name v) n = Some s /\
                     forall m, label_of self' (name v) m = Some s -> m <= n) /\
        (forall n s, label_of self' (name v) n = Some s ->
           is_Some (dict_get (AStr s) d)).
Proof.
  intros Hwf.
  destruct (relabel_run kg (fresh iterations) Hwf fuel) as (self' & Hrun & Hpost).
  exists self'. split; [done|].
  pose proof Hpost as (_ & Hlm & _ & Him & Him').
  split.
  - intros x. destruct (decide (x ∈ kg_names kg)) as [Hx|Hx].
    + split; [done|]. intros _.
      apply elem_of_map_name in Hx as (v & Hv & <-). by rewrite (Him v Hv).
    + rewrite (Him' x Hx). simpl. rewrite lookup_empty.
      split; [by intros [? ?] | done].
  - intros v Hv. eexists. split; [by apply Him|].
    assert (Hrow : final_row kg (fresh iterations) v
                   = levels_row kg v (Z.to_nat iterations)).
    { unfold final_row, row0. simpl. rewrite lookup_empty. simpl.
      apply row_upto_nil. }
    rewrite Hrow.
    assert (Hd0 : forall s, dict_get (AStr s) (inv_row0 (fresh iterations) v) = None).
    { intros s. unfold inv_row0. simpl. by rewrite lookup_empty. }
    pose proof (fun s => last_level_levels_row kg v (Z.to_nat iterations) s) as Hlast.
    split.
    + intros s k. rewrite invert_row_get_str, Hd0. specialize (Hlast s).
      destruct (last_level (levels_row kg v (Z.to_nat iterations)) s) as [n|];
        [|done].
      intros [= <-]. destruct Hlast as (m & Hm & -> & Hs & Hmax).
      exists (Z.of_nat m). split; [done|]. split.
      * apply (fresh_label_of kg iterations self' v _ s Hpost Hv).
        rewrite Nat2Z.id. split; [lia|done].
      * intros m' Hm'.
        apply (fresh_label_of kg iterations self' v _ s Hpost Hv) in Hm'
          as [Hrange Hs'].
        apply Hmax in Hs'; lia.
    + intros n s Hn.
      apply (fresh_label_of kg iterations self' v _ s Hpost Hv) in Hn
        as [Hrange Hs].
      rewrite invert_row_get_str. specialize (Hlast s).
      destruct (last_level (levels_row kg v (Z.to_nat iterations)) s) as [k|];
        [done|].
      exfalso. apply (Hlast (Z.to_nat n)); [lia|done].
Qed.

Lemma inverse_table_of_fresh_walker_witness :
  exists self',
    _weisfeiler_lehman 2 kg_abc (fresh 1) = (Ret tt, self') /\
    (forall x, is_Some (_inv_label_map self' !! x) <-> x ∈ kg_names kg_abc) /\
    forall v, v ∈ _vertices kg_abc ->
      exists d,
        _inv_label_map self' !! name v = Some d /\
        (forall s k, dict_get (AStr s) d = Some k ->
           exists n, k = AInt n /\ label_of self' (name v) n = Some s /\
                     forall m, label_of self' (name v) m = Some s -> m <= n) /\
        (forall n s, label_of self' (name v) n = Some s ->
           is_Some (dict_get (AStr s) d)).
Proof.
  apply (inverse_table_of_fresh_walker kg_abc 1 0).
  apply (bool_decide_unpack _). vm_compute. exact I.
Defined.

(** Besides the string keys, the dict of a vertex holds the integer key 0
    with the name of the vertex, which the first loop writes, and no other
    integer key. *)
Lemma inverse_table_integer_key (kg : KG) (iterations : Z) (fuel : nat) :
  well_formed kg ->
  exists self',
    _weisfeiler_lehman (S (S fuel)) kg (fresh iterations) = (Ret tt, self') /\
    forall v, v ∈ _vertices kg ->
      exists d,
        _inv_label_map self' !! name v = Some d /\
        dict_get (AInt 0) d = Some (AStr (name v)) /\
        forall z, z <> 0 -> dict_get (AInt z) d = None.
Proof.
  intros Hwf.
  destruct (relabel_run kg (fresh iterations) Hwf fuel) as (self' & Hrun & Hpost).
  exists self'. split; [done|].
  destruct Hpost as (_ & _ & _ & Him & _).
  intros v Hv. eexists. split; [by apply Him|].
  split.
  - rewrite invert_row_get_int. unfold inv_row0. apply dict_get_set_eq.
  - intros z Hz. rewrite invert_row_get_int. unfold inv_row0. simpl.
    rewrite lookup_empty. simpl. rewrite decide_False; [done|congruence].
Qed.

(** ** Canonical walks *)

Lemma enumerate_from_lookup {A} (l : list A) :
  forall start i,
    zip (map Z.of_nat (seq start (length l))) l !! i =
    (fun x => (Z.of_nat (start + i), x)) <$> l !! i.
Proof.
  induction l as [|x l IH]; intros start i; simpl; [done|].
  destruct i as [|i]; simpl.
  - by rewrite Nat.add_0_r.
  - rewrite IH. by replace (S start + i)%nat with (start + S i)%nat by lia.
Qed.

Lemma enumerate_lookup {A} (l : list A) i :
  enumerate l !! i = (fun x => (Z.of_nat i, x)) <$> l !! i.
Proof. unfold enumerate. by rewrite enumerate_from_lookup. Qed.

Lemma enumerate_length {A} (l : list A) : length (enumerate l) = length l.
Proof.
  unfold enumerate. rewrite length_zip_with, length_map, length_seq. lia.
Qed.

Lemma canonical_hop_identity self n (i : nat) hop :
  i = O \/ (i mod 2 = 1)%nat ->
  canonical_hop self n (Z.of_nat i) hop = Some (name hop).
Proof.
  intros Hi. unfold canonical_hop.
  assert (((Z.of_nat i =? 0) || (Z.of_nat i mod 2 =? 1)) = true) as ->; [|done].
  apply orb_true_iff. rewrite Z.eqb_eq, Z.eqb_eq.
  destruct Hi as [->|Hi]; [by left|right].
  change 2 with (Z.of_nat 2). rewrite <- Nat2Z.inj_mod. lia.
Qed.

Lemma canonical_hop_label self n (i : nat) hop :
  i <> O -> (i mod 2 = 0)%nat ->
  canonical_hop self n (Z.of_nat i) hop = label_of self (name hop) n.
Proof.
  intros Hi0 Hi. unfold canonical_hop.
  assert (((Z.of_nat i =? 0) || (Z.of_nat i mod 2 =? 1)) = false) as ->; [|done].
  apply orb_false_iff. rewrite Z.eqb_neq, Z.eqb_neq.
  split; [lia|].
  change 2 with (Z.of_nat 2). rewrite <- Nat2Z.inj_mod. lia.
Qed.

(** The loop over the hops returns the canonical walk and leaves the walker
    as it is when every label is stored. *)
Lemma canonical_hops_ok n hops :
  forall acc self,
    hops_present self n hops ->
    canonical_hops n hops acc self =
    (Ret (acc ++ canonical_walk_of self n hops), self).
Proof.
  induction hops as [|[i hop] hops IH]; intros acc self Hp; simpl.
  - unfold ret. by rewrite app_nil_r.
  - apply Forall_cons in Hp as [Hhead Hp]. simpl in Hhead.
    unfold canonical_hop in *.
    destruct ((i =? 0) || (i mod 2 =? 1)).
    + rewrite (IH _ _ Hp). simpl. by rewrite <- app_assoc.
    + destruct Hhead as [l Hl].
      rewrite (bind_ret_run _ _ _ _ _ (label_map_getitem_some _ _ _ _ Hl)).
      rewrite (IH _ _ Hp), Hl. simpl. by rewrite <- app_assoc.
Qed.

(** It raises [KeyError] at the first hop whose label is not stored; when
    the name has no dict, the lookup has stored an empty one. *)
Lemma canonical_hops_first_absent n hops :
  forall acc self k ih,
    hops !! k = Some ih ->
    canonical_hop self n (fst ih) (snd ih) = None ->
    (forall j ih', (j < k)%nat -> hops !! j = Some ih' ->
       is_Some (canonical_hop self n (fst ih') (snd ih'))) ->
    canonical_hops n hops acc self =
    (Raise (KeyError (AInt n)),
     match _label_map self !! name (snd ih) with
     | Some _ => self
     | None => set_label_map (<[name (snd ih) := []]> (_label_map self)) self
     end).
Proof.
  induction hops as [|[i hop] hops IH]; intros acc self k ih Hk Habs Hbefore;
    [done|].
  destruct k as [|k]; simpl in Hk.
  - injection Hk as <-. simpl in Habs |- *.
    unfold canonical_hop in Habs.
    destruct ((i =? 0) || (i mod 2 =? 1)); [done|].
    by rewrite (bind_raise_run _ _ _ _ _ (label_map_getitem_none _ _ _ Habs)).
  - pose proof (Hbefore O (i, hop) ltac:(lia) eq_refl) as Hhead.
    simpl in Hhead |- *. unfold canonical_hop in Hhead.
    destruct ((i =? 0) || (i mod 2 =? 1)).
    + apply (IH _ _ k ih Hk Habs).
      intros j ih' Hj Hih'. apply (Hbefore (S j)); [lia|done].
    + destruct Hhead as [l Hl].
      rewrite (bind_ret_run _ _ _ _ _ (label_map_getitem_some _ _ _ _ Hl)).
      apply (IH _ _ k ih Hk Habs).
      intros j ih' Hj Hih'. apply (Hbefore (S j)); [lia|done].
Qed.

Lemma canonical_hops_absent n hops acc self :
  ~ hops_present self n hops ->
  exists self', canonical_hops n hops acc self = (Raise (KeyError (AInt n)), self').
Proof.
  revert acc. induction hops as [|[i hop] hops IH]; intros acc Hp.
  - exfalso. apply Hp. constructor.
  - simpl. destruct (canonical_hop self n i hop) as [l|] eqn:Hhop.
    + assert (Htail : ~ hops_present self n hops).
      { intros Ht. apply Hp. constructor; [by simpl; rewrite Hhop | done]. }
      unfold canonical_hop in Hhop.
      destruct ((i =? 0) || (i mod 2 =? 1)); [by apply IH|].
      rewrite (bind_ret_run _ _ _ _ _ (label_map_getitem_some _ _ _ _ Hhop)).
      by apply IH.
    + unfold canonical_hop in Hhop.
      destruct ((i =? 0) || (i mod 2 =? 1)); [done|].
      rewrite (bind_raise_run _ _ _ _ _ (label_map_getitem_none _ _ _ Hhop)).
      eauto.
Qed.

Lemma extract_walks_loop_ok n walks :
  forall cws self,
    walks_present self n walks ->
    extract_walks_loop n walks cws self =
    (Ret (cws ∪ list_to_set
                  (map (fun w => canonical_walk_of self n (enumerate w)) walks)),
     self).
Proof.
  induction walks as [|w walks IH]; intros cws self Hp; simpl.
  - unfold ret. by rewrite (right_id_L ∅ (∪)).
  - apply Forall_cons in Hp as [Hw Hp].
    rewrite (bind_ret_run _ _ _ _ _ (canonical_hops_ok n _ [] self Hw)).
    rewrite (IH _ _ Hp). simpl. by rewrite (assoc_L (∪)).
Qed.

Lemma extract_walks_loop_absent n walks :
  forall cws self,
    ~ walks_present self n walks ->
    exists self',
      extract_walks_loop n walks cws self = (Raise (KeyError (AInt n)), self').
Proof.
  induction walks as [|w walks IH]; intros cws self Hp.
  - exfalso. apply Hp. constructor.
  - simpl. destruct (decide (hops_present self n (enumerate w))) as [Hw|Hw].
    + rewrite (bind_ret_run _ _ _ _ _ (canonical_hops_ok n _ [] self Hw)).
      apply IH. intros Ht. apply Hp. by constructor.
    + destruct (canonical_hops_absent n _ [] self Hw) as (self' & Hrun).
      rewrite (bind_raise_run _ _ _ _ _ Hrun). eauto.
Qed.

Lemma extract_levels_loop_ok levels walks :
  forall cws self,
    levels_present self levels walks ->
    extract_levels_loop levels walks cws self =
    (Ret (cws ∪ list_to_set (all_canonical self levels walks)), self).
Proof.
  induction levels as [|n levels IH]; intros cws self Hp; simpl.
  - unfold ret. by rewrite (right_id_L ∅ (∪)).
  - apply Forall_cons in Hp as [Hn Hp].
    rewrite (bind_ret_run _ _ _ _ _ (extract_walks_loop_ok n walks cws self Hn)).
    rewrite (IH _ _ Hp).
    unfold all_canonical at 2. simpl. fold (all_canonical self levels walks).
    by rewrite list_to_set_app_L, (assoc_L (∪)).
Qed.

Lemma extract_levels_loop_absent levels walks :
  forall cws self,
    ~ levels_present self levels walks ->
    exists k self',
      extract_levels_loop levels walks cws self = (Raise (KeyError (AInt k)), self').
Proof.
  induction levels as [|n levels IH]; intros cws self Hp.
  - exfalso. apply Hp. constructor.
  - simpl. destruct (decide (walks_present self n walks)) as [Hn|Hn].
    + rewrite (bind_ret_run _ _ _ _ _ (extract_walks_loop_ok n walks cws self Hn)).
      apply IH. intros Ht. apply Hp. by constructor.
    + destruct (extract_walks_loop_absent n walks cws self Hn) as (self' & Hrun).
      rewrite (bind_raise_run _ _ _ _ _ Hrun). eauto.
Qed.

Lemma extract_ok extract_walks kg instance self :
  levels_present self (range 0 (wl_iterations self + 1))
    (extract_walks kg instance) ->
  _extract extract_walks kg instance self =
  (Ret {[ name instance :=
            elements (list_to_set
                        (all_canonical self (range 0 (wl_iterations self + 1))
                           (extract_walks kg instance)) : gset (list string)) ]},
   self).
Proof.
  intros Hp. unfold _extract.
  unfold bind at 1, get_wl_iterations.
  rewrite (bind_ret_run _ _ _ _ _ (extract_levels_loop_ok _ _ ∅ self Hp)).
  unfold ret. by rewrite (left_id_L ∅ (∪)).
Qed.

Lemma extract_absent extract_walks kg instance self :
  ~ levels_present self (range 0 (wl_iterations self + 1))
      (extract_walks kg instance) ->
  exists k self',
    _extract extract_walks kg instance self = (Raise (KeyError (AInt k)), self').
Proof.
  intros Hp. unfold _extract.
  unfold bind at 1, get_wl_iterations.
  destruct (extract_levels_loop_absent _ _ ∅ self Hp) as (k & self' & Hrun).
  rewrite (bind_raise_run _ _ _ _ _ Hrun). eauto.
Qed.

Lemma hops_present_enumerate self n w :
  hops_present self n (enumerate w) <->
  forall i hop, w !! i = Some hop ->
                is_Some (canonical_hop self n (Z.of_nat i) hop).
Proof.
  unfold hops_present. rewrite Forall_lookup. split.
  - intros H i hop Hi. apply (H i (Z.of_nat i, hop)).
    by rewrite enumerate_lookup, Hi.
  - intros H i [z hop]. rewrite enumerate_lookup.
    destruct (w !! i) as [hop'|] eqn:Hi; simpl; [|done].
    intros [= <- <-]. by apply H.
Qed.

Lemma levels_present_range self iterations walks :
  levels_present self (range 0 (iterations + 1)) walks <->
  forall n w i hop,
    0 <= n <= iterations -> w ∈ walks -> w !! i = Some hop ->
    is_Some (canonical_hop self n (Z.of_nat i) hop).
Proof.
  unfold levels_present, walks_present. rewrite Forall_forall. split.
  - intros H n w i hop Hn Hw Hi.
    specialize (H n). rewrite elem_of_range, Forall_forall in H.
    assert (Hp : hops_present self n (enumerate w)) by (apply H; [lia|done]).
    by apply (proj1 (hops_present_enumerate self n w) Hp).
  - intros H n Hn. apply elem_of_range in Hn.
    rewrite Forall_forall. intros w Hw.
    apply hops_present_enumerate. intros i hop Hi.
    apply (H n w i hop); [lia|done|done].
Qed.

Lemma elem_of_all_canonical self levels walks c :
  c ∈ all_canonical self levels walks <->
  exists n w, n ∈ levels /\ w ∈ walks /\
              c = canonical_walk_of self n (enumerate w).
Proof.
  unfold all_canonical. rewrite list_elem_of_In, in_flat_map. split.
  - intros (n & Hn & Hc). apply in_map_iff in Hc as (w & <- & Hw).
    exists n, w. by rewrite !list_elem_of_In.
  - intros (n & w & Hn & Hw & ->). exists n.
    rewrite <- list_elem_of_In. split; [done|].
    apply in_map_iff. exists w. by rewrite <- list_elem_of_In.
Qed.

Lemma canonical_walk_of_lookup self n w i :
  canonical_walk_of self n (enumerate w) !! i =
  (fun hop => default ""%string (canonical_hop self n (Z.of_nat i) hop)) <$> w !! i.
Proof.
  unfold canonical_walk_of. rewrite list_lookup_fmap, enumerate_lookup.
  by destruct (w !! i).
Qed.

Lemma canonical_walk_of_length self n w :
  length (canonical_walk_of self n (enumerate w)) = length w.
Proof. unfold canonical_walk_of. by rewrite length_map, enumerate_length. Qed.

Lemma canonical_walk_of_canonical_for self n walk :
  hops_present self n (enumerate walk) ->
  canonical_for self n walk (canonical_walk_of self n (enumerate walk)).
Proof.
  intros Hp. split; [apply canonical_walk_of_length|].
  intros i hop Hi. rewrite canonical_walk_of_lookup, Hi. simpl. split.
  - intros Hpos. by rewrite canonical_hop_identity.
  - intros Hi0 Heven.
    pose proof (proj1 (hops_present_enumerate self n walk) Hp i hop Hi) as [l Hl].
    rewrite Hl. simpl. by rewrite <- Hl, canonical_hop_label.
Qed.

Lemma canonical_for_root self n root c :
  canonical_for self n [root] c -> c = [name root].
Proof.
  intros [Hlen Hc]. destruct c as [|x [|y c]]; try done.
  destruct (Hc O root eq_refl) as [H0 _]. simpl in H0.
  by injection (H0 (or_introl eq_refl)) as ->.
Qed.

(** When every label it needs is stored, [_extract] returns, under the name
    of the instance, each canonical walk once and leaves the walker as it
    is. *)
Lemma extract_returns extract_walks kg instance self :
  levels_present self (range 0 (wl_iterations self + 1))
    (extract_walks kg instance) ->
  exists cws,
    _extract extract_walks kg instance self
      = (Ret {[ name instance := cws ]}, self) /\
    NoDup cws /\
    forall c, c ∈ cws <->
      exists n walk,
        0 <= n <= wl_iterations self /\ walk ∈ extract_walks kg instance /\
        c = canonical_walk_of self n (enumerate walk).
Proof.
  intros Hp. eexists. split; [by apply extract_ok|]. split.
  - apply NoDup_elements.
  - intros c. rewrite elem_of_elements, elem_of_list_to_set, elem_of_all_canonical.
    split; intros (n & w & Hn & Hw & Hc); exists n, w;
      rewrite elem_of_range in *; repeat split; try done; lia.
Qed.

Lemma labels_present_levels self walks :
  (forall n walk (i : nat) hop,
     0 <= n <= wl_iterations self -> walk ∈ walks -> walk !! i = Some hop ->
     i <> O -> (i mod 2 = 0)%nat -> is_Some (label_of self (name hop) n)) ->
  levels_present self (range 0 (wl_iterations self + 1)) walks.
Proof.
  intros H. apply levels_present_range. intros n w i hop Hn Hw Hi.
  destruct (decide (i = O \/ (i mod 2 = 1)%nat)) as [Hid|Hlab].
  - by rewrite canonical_hop_identity.
  - pose proof (Nat.mod_upper_bound i 2 ltac:(lia)).
    rewrite canonical_hop_label by lia. apply (H n w i hop); try done; lia.
Qed.

(** C2. When the label table holds the labels of the hops at the even
    positions greater than 0 at the levels [0..L], [_extract] returns, under
    the name of the instance, a collection without repetition that holds,
    for every raw walk and every level [n] from 0 to [L], the canonical walk
    of that walk at that level, and nothing else: a walk of the same length
    whose entry is the name of the hop at position 0 and at the odd
    positions and the stored label of the hop at level [n] at the even
    positions greater than 0. *)
Theorem extract_canonical_walks
    (extract_walks : KG -> Vertex -> list (list Vertex))
    (kg : KG) (instance : Vertex) (self : WLWalker) :
  (forall n walk (i : nat) hop,
     0 <= n <= wl_iterations self -> walk ∈ extract_walks kg instance ->
     walk !! i = Some hop -> i <> O -> (i mod 2 = 0)%nat ->
     is_Some (label_of self (name hop) n)) ->
  exists cws,
    _extract extract_walks kg instance self
      = (Ret {[ name instance := cws ]}, self) /\
    NoDup cws /\
    (forall n walk,
       0 <= n <= wl_iterations self -> walk ∈ extract_walks kg instance ->
       exists c, c ∈ cws /\ canonical_for self n walk c) /\
    (forall c, c ∈ cws ->
       exists n walk,
         0 <= n <= wl_iterations self /\ walk ∈ extract_walks kg instance /\
         canonical_for self n walk c).
Proof.
  intros Hlabels.
  pose proof (labels_present_levels self _ Hlabels) as Hp.
  destruct (extract_returns extract_walks kg instance self Hp)
    as (cws & Hrun & Hnd & Hmem).
  assert (Hhops : forall n walk,
            0 <= n <= wl_iterations self -> walk ∈ extract_walks kg instance ->
            hops_present self n (enumerate walk)).
  { intros n walk Hn Hw. apply hops_present_enumerate. intros i hop Hi.
    by apply (proj1 (levels_present_range self _ _) Hp n walk i hop). }
  exists cws. split; [done|]. split; [done|]. split.
  - intros n walk Hn Hw. exists (canonical_walk_of self n (enumerate walk)).
    split; [apply Hmem; eauto|].
    apply canonical_walk_of_canonical_for; auto.
  - intros c (n & walk & Hn & Hw & ->)%Hmem. exists n, walk.
    split; [done|]. split; [done|].
    apply canonical_walk_of_canonical_for; auto.
Qed.

Lemma extract_canonical_walks_witness :
  exists cws,
    _extract sample_abc kg_abc vA relabelled_abc
      = (Ret {[ name vA := cws ]}, relabelled_abc) /\
    NoDup cws /\
    (forall n walk,
       0 <= n <= wl_iterations relabelled_abc -> walk ∈ sample_abc kg_abc vA ->
       exists c, c ∈ cws /\ canonical_for relabelled_abc n walk c) /\
    (forall c, c ∈ cws ->
       exists n walk,
         0 <= n <= wl_iterations relabelled_abc /\ walk ∈ sample_abc kg_abc vA /\
         canonical_for relabelled_abc n walk c).
Proof.
  apply (extract_canonical_walks sample_abc kg_abc vA relabelled_abc).
  intros n walk i hop Hn Hw Hi Hi0 Heven.
  apply list_elem_of_singleton in Hw as ->.
  change (wl_iterations relabelled_abc) with 1 in Hn.
  destruct i as [|[|[|i]]]; simpl in *; try done.
  injection Hi as <-.
  assert (n = 0 \/ n = 1) as [-> | ->] by lia; vm_compute; by eexists.
Defined.

(** After a relabeling pass over a graph of the data model the labels that
    [_extract] needs are stored, for walks over the vertices of the graph:
    the pass followed by [_extract] returns. *)
Lemma extract_after_relabel
    (extract_walks : KG -> Vertex -> list (list Vertex))
    (kg : KG) (instance : Vertex) (self : WLWalker) (fuel : nat) :
  well_formed kg ->
  (forall walk hop,
     walk ∈ extract_walks kg instance -> hop ∈ walk -> hop ∈ _vertices kg) ->
  exists self' cws,
    _weisfeiler_lehman (S (S fuel)) kg self = (Ret tt, self') /\
    _extract extract_walks kg instance self'
      = (Ret {[ name instance := cws ]}, self').
Proof.
  intros Hwf Hwalks.
  destruct (relabel_run kg self Hwf fuel) as (self' & Hrun & Hpost).
  destruct (extract_returns extract_walks kg instance self')
    as (cws & Hext & _).
  { apply labels_present_levels. intros n walk i hop Hn Hw Hi _ _.
    pose proof Hpost as (Hwl & _). rewrite Hwl in Hn.
    rewrite (relabel_label_of kg self self' hop n Hpost); [done| |by left].
    apply (Hwalks walk); [done|]. by apply list_elem_of_lookup_2 in Hi. }
  by exists self', cws.
Qed.

Lemma range_cons lo hi : lo < hi -> range lo hi = lo :: range (lo + 1) hi.
Proof.
  intros H. unfold range.
  replace (Z.to_nat (hi - lo)) with (S (Z.to_nat (hi - (lo + 1)))) by lia.
  simpl. f_equal; [lia|].
  rewrite <- seq_shift, map_map. apply map_ext. intros i. lia.
Qed.

Lemma list_to_set_constant {A} (x : list string) (l : list A) :
  l <> [] ->
  (list_to_set (flat_map (fun _ => [x]) l) : gset (list string)) = {[ x ]}.
Proof.
  induction l as [|a l IH]; [done|]. intros _. simpl.
  destruct l as [|b l].
  - simpl. by rewrite (right_id_L ∅ (∪)).
  - rewrite IH by done. by rewrite (idemp_L (∪)).
Qed.

(** C9. Every canonical walk that [_extract] returns has the length of a raw
    walk of the instance, the one it is derived from, and the canonical walk
    of a raw walk that holds the root only is the list that holds the name
    of the root only.  The loop over the hops of such a walk returns that
    list at every level and reads no label, and [_extract] over a sampler
    that returns this walk alone returns that list alone. *)
Theorem canonical_walks_keep_length
    (extract_walks : KG -> Vertex -> list (list Vertex))
    (kg : KG) (instance : Vertex) (self : WLWalker) :
  (forall result self',
     _extract extract_walks kg instance self = (Ret result, self') ->
     exists cws,
       result = {[ name instance := cws ]} /\
       forall c, c ∈ cws ->
         exists walk,
           walk ∈ extract_walks kg instance /\ length c = length walk /\
           forall root, walk = [root] -> c = [name root]) /\
  (forall root n,
     canonical_hops n (enumerate [root]) [] self = (Ret [name root], self)) /\
  (forall root,
     extract_walks kg instance = [[root]] -> 0 <= wl_iterations self ->
     _extract extract_walks kg instance self
       = (Ret {[ name instance := [[name root]] ]}, self)).
Proof.
  split; [|split].
  - intros result self' Hrun.
    destruct (decide (levels_present self (range 0 (wl_iterations self + 1))
                        (extract_walks kg instance))) as [Hp|Hp].
    + destruct (extract_returns extract_walks kg instance self Hp)
        as (cws & Hrun' & _ & Hmem).
      rewrite Hrun' in Hrun. injection Hrun as <- <-.
      exists cws. split; [done|].
      intros c (n & walk & Hn & Hw & ->)%Hmem. exists walk.
      assert (Hc : canonical_for self n walk
                     (canonical_walk_of self n (enumerate walk))).
      { apply canonical_walk_of_canonical_for, hops_present_enumerate.
        intros i hop Hi.
        by apply (proj1 (levels_present_range self _ _) Hp n walk i hop). }
      split; [done|]. split; [apply Hc|].
      intros root ->. by apply (canonical_for_root self n).
    + destruct (extract_absent extract_walks kg instance self Hp)
        as (k & self'' & Hrun').
      rewrite Hrun' in Hrun. discriminate.
  - intros root n. reflexivity.
  - intros root Hwalks Hpos.
    assert (Hp : levels_present self (range 0 (wl_iterations self + 1))
                   (extract_walks kg instance)).
    { apply levels_present_range. intros n w i hop Hn Hw Hi.
      rewrite Hwalks in Hw. apply list_elem_of_singleton in Hw as ->.
      destruct i as [|i]; [|by destruct i]. done. }
    rewrite (extract_ok _ _ _ _ Hp), Hwalks.
    unfold all_canonical. simpl.
    rewrite list_to_set_constant, elements_singleton; [done|].
    rewrite range_cons by lia. done.
Qed.

Lemma canonical_walks_keep_length_witness :
  _extract sample_root kg_a vA (fresh 4)
    = (Ret {[ name vA := [[name vA]] ]}, fresh 4).
Proof.
  apply (proj2 (proj2 (canonical_walks_keep_length sample_root kg_a vA (fresh 4)))).
  - reflexivity.
  - simpl. lia.
Defined.

(** ** Labels that are not stored *)

(** C8. Asking for the label of a name at a level that the label table does
    not hold raises [KeyError], a [LookupError]: the lookup itself raises
    it, and [_extract] raises it to its caller whenever a hop at an even
    position greater than 0 of one of the walks has that name and the level
    is one of [0..L]; no value is returned in its place. *)
Theorem absent_label_raises (self : WLWalker) (x : string) (n : Z) :
  label_of self x n = None ->
  (exists self',
     label_map_getitem x n self = (Raise (KeyError (AInt n)), self')) /\
  is_LookupError (KeyError (AInt n)) = true /\
  (forall (extract_walks : KG -> Vertex -> list (list Vertex)) kg instance
          walk (i : nat) hop,
     walk ∈ extract_walks kg instance -> walk !! i = Some hop ->
     name hop = x -> i <> O -> (i mod 2 = 0)%nat ->
     0 <= n <= wl_iterations self ->
     exists k self',
       _extract extract_walks kg instance self
         = (Raise (KeyError (AInt k)), self') /\
       is_LookupError (KeyError (AInt k)) = true).
Proof.
  intros Habs. split; [|split; [done|]].
  - rewrite (label_map_getitem_none _ _ _ Habs). eauto.
  - intros extract_walks kg instance walk i hop Hw Hi <- Hi0 Heven Hn.
    destruct (extract_absent extract_walks kg instance self)
      as (k & self' & Hrun); [|by eauto].
    intros Hp.
    pose proof (proj1 (levels_present_range self _ _) Hp n walk i hop Hn Hw Hi)
      as Hsome.
    rewrite canonical_hop_label, Habs in Hsome by done.
    by destruct Hsome.
Qed.

Lemma absent_label_raises_witness :
  (exists self',
     label_map_getitem "C" 0 (fresh 4) = (Raise (KeyError (AInt 0)), self')) /\
  is_LookupError (KeyError (AInt 0)) = true /\
  (forall (extract_walks : KG -> Vertex -> list (list Vertex)) kg instance
          walk (i : nat) hop,
     walk ∈ extract_walks kg instance -> walk !! i = Some hop ->
     name hop = "C" -> i <> O -> (i mod 2 = 0)%nat ->
     0 <= 0 <= wl_iterations (fresh 4) ->
     exists k self',
       _extract extract_walks kg instance (fresh 4)
         = (Raise (KeyError (AInt k)), self') /\
       is_LookupError (KeyError (AInt k)) = true).
Proof.
  apply (absent_label_raises (fresh 4) "C" 0).
  reflexivity.
Defined.

(** C10. A lookup of a label under a name that has no dict in the label
    table raises [KeyError] and leaves an empty dict stored under that name.
    So when [_extract] reaches, at an even position greater than 0 of its
    first walk, a hop whose name has no dict, it raises [KeyError] and the
    label table afterwards holds an empty dict for that name and differs
    from the table before the call. *)
Theorem failed_lookup_inserts_empty_row (self : WLWalker) (x : string) (n : Z) :
  _label_map self !! x = None ->
  label_map_getitem x n self =
    (Raise (KeyError (AInt n)),
     set_label_map (<[x := []]> (_label_map self)) self) /\
  (forall (extract_walks : KG -> Vertex -> list (list Vertex)) kg instance
          walk rest (i : nat) hop,
     extract_walks kg instance = walk :: rest ->
     0 <= wl_iterations self ->
     walk !! i = Some hop -> name hop = x -> i <> O -> (i mod 2 = 0)%nat ->
     (forall (j : nat) hop',
        (j < i)%nat -> walk !! j = Some hop' -> j <> O -> (j mod 2 = 0)%nat ->
        is_Some (label_of self (name hop') 0)) ->
     exists self',
       _extract extract_walks kg instance self
         = (Raise (KeyError (AInt 0)), self') /\
       _label_map self' = <[x := []]> (_label_map self) /\
       _label_map self' !! x = Some [] /\
       _label_map self' <> _label_map self).
Proof.
  intros Hnone. split.
  - rewrite label_map_getitem_none by (unfold label_of; by rewrite Hnone).
    by rewrite Hnone.
  - intros extract_walks kg instance walk rest i hop Hwalks Hpos Hi <- Hi0 Heven
      Hbefore.
    exists (set_label_map (<[name hop := []]> (_label_map self)) self).
    split; [|split; [done|split]].
    + unfold _extract. rewrite Hwalks.
      unfold bind at 1, get_wl_iterations.
      rewrite range_cons by lia. simpl.
      apply bind_raise_run, bind_raise_run, bind_raise_run.
      rewrite (canonical_hops_first_absent 0 (enumerate walk) [] self i
                 (Z.of_nat i, hop)); simpl.
      * by rewrite Hnone.
      * by rewrite enumerate_lookup, Hi.
      * rewrite canonical_hop_label by done. unfold label_of. by rewrite Hnone.
      * intros j [z hop'] Hj. rewrite enumerate_lookup.
        destruct (walk !! j) as [hop''|] eqn:Hwj; simpl; [|done].
        intros [= <- <-].
        destruct (decide (j = O \/ (j mod 2 = 1)%nat)) as [Hid|Hlab].
        -- by rewrite canonical_hop_identity.
        -- pose proof (Nat.mod_upper_bound j 2 ltac:(lia)).
           rewrite canonical_hop_label by lia.
           apply (Hbefore j hop''); try done; lia.
    + simpl. apply lookup_insert_eq.
    + simpl. intros Heq.
      assert (Hx : <[name hop := []]> (_label_map self) !! name hop = Some [])
        by apply lookup_insert_eq.
      rewrite Heq, Hnone in Hx. done.
Qed.

Lemma failed_lookup_inserts_empty_row_witness :
  label_map_getitem "C" 0 (fresh 4) =
    (Raise (KeyError (AInt 0)),
     set_label_map (<["C" := []]> (_label_map (fresh 4))) (fresh 4)) /\
  (forall (extract_walks : KG -> Vertex -> list (list Vertex)) kg instance
          walk rest (i : nat) hop,
     extract_walks kg instance = walk :: rest ->
     0 <= wl_iterations (fresh 4) ->
     walk !! i = Some hop -> name hop = "C" -> i <> O -> (i mod 2 = 0)%nat ->
     (forall (j : nat) hop',
        (j < i)%nat -> walk !! j = Some hop' -> j <> O -> (j mod 2 = 0)%nat ->
        is_Some (label_of (fresh 4) (name hop') 0)) ->
     exists self',
       _extract extract_walks kg instance (fresh 4)
         = (Raise (KeyError (AInt 0)), self') /\
       _label_map self' = <["C" := []]> (_label_map (fresh 4)) /\
       _label_map self' !! "C" = Some [] /\
       _label_map self' <> _label_map (fresh 4)).
Proof.
  apply (failed_lookup_inserts_empty_row (fresh 4) "C" 0).
  reflexivity.
Defined.

(** The walk A, B, C on a walker that never relabelled: the lookup of C at
    position 2 raises and leaves an empty dict under C. *)
Example extract_on_fresh_walker :
  _extract sample_abc kg_abc vA (fresh 1) =
  (Raise (KeyError (AInt 0)), mkWLWalker 1 ∅ {[ "C" := [] ]}).
Proof. vm_compute. reflexivity. Qed.

(** ** Construction *)

(** C4, as stated, fails: 0 is not a positive integer and the construction
    with [wl_iterations=0] returns a walker; so do the constructions with a
    negative count. *)
Lemma init_accepts_zero :
  WLWalker_init (Some (PyInt 0)) = inr (fresh 0) /\
  WLWalker_init (Some (PyInt (-3))) = inr (fresh (-3)) /\
  (positive_int (PyInt 0) -> False) /\
  (positive_int (PyInt (-3)) -> False).
Proof.
  repeat split; try reflexivity; intros [_ H]; simpl in H; lia.
Qed.

(** C4, amended. The construction validates the iteration count with
    [instance_of(int)] only: it fails, with [TypeError], exactly for the
    values that are not instances of [int], and returns a walker with empty
    tables for every instance of [int], be it positive, zero or negative;
    without the argument the count is 4. *)
Theorem init_rejects_non_int (value : pyval) :
  (WLWalker_init (Some value) = inl TypeError <-> isinstance_int value = false) /\
  (WLWalker_init (Some value) = inr (fresh (int_value value))
     <-> isinstance_int value = true) /\
  (forall z, WLWalker_init (Some (PyInt z)) = inr (fresh z)) /\
  WLWalker_init None = inr (fresh 4).
Proof.
  unfold WLWalker_init, fresh. simpl.
  destruct (isinstance_int value); repeat split; try done.
Qed.

(** ** A pass as a sequence of writes *)

Lemma dict_set_set {K V} `{EqDecision K} (k : K) (v v' : V) (d : list (K * V)) :
  dict_set k v (dict_set k v' d) = dict_set k v d.
Proof.
  induction d as [|[k0 v0] d IH]; simpl.
  - by rewrite decide_True.
  - destruct (decide (k = k0)) as [->|Hne]; simpl.
    + by rewrite decide_True.
    + by rewrite decide_False, IH.
Qed.

Lemma dict_set_comm {K V} `{EqDecision K} (k k' : K) (v v' : V)
    (d : list (K * V)) :
  k <> k' -> is_Some (dict_get k d) -> is_Some (dict_get k' d) ->
  dict_set k v (dict_set k' v' d) = dict_set k' v' (dict_set k v d).
Proof.
  intros Hne. induction d as [|[k0 v0] d IH]; simpl.
  - by intros [? ?].
  - destruct (decide (k = k0)) as [->|Hk]; destruct (decide (k' = k0)) as [->|Hk'];
      simpl; try done.
    + intros _ _. by rewrite decide_True, decide_False.
    + intros _ _. by rewrite decide_False, decide_True.
    + intros H1 H2. rewrite !decide_False by done. by rewrite IH.
Qed.

Lemma lm_get_set x n l m x' n' :
  lm_get (lm_set x n l m) x' n' =
  if decide ((x, n) = (x', n')) then Some l else lm_get m x' n'.
Proof.
  unfold lm_get, lm_set.
  destruct (decide (x = x')) as [->|Hx].
  - rewrite lookup_insert_eq, dict_get_set.
    destruct (decide (n = n')) as [->|Hn].
    + by rewrite decide_True.
    + rewrite decide_False by congruence. by destruct (m !! x').
  - rewrite lookup_insert_ne by done. rewrite decide_False by congruence. done.
Qed.

Lemma lm_set_id x n l m : lm_get m x n = Some l -> lm_set x n l m = m.
Proof.
  unfold lm_get, lm_set. destruct (m !! x) as [d|] eqn:Hd; [|done].
  intros Hget. simpl. rewrite dict_set_id by done. by apply insert_id.
Qed.

Lemma lm_set_set x n l l' m : lm_set x n l (lm_set x n l' m) = lm_set x n l m.
Proof.
  unfold lm_set. rewrite lookup_insert_eq. simpl.
  by rewrite dict_set_set, insert_insert_eq.
Qed.

Lemma lm_set_comm x n l x' n' l' m :
  (x, n) <> (x', n') ->
  is_Some (lm_get m x n) -> is_Some (lm_get m x' n') ->
  lm_set x n l (lm_set x' n' l' m) = lm_set x' n' l' (lm_set x n l m).
Proof.
  intros Hne. unfold lm_get, lm_set.
  destruct (decide (x = x')) as [->|Hx].
  - destruct (m !! x') as [d|] eqn:Hd; [|by intros [? ?]]. simpl.
    intros H1 H2. rewrite !lookup_insert_eq. simpl.
    rewrite !insert_insert_eq. f_equal.
    apply dict_set_comm; [congruence|done|done].
  - intros _ _. rewrite !lookup_insert_ne by done.
    by rewrite insert_insert_ne.
Qed.

Lemma apply_writes_snoc ws w m :
  apply_writes (ws ++ [w]) m =
  lm_set (fst (fst w)) (snd (fst w)) (snd w) (apply_writes ws m).
Proof. unfold apply_writes. by rewrite fold_left_app. Qed.

Lemma last_write_snoc ws w key :
  last_write (ws ++ [w]) key =
  if decide (fst w = key) then Some (snd w) else last_write ws key.
Proof. unfold last_write. by rewrite fold_left_app. Qed.

(** After the writes, a key holds the label of the last write to it, or what
    it held before when no write is to it. *)
Lemma lm_get_apply_writes ws m x n :
  lm_get (apply_writes ws m) x n =
  match last_write ws (x, n) with
  | Some l => Some l
  | None => lm_get m x n
  end.
Proof.
  induction ws as [|[[x0 n0] l0] ws IH] using rev_ind; [done|].
  rewrite apply_writes_snoc, last_write_snoc, lm_get_set. simpl.
  destruct (decide ((x0, n0) = (x, n))); done.
Qed.

Lemma last_write_None ws key :
  last_write ws key = None <-> key ∉ map fst ws.
Proof.
  induction ws as [|w ws IH] using rev_ind.
  - split; [intros _; apply not_elem_of_nil | done].
  - rewrite last_write_snoc, map_app, elem_of_app. simpl.
    destruct (decide (fst w = key)) as [<-|Hne].
    + split; [done|]. intros H. exfalso. apply H. right. left.
    + rewrite IH. split.
      * intros H [?|Hin%list_elem_of_singleton]; [done|congruence].
      * intros H Hin. apply H. by left.
Qed.

Lemma last_write_cons_ne w ws key :
  key ∈ map fst ws -> last_write (w :: ws) key = last_write ws key.
Proof.
  revert w. induction ws as [|w' ws IH] using rev_ind; intros w Hin.
  - by apply elem_of_nil in Hin.
  - rewrite app_comm_cons, !last_write_snoc.
    destruct (decide (fst w' = key)); [done|].
    apply IH. rewrite map_app, elem_of_app in Hin.
    destruct Hin as [?|Hin%list_elem_of_singleton]; [done|congruence].
Qed.

Lemma last_write_cons_eq w ws :
  fst w ∉ map fst ws -> last_write (w :: ws) (fst w) = Some (snd w).
Proof.
  induction ws as [|w' ws IH] using rev_ind; intros Hin.
  - unfold last_write. simpl. by rewrite decide_True.
  - rewrite app_comm_cons, last_write_snoc.
    rewrite map_app, elem_of_app in Hin.
    rewrite decide_False.
    + apply IH. intros ?. apply Hin. by left.
    + intros E. apply Hin. right. rewrite <- E. left.
Qed.

(** A write to a key that is written again later is absorbed. *)
Lemma apply_writes_absorb ws :
  forall m x n l,
    (x, n) ∈ map fst ws ->
    is_Some (lm_get m x n) ->
    (forall key, key ∈ map fst ws -> is_Some (lm_get m (fst key) (snd key))) ->
    apply_writes ws (lm_set x n l m) = apply_writes ws m.
Proof.
  induction ws as [|[[x0 n0] l0] ws IH]; intros m x n l Hin Hx Hkeys.
  - by apply elem_of_nil in Hin.
  - simpl. destruct (decide ((x0, n0) = (x, n))) as [[= -> ->]|Hne].
    + by rewrite lm_set_set.
    + simpl in Hin. apply elem_of_cons in Hin as [?|Hin]; [congruence|].
      pose proof (Hkeys (x0, n0) ltac:(left)) as Hx0. simpl in Hx0.
      rewrite (lm_set_comm x0 n0 l0 x n l) by done.
      apply IH; [done| |].
      * rewrite lm_get_set. by destruct (decide ((x0, n0) = (x, n))).
      * intros key Hkey. rewrite lm_get_set.
        destruct (decide ((x0, n0) = (fst key, snd key))); [done|].
        apply Hkeys. by right.
Qed.

(** Writes that assign to every key the label it holds already change
    nothing. *)
Lemma apply_writes_id ws :
  forall m,
    (forall key l, last_write ws key = Some l ->
                   lm_get m (fst key) (snd key) = Some l) ->
    apply_writes ws m = m.
Proof.
  induction ws as [|[[x0 n0] l0] ws IH]; intros m Hm; [done|].
  assert (Hkeys : forall key, key ∈ map fst ((x0, n0, l0) :: ws) ->
                              is_Some (lm_get m (fst key) (snd key))).
  { intros key Hkey.
    destruct (last_write ((x0, n0, l0) :: ws) key) as [l|] eqn:Hl.
    - rewrite (Hm key l Hl). done.
    - by apply last_write_None in Hl. }
  assert (Htail : forall key l, last_write ws key = Some l ->
                                lm_get m (fst key) (snd key) = Some l).
  { intros key l Hl. apply Hm. rewrite last_write_cons_ne; [done|].
    destruct (decide (key ∈ map fst ws)) as [?|Hnot]; [done|].
    apply last_write_None in Hnot. congruence. }
  simpl. destruct (decide ((x0, n0) ∈ map fst ws)) as [Hin|Hnot].
  - rewrite apply_writes_absorb; [by apply IH|done| |].
    + apply (Hkeys (x0, n0)). left.
    + intros key Hkey. apply Hkeys. by right.
  - rewrite lm_set_id; [by apply IH|].
    apply (Hm (x0, n0)). by apply (last_write_cons_eq (x0, n0, l0)).
Qed.

Lemma last_write_Some_elem ws key l :
  last_write ws key = Some l -> (key, l) ∈ ws.
Proof.
  induction ws as [|[key0 l0] ws IH] using rev_ind; [done|].
  rewrite last_write_snoc, elem_of_app. simpl.
  destruct (decide (key0 = key)) as [->|Hne].
  - intros [= ->]. right. left.
  - intros H. left. by apply IH.
Qed.

Lemma last_write_is_Some ws key :
  key ∈ map fst ws -> is_Some (last_write ws key).
Proof.
  intros Hin. destruct (last_write ws key) eqn:E; [done|].
  by apply last_write_None in E.
Qed.

Lemma last_write_init vs v :
  v ∈ vs -> last_write (init_writes vs) (name v, 0) = Some (name v).
Proof.
  intros Hv.
  destruct (last_write_is_Some (init_writes vs) (name v, 0)) as [l Hl].
  { unfold init_writes. rewrite map_map. simpl.
    apply list_elem_of_In, in_map_iff. exists v. by rewrite <- list_elem_of_In. }
  rewrite Hl. apply last_write_Some_elem in Hl.
  unfold init_writes in Hl.
  apply list_elem_of_In, in_map_iff in Hl as (w & [= <- <-] & _). done.
Qed.

Lemma last_write_init_inv vs key l :
  last_write (init_writes vs) key = Some l ->
  exists v, v ∈ vs /\ key = (name v, 0) /\ l = name v.
Proof.
  intros Hl. apply last_write_Some_elem in Hl. unfold init_writes in Hl.
  apply list_elem_of_In, in_map_iff in Hl as (v & [= <- <-] & Hv).
  exists v. by rewrite list_elem_of_In.
Qed.

Lemma labels_at_ext m m' ps k :
  (forall x, lm_get m x k = lm_get m' x k) -> labels_at m ps k = labels_at m' ps k.
Proof. intros H. induction ps as [|p ps IH]; simpl; [done|]. by rewrite H, IH. Qed.

Lemma pre_hash_of_ext m m' kg v n :
  (forall x, lm_get m x (n - 1) = lm_get m' x (n - 1)) ->
  pre_hash_of m kg v n = pre_hash_of m' kg v n.
Proof. intros H. unfold pre_hash_of. by rewrite (labels_at_ext m m'), H. Qed.

Lemma level_writes_ext m m' kg n vs :
  (forall x, lm_get m x (n - 1) = lm_get m' x (n - 1)) ->
  level_writes m kg n vs = level_writes m' kg n vs.
Proof.
  intros H. induction vs as [|v vs IH]; simpl; [done|].
  by rewrite (pre_hash_of_ext m m'), IH.
Qed.

Lemma level_writes_level m kg n vs ws key l :
  level_writes m kg n vs = Some ws -> (key, l) ∈ ws -> snd key = n.
Proof.
  revert ws. induction vs as [|v vs IH]; intros ws; simpl.
  - intros [= <-] Hin. by apply elem_of_nil in Hin.
  - destruct (pre_hash_of m kg v n); [|done].
    destruct (level_writes m kg n vs) as [ws'|]; [|done].
    intros [= <-] [[= -> _]|Hin]%elem_of_cons; [done|]. by apply (IH ws').
Qed.

(** The writes of level [n] leave the other levels as they are. *)
Lemma lm_get_level_other m0 m kg n vs ws x k :
  level_writes m0 kg n vs = Some ws -> k <> n ->
  lm_get (apply_writes ws m) x k = lm_get m x k.
Proof.
  intros Hws Hk. rewrite lm_get_apply_writes.
  destruct (last_write ws (x, k)) as [l|] eqn:Hl; [|done].
  apply last_write_Some_elem in Hl.
  by apply (level_writes_level _ _ _ _ _ _ _ Hws) in Hl.
Qed.

Lemma apply_writes_non_empty ws m : m <> ∅ -> apply_writes ws m <> ∅.
Proof.
  intros Hm. induction ws as [|w ws IH] using rev_ind; [done|].
  rewrite apply_writes_snoc. apply insert_non_empty.
Qed.

Lemma set_label_map_id self : set_label_map (_label_map self) self = self.
Proof. by destruct self. Qed.

Lemma bind_get_wl_iterations {B} (k : Z -> M B) self :
  bind get_wl_iterations k self = k (wl_iterations self) self.
Proof. reflexivity. Qed.

Lemma label_map_set m self : _label_map (set_label_map m self) = m.
Proof. reflexivity. Qed.

Lemma set_label_map_set m m' self :
  set_label_map m (set_label_map m' self) = set_label_map m self.
Proof. reflexivity. Qed.

(** The first loop performs the initial writes. *)
Lemma init_loop_writes vs :
  forall self,
    exists self',
      for_ vs (fun vertex =>
        label_map_setitem (name vertex) 0 (name vertex) ;;
        inv_label_map_setitem (name vertex) (AInt 0) (AStr (name vertex))) self
      = (Ret tt, self') /\
      wl_iterations self' = wl_iterations self /\
      _label_map self' = apply_writes (init_writes vs) (_label_map self).
Proof.
  induction vs as [|v vs IH]; intros self.
  - by exists self.
  - cbn [for_].
    pose proof (bind_ret_run _
                  (fun _ => inv_label_map_setitem (name v) (AInt 0)
                              (AStr (name v)))
                  _ _ _ (label_map_setitem_run (name v) 0 (name v) self))
      as Hbody.
    cbv beta in Hbody. rewrite inv_label_map_setitem_run in Hbody.
    rewrite (bind_ret_run _ _ _ _ _ Hbody).
    match goal with |- context [for_ vs _ ?s1] =>
      destruct (IH s1) as (self' & Hrun & Hwl & Hlm) end.
    exists self'. by rewrite Hrun, Hwl, Hlm.
Qed.

Lemma labels_at_run ps k self :
  match labels_at (_label_map self) ps k with
  | Some ls =>
      comprehension (fun p => label_map_getitem (name p) k) ps self
      = (Ret ls, self)
  | None =>
      exists e self',
        comprehension (fun p => label_map_getitem (name p) k) ps self
        = (Raise e, self')
  end.
Proof.
  induction ps as [|p ps IH]; simpl; [done|].
  destruct (lm_get (_label_map self) (name p) k) as [l|] eqn:Hl.
  - rewrite (bind_ret_run _ _ _ _ _ (label_map_getitem_some _ _ _ _ Hl)).
    destruct (labels_at (_label_map self) ps k) as [ls|].
    + by rewrite (bind_ret_run _ _ _ _ _ IH).
    + destruct IH as (e & self' & Hrun).
      rewrite (bind_raise_run _ _ _ _ _ Hrun). eauto.
  - rewrite (bind_raise_run _ _ _ _ _ (label_map_getitem_none _ _ _ Hl)). eauto.
Qed.

(** On a table that is not empty, [_create_label] does not relabel. *)
Lemma create_label_nonempty fuel kg v n self :
  _label_map self <> ∅ ->
  _create_label (S fuel) kg v n self =
  (do labels <- comprehension
                  (fun neighbor => label_map_getitem (name neighbor) (n - 1))
                  (get_neighbors kg v true);
   do own <- label_map_getitem (name v) (n - 1);
   ret (own ++ "-" ++ join "-" (sorted_set labels))%string) self.
Proof.
  intros Hne. simpl.
  unfold bind at 1. unfold label_map_len.
  assert ((Z.of_nat (size (_label_map self)) =? 0) = false) as ->.
  { apply Z.eqb_neq. intros Hz. apply Hne, map_size_empty_iff. lia. }
  reflexivity.
Qed.

(** [_create_label] returns the pre-hash string when every label it reads
    is stored, and raises otherwise. *)
Lemma create_label_pure fuel kg v n self :
  _label_map self <> ∅ ->
  match pre_hash_of (_label_map self) kg v n with
  | Some l => _create_label (S fuel) kg v n self = (Ret l, self)
  | None => exists e self', _create_label (S fuel) kg v n self = (Raise e, self')
  end.
Proof.
  intros Hne. rewrite (create_label_nonempty fuel kg v n self Hne).
  unfold pre_hash_of, predecessors.
  pose proof (labels_at_run (get_neighbors kg v true) (n - 1) self) as Hlabels.
  destruct (labels_at (_label_map self) (get_neighbors kg v true) (n - 1))
    as [ls|].
  - rewrite (bind_ret_run _ _ _ _ _ Hlabels).
    destruct (lm_get (_label_map self) (name v) (n - 1)) as [own|] eqn:Hown.
    + pose proof (label_map_getitem_some _ _ _ _ Hown) as Hget.
      by rewrite (bind_ret_run _ _ _ _ _ Hget).
    + pose proof (label_map_getitem_none _ _ _ Hown) as Hget.
      rewrite (bind_raise_run _ _ _ _ _ Hget). eauto.
  - destruct Hlabels as (e & self' & Hrun).
    rewrite (bind_raise_run _ _ _ _ _ Hrun). eauto.
Qed.

(** One level of the second loop performs the writes of the level, computed
    from the labels of the level below at the start of the level. *)
Lemma level_pass_writes fuel kg n vs :
  forall self m0,
    _label_map self <> ∅ ->
    (forall x, lm_get (_label_map self) x (n - 1) = lm_get m0 x (n - 1)) ->
    match level_writes m0 kg n vs with
    | Some ws =>
        for_ vs (fun vertex =>
          do label <- _create_label (S fuel) kg vertex n;
          label_map_setitem (name vertex) n (md5_digest_str label)) self
        = (Ret tt, set_label_map (apply_writes ws (_label_map self)) self)
    | None =>
        exists e self',
          for_ vs (fun vertex =>
            do label <- _create_label (S fuel) kg vertex n;
            label_map_setitem (name vertex) n (md5_digest_str label)) self
          = (Raise e, self')
    end.
Proof.
  induction vs as [|v vs IH]; intros self m0 Hne Hview.
  - simpl. unfold ret. by rewrite set_label_map_id.
  - cbn [level_writes for_].
    rewrite <- (pre_hash_of_ext _ _ kg v n Hview).
    pose proof (create_label_pure fuel kg v n self Hne) as Hcl.
    destruct (pre_hash_of (_label_map self) kg v n) as [l|].
    + assert (Hbody :
        (do label <- _create_label (S fuel) kg v n;
         label_map_setitem (name v) n (md5_digest_str label)) self
        = (Ret tt,
           set_label_map
             (lm_set (name v) n (md5_digest_str l) (_label_map self)) self)).
      { rewrite (bind_ret_run _ _ _ _ _ Hcl). apply label_map_setitem_run. }
      assert (Hne1 : lm_set (name v) n (md5_digest_str l) (_label_map self) <> ∅)
        by apply insert_non_empty.
      assert (Hview1 : forall x,
                lm_get (lm_set (name v) n (md5_digest_str l) (_label_map self))
                  x (n - 1) = lm_get m0 x (n - 1)).
      { intros x. rewrite lm_get_set, decide_False; [apply Hview|].
        intros [= _ ?]. lia. }
      specialize (IH (set_label_map
                        (lm_set (name v) n (md5_digest_str l) (_label_map self))
                        self) m0 Hne1 Hview1).
      destruct (level_writes m0 kg n vs) as [ws|].
      * rewrite (bind_ret_run _ _ _ _ _ Hbody), IH. done.
      * destruct IH as (e & self' & Hrun). exists e, self'.
        by rewrite (bind_ret_run _ _ _ _ _ Hbody).
    + destruct Hcl as (e & self' & Hrun). exists e, self'.
      apply bind_raise_run, bind_raise_run, Hrun.
Qed.

(** The second loop performs the writes of its levels in turn, or raises. *)
Lemma levels_loop_writes fuel kg levels :
  forall self,
    (_vertices kg <> [] -> _label_map self <> ∅) ->
    match levels_pure kg levels (_label_map self) with
    | Some m =>
        for_ levels (fun n =>
          for_ (_vertices kg) (fun vertex =>
            do label <- _create_label (S fuel) kg vertex n;
            label_map_setitem (name vertex) n (md5_digest_str label))) self
        = (Ret tt, set_label_map m self)
    | None =>
        exists e self',
          for_ levels (fun n =>
            for_ (_vertices kg) (fun vertex =>
              do label <- _create_label (S fuel) kg vertex n;
              label_map_setitem (name vertex) n (md5_digest_str label))) self
          = (Raise e, self')
    end.
Proof.
  induction levels as [|n levels IH]; intros self Hne.
  - simpl. unfold ret. by rewrite set_label_map_id.
  - cbn [levels_pure for_].
    assert (Hpass :
      match level_writes (_label_map self) kg n (_vertices kg) with
      | Some ws =>
          for_ (_vertices kg) (fun vertex =>
            do label <- _create_label (S fuel) kg vertex n;
            label_map_setitem (name vertex) n (md5_digest_str label)) self
          = (Ret tt, set_label_map (apply_writes ws (_label_map self)) self)
      | None =>
          exists e self',
            for_ (_vertices kg) (fun vertex =>
              do label <- _create_label (S fuel) kg vertex n;
              label_map_setitem (name vertex) n (md5_digest_str label)) self
            = (Raise e, self')
      end).
    { destruct (_vertices kg) as [|v vs] eqn:HV.
      - simpl. unfold ret. by rewrite set_label_map_id.
      - by apply level_pass_writes; [apply Hne|]. }
    destruct (level_writes (_label_map self) kg n (_vertices kg)) as [ws|] eqn:Hws.
    + rewrite (bind_ret_run _ _ _ _ _ Hpass).
      specialize (IH (set_label_map (apply_writes ws (_label_map self)) self)).
      rewrite label_map_set in IH.
      assert (Hne1 : _vertices kg <> [] -> apply_writes ws (_label_map self) <> ∅).
      { intros HV. by apply apply_writes_non_empty, Hne. }
      specialize (IH Hne1).
      destruct (levels_pure kg levels (apply_writes ws (_label_map self)));
        [by rewrite IH, set_label_map_set|done].
    + destruct Hpass as (e & self' & Hrun). exists e, self'.
      by apply bind_raise_run.
Qed.

Lemma inv_items_keep_label_map x items :
  forall self,
    exists self',
      for_ (dict_items items)
        (fun '(k, v) => inv_label_map_setitem x (AStr v) (AInt k)) self
      = (Ret tt, self') /\
      _label_map self' = _label_map self /\
      wl_iterations self' = wl_iterations self.
Proof.
  unfold dict_items. induction items as [|[k l] items IH]; intros self.
  - by exists self.
  - cbn [for_].
    rewrite (bind_ret_run _ _ _ _ _ (inv_label_map_setitem_run _ _ _ _)).
    match goal with |- context [for_ _ _ ?s1] =>
      destruct (IH s1) as (self' & Hrun & Hlm & Hwl) end.
    exists self'. by rewrite Hrun, Hlm, Hwl.
Qed.

(** The third loop leaves the label table as it is when the names of the
    vertices have their dicts. *)
Lemma invert_loop_keeps_label_map vs :
  forall self,
    (forall v, v ∈ vs -> is_Some (_label_map self !! name v)) ->
    exists self',
      for_ vs (fun vertex =>
        do row <- label_map_row (name vertex);
        for_ (dict_items row) (fun '(k, v) =>
          inv_label_map_setitem (name vertex) (AStr v) (AInt k))) self
      = (Ret tt, self') /\
      _label_map self' = _label_map self /\
      wl_iterations self' = wl_iterations self.
Proof.
  induction vs as [|v vs IH]; intros self Hnames.
  - by exists self.
  - cbn [for_].
    destruct (Hnames v ltac:(left)) as [row Hrow].
    destruct (inv_items_keep_label_map (name v) row self)
      as (s1 & Hrun1 & Hlm1 & Hwl1).
    assert (Hbody :
      (do row <- label_map_row (name v);
       for_ (dict_items row) (fun '(k, l) =>
         inv_label_map_setitem (name v) (AStr l) (AInt k))) self
      = (Ret tt, s1)).
    { by rewrite (bind_ret_run _ _ _ _ _ (label_map_row_some _ _ _ Hrow)). }
    rewrite (bind_ret_run _ _ _ _ _ Hbody).
    destruct (IH s1) as (self' & Hrun & Hlm & Hwl).
    { intros w Hw. rewrite Hlm1. apply Hnames. by right. }
    exists self'. by rewrite Hrun, Hlm, Hlm1, Hwl, Hwl1.
Qed.

Lemma lm_get_is_Some_row m x n : is_Some (lm_get m x n) -> is_Some (m !! x).
Proof. unfold lm_get. destruct (m !! x); [done|by intros [? ?]]. Qed.

Lemma levels_pure_get_other kg levels :
  forall m m' x k,
    levels_pure kg levels m = Some m' -> k ∉ levels ->
    lm_get m' x k = lm_get m x k.
Proof.
  induction levels as [|n levels IH]; intros m m' x k; simpl.
  - by intros [= <-].
  - destruct (level_writes m kg n (_vertices kg)) as [ws|] eqn:Hws; [|done].
    intros Hm' Hk. apply not_elem_of_cons in Hk as [Hkn Hk].
    rewrite (IH _ _ x k Hm' Hk).
    by apply (lm_get_level_other m m kg n (_vertices kg)).
Qed.

(** A pass is the initial writes followed by the writes of the levels
    [1..L]: it returns with the table they leave when every label read on
    the way is stored, and raises otherwise. *)
Lemma relabel_as_writes fuel kg self :
  match levels_pure kg (range 1 (wl_iterations self + 1))
          (apply_writes (init_writes (_vertices kg)) (_label_map self)) with
  | Some m =>
      exists self',
        _weisfeiler_lehman (S (S fuel)) kg self = (Ret tt, self') /\
        _label_map self' = m /\ wl_iterations self' = wl_iterations self
  | None =>
      exists e self', _weisfeiler_lehman (S (S fuel)) kg self = (Raise e, self')
  end.
Proof.
  change (_weisfeiler_lehman (S (S fuel)) kg)
    with (for_ (_vertices kg) (fun vertex =>
            label_map_setitem (name vertex) 0 (name vertex) ;;
            inv_label_map_setitem (name vertex) (AInt 0) (AStr (name vertex))) ;;
          do iterations <- get_wl_iterations;
          for_ (range 1 (iterations + 1)) (fun n =>
            for_ (_vertices kg) (fun vertex =>
              do label <- _create_label (S fuel) kg vertex n;
              label_map_setitem (name vertex) n (md5_digest_str label))) ;;
          for_ (_vertices kg) (fun vertex =>
            do row <- label_map_row (name vertex);
            for_ (dict_items row) (fun '(k, v) =>
              inv_label_map_setitem (name vertex) (AStr v) (AInt k)))).
  destruct (init_loop_writes (_vertices kg) self) as (s0 & Hrun0 & Hwl0 & Hlm0).
  rewrite (bind_ret_run _ _ _ _ _ Hrun0).
  rewrite bind_get_wl_iterations, Hwl0, <- Hlm0.
  assert (Hinit : forall v, v ∈ _vertices kg ->
                            lm_get (_label_map s0) (name v) 0 = Some (name v)).
  { intros v Hv. by rewrite Hlm0, lm_get_apply_writes, last_write_init. }
  pose proof (levels_loop_writes fuel kg (range 1 (wl_iterations self + 1)) s0)
    as Hlevels.
  assert (Hne : _vertices kg <> [] -> _label_map s0 <> ∅).
  { destruct (_vertices kg) as [|v vs]; [done|]. intros _ Hempty.
    specialize (Hinit v ltac:(left)). unfold lm_get in Hinit.
    by rewrite Hempty, lookup_empty in Hinit. }
  specialize (Hlevels Hne).
  destruct (levels_pure kg (range 1 (wl_iterations self + 1)) (_label_map s0))
    as [m|] eqn:Hpure.
  - rewrite (bind_ret_run _ _ _ _ _ Hlevels).
    destruct (invert_loop_keeps_label_map (_vertices kg) (set_label_map m s0))
      as (s2 & Hrun2 & Hlm2 & Hwl2).
    { intros v Hv. rewrite label_map_set.
      apply (lm_get_is_Some_row m (name v) 0).
      rewrite (levels_pure_get_other kg _ _ _ (name v) 0 Hpure).
      - by rewrite Hinit.
      - rewrite elem_of_range. lia. }
    exists s2. rewrite Hrun2, Hlm2, Hwl2.
    split; [done|]. split; [done|]. exact Hwl0.
  - destruct Hlevels as (e & self' & Hrun). exists e, self'.
    by apply bind_raise_run.
Qed.

Lemma range_nil lo hi : hi <= lo -> range lo hi = [].
Proof. intros H. unfold range. by replace (Z.to_nat (hi - lo)) with O by lia. Qed.

Lemma range_sorted lo hi : StronglySorted Z.lt (range lo hi).
Proof.
  remember (Z.to_nat (hi - lo)) as k eqn:Hk. revert lo Hk.
  induction k as [|k IH]; intros lo Hk.
  - rewrite range_nil by lia. constructor.
  - rewrite range_cons by lia. constructor.
    + apply IH. lia.
    + apply Forall_forall. intros x Hx%elem_of_range. lia.
Qed.

(** On a settled table the first loop and the levels write what is there. *)
Lemma settled_init_writes kg m levels :
  settled kg m levels -> apply_writes (init_writes (_vertices kg)) m = m.
Proof.
  intros [Hinit _]. apply apply_writes_id. intros key l Hl.
  apply last_write_init_inv in Hl as (v & Hv & -> & ->). by apply Hinit.
Qed.

Lemma settled_levels_pure kg m levels :
  settled kg m levels -> levels_pure kg levels m = Some m.
Proof.
  induction levels as [|n levels IH]; intros [Hinit Hlevels]; [done|].
  simpl. destruct (Hlevels n ltac:(left)) as (ws & -> & Hws).
  rewrite (apply_writes_id ws m Hws). apply IH. split; [done|].
  intros n' Hn'. apply Hlevels. by right.
Qed.

(** The writes of a level settle it and keep the lower levels settled. *)
Lemma level_settles kg m n ws done :
  (forall d, d ∈ done -> d < n) -> 1 <= n ->
  settled kg m done ->
  level_writes m kg n (_vertices kg) = Some ws ->
  settled kg (apply_writes ws m) (done ++ [n]).
Proof.
  intros Hdone Hn [Hinit Hlevels] Hws.
  assert (Hother : forall x k, k <> n ->
            lm_get (apply_writes ws m) x k = lm_get m x k).
  { intros x k Hk. by apply (lm_get_level_other m m kg n (_vertices kg)). }
  split.
  - intros v Hv. rewrite Hother by lia. by apply Hinit.
  - intros n' [Hn'|Hn'%list_elem_of_singleton]%elem_of_app.
    + destruct (Hlevels n' Hn') as (ws' & Hws' & Hlast).
      pose proof (Hdone n' Hn') as Hlt.
      exists ws'. split.
      * rewrite <- Hws'. apply level_writes_ext. intros x. apply Hother. lia.
      * intros [x k] l Hl. simpl.
        pose proof (last_write_Some_elem _ _ _ Hl) as Hin.
        apply (level_writes_level _ _ _ _ _ _ _ Hws') in Hin. simpl in Hin.
        subst k. rewrite Hother by lia. by apply (Hlast (x, n')).
    + subst n'. exists ws. split.
      * rewrite <- Hws. apply level_writes_ext. intros x. apply Hother. lia.
      * intros [x k] l Hl. simpl. by rewrite lm_get_apply_writes, Hl.
Qed.

Lemma levels_pure_settles kg levels :
  forall done m m',
    StronglySorted Z.lt levels ->
    (forall d n, d ∈ done -> n ∈ levels -> d < n) ->
    (forall n, n ∈ levels -> 1 <= n) ->
    settled kg m done ->
    levels_pure kg levels m = Some m' ->
    settled kg m' (done ++ levels).
Proof.
  induction levels as [|n levels IH]; intros done m m' Hsorted Hdone Hpos Hm.
  - simpl. intros [= <-]. by rewrite app_nil_r.
  - simpl. destruct (level_writes m kg n (_vertices kg)) as [ws|] eqn:Hws; [|done].
    intros Hm'. apply StronglySorted_inv in Hsorted as [Hsorted Hlt].
    rewrite Forall_forall in Hlt.
    replace (done ++ n :: levels) with ((done ++ [n]) ++ levels)
      by (by rewrite <- app_assoc).
    apply (IH (done ++ [n]) (apply_writes ws m) m'); try done.
    + intros d n' [Hd|Hd%list_elem_of_singleton]%elem_of_app Hn'.
      * apply Hdone; [done|by right].
      * subst d. by apply Hlt.
    + intros n' Hn'. apply Hpos. by right.
    + apply level_settles; try done.
      * intros d Hd. apply Hdone; [done|left].
      * apply Hpos. left.
Qed.

(** The table that a pass leaves is settled for the levels of the pass. *)
Lemma relabel_settles kg m iterations m' :
  levels_pure kg (range 1 (iterations + 1))
    (apply_writes (init_writes (_vertices kg)) m) = Some m' ->
  settled kg m' (range 1 (iterations + 1)).
Proof.
  intros Hm'.
  apply (levels_pure_settles kg (range 1 (iterations + 1)) []
           (apply_writes (init_writes (_vertices kg)) m) m'); try done.
  - apply range_sorted.
  - intros d n Hd. by apply elem_of_nil in Hd.
  - intros n Hn%elem_of_range. lia.
  - split.
    + intros v Hv. by rewrite lm_get_apply_writes, last_write_init.
    + intros n Hn. by apply elem_of_nil in Hn.
Qed.

(** C7. Relabeling is idempotent for an unchanged graph: for every graph and
    every state of the walker, when a call of the relabeling pass returns, a
    second call over the same graph returns too and leaves the label table
    exactly as the first call left it, the order of the entries included.
    The first call does return for every graph of the data model. *)
Theorem relabel_idempotent (kg : KG) (self : WLWalker) (fuel1 fuel2 : nat) :
  (forall self1,
     _weisfeiler_lehman (S (S fuel1)) kg self = (Ret tt, self1) ->
     exists self2,
       _weisfeiler_lehman (S (S fuel2)) kg self1 = (Ret tt, self2) /\
       _label_map self2 = _label_map self1) /\
  (well_formed kg ->
   exists self1, _weisfeiler_lehman (S (S fuel1)) kg self = (Ret tt, self1)).
Proof.
  split.
  - intros self1 Hrun1.
    pose proof (relabel_as_writes fuel1 kg self) as H1.
    destruct (levels_pure kg (range 1 (wl_iterations self + 1))
                (apply_writes (init_writes (_vertices kg)) (_label_map self)))
      as [m|] eqn:Hpure.
    + destruct H1 as (s1 & Hrun1' & Hlm1 & Hwl1).
      rewrite Hrun1 in Hrun1'. injection Hrun1' as <-.
      pose proof (relabel_settles kg _ _ _ Hpure) as Hsettled.
      pose proof (relabel_as_writes fuel2 kg self1) as H2.
      rewrite Hwl1, Hlm1 in H2.
      rewrite (settled_init_writes kg m _ Hsettled) in H2.
      rewrite (settled_levels_pure kg m _ Hsettled) in H2.
      destruct H2 as (self2 & Hrun2 & Hlm2 & _).
      exists self2. by rewrite Hlm1.
    + destruct H1 as (e & s1 & Hrun1'). rewrite Hrun1 in Hrun1'. discriminate.
  - intros Hwf. destruct (relabel_run kg self Hwf fuel1) as (self1 & Hrun & _).
    by exists self1.
Qed.

Lemma relabel_idempotent_witness :
  exists self2,
    _weisfeiler_lehman 2 kg_abc relabelled_abc = (Ret tt, self2) /\
    _label_map self2 = _label_map relabelled_abc.
Proof.
  apply (proj1 (relabel_idempotent kg_abc (fresh 1) 0 0) relabelled_abc).
  vm_compute. reflexivity.
Defined.

(** ** Outside the data model *)

(** With two vertices of one name the label stored under the name is that
    of the vertex enumerated last, so the table depends on the enumeration
    order; this is why the theorems on the stored labels assume the unique
    names of the data model.  Idempotence holds all the same. *)
Example repeated_name_order :
  label_of (snd (_weisfeiler_lehman 2 kg_dup (fresh 1))) "P" 1
    = Some (md5_digest_str "P-C") /\
  label_of (snd (_weisfeiler_lehman 2 kg_dup' (fresh 1))) "P" 1
    = Some (md5_digest_str "P-A").
Proof. vm_compute. split; reflexivity. Qed.

Example repeated_name_twice :
  _label_map (snd (_weisfeiler_lehman 2 kg_dup
                     (snd (_weisfeiler_lehman 2 kg_dup (fresh 1)))))
  = _label_map (snd (_weisfeiler_lehman 2 kg_dup (fresh 1))).
Proof. vm_compute. reflexivity. Qed.

(** * Further properties of the methods *)

(** ** The two methods, one call deep *)

Lemma weisfeiler_lehman_S fuel kg :
  _weisfeiler_lehman (S fuel) kg =
  (for_ (_vertices kg) (fun vertex =>
     label_map_setitem (name vertex) 0 (name vertex) ;;
     inv_label_map_setitem (name vertex) (AInt 0) (AStr (name vertex))) ;;
   do iterations <- get_wl_iterations;
   for_ (range 1 (iterations + 1)) (fun n =>
     for_ (_vertices kg) (fun vertex =>
       do label <- _create_label fuel kg vertex n;
       label_map_setitem (name vertex) n (md5_digest_str label))) ;;
   for_ (_vertices kg) (fun vertex =>
     do row <- label_map_row (name vertex);
     for_ (dict_items row) (fun '(k, v) =>
       inv_label_map_setitem (name vertex) (AStr v) (AInt k)))).
Proof. reflexivity. Qed.

Lemma create_label_S fuel kg v n :
  _create_label (S fuel) kg v n =
  (do len <- label_map_len;
   (if len =? 0 then _weisfeiler_lehman fuel kg else ret tt) ;;
   do labels <- comprehension
                  (fun neighbor => label_map_getitem (name neighbor) (n - 1))
                  (get_neighbors kg v true);
   do own <- label_map_getitem (name v) (n - 1);
   ret (own ++ "-" ++ join "-" (sorted_set labels))%string).
Proof. reflexivity. Qed.

(** ** The exceptions of a pass *)


Lemma ro_ret {A} L allowed (a : A) : raises_only L allowed (ret a).
Proof. intros self o self' HL [= <- <-]. by split. Qed.


Lemma ro_bind {A B} L allowed (m : M A) (k : A -> M B) :
  raises_only L allowed m -> (forall a, raises_only L allowed (k a)) ->
  raises_only L allowed (bind m k).
Proof.
  intros Hm Hk self o self' HL. unfold bind.
  destruct (m self) as [[a|e0|] s1] eqn:E;
    destruct (Hm self _ s1 HL E) as [Hwl Hraise].
  - by apply Hk.
  - intros [= <- <-]. split; [done|]. intros e [= <-]. by apply Hraise.
  - intros [= <- <-]. by split.
Qed.


Lemma ro_comprehension {A B} L allowed (f : A -> M B) (l : list A) :
  (forall x, raises_only L allowed (f x)) ->
  raises_only L allowed (comprehension f l).
Proof.
  intros Hf. induction l as [|x l IH]; simpl.
  - apply ro_ret.
  - apply ro_bind; [apply Hf|]. intros y.
    apply ro_bind; [apply IH|]. intros ys. apply ro_ret.
Qed.


Lemma ro_label_map_row L allowed x : raises_only L allowed (label_map_row x).
Proof.
  intros self o self' HL. unfold label_map_row.
  destruct (_label_map self !! x); intros [= <- <-]; by split.
Qed.

Lemma ro_label_map_getitem L x n :
  raises_only L (fun k => k = n) (label_map_getitem x n).
Proof.
  unfold label_map_getitem. apply ro_bind; [apply ro_label_map_row|].
  intros d. destruct (dict_get n d); [apply ro_ret|].
  intros self o self' HL [= <- <-]. split; [done|].
  intros e [= <-]. by exists n.
Qed.







(** ** Termination *)

Lemma fm_refl {A} (m : M A) : fuel_mono m m.
Proof. by intros self o self' Hrun _. Qed.

Lemma fm_bind {A B} (m1 m2 : M A) (k1 k2 : A -> M B) :
  fuel_mono m1 m2 -> (forall a, fuel_mono (k1 a) (k2 a)) ->
  fuel_mono (bind m1 k1) (bind m2 k2).
Proof.
  intros Hm Hk self o self'. unfold bind.
  destruct (m1 self) as [[a|e|] s1] eqn:E.
  - rewrite (Hm self _ s1 E ltac:(done)). apply Hk.
  - rewrite (Hm self _ s1 E ltac:(done)). done.
  - by intros [= <- <-].
Qed.

Lemma fm_for {A} (l : list A) (body1 body2 : A -> M unit) :
  (forall x, fuel_mono (body1 x) (body2 x)) ->
  fuel_mono (for_ l body1) (for_ l body2).
Proof.
  intros Hbody. induction l as [|x l IH]; simpl.
  - apply fm_refl.
  - apply fm_bind; [apply Hbody | intros _; apply IH].
Qed.

(** One more call of depth changes nothing once the methods return or
    raise. *)
Lemma fm_relabel_S fuel :
  (forall kg, fuel_mono (_weisfeiler_lehman fuel kg)
                        (_weisfeiler_lehman (S fuel) kg)) /\
  (forall kg v n, fuel_mono (_create_label fuel kg v n)
                            (_create_label (S fuel) kg v n)).
Proof.
  induction fuel as [|fuel [IHwl IHcl]].
  - split; intros; intros self o self' [= <- <-]; done.
  - split.
    + intros kg.
      rewrite (weisfeiler_lehman_S (S fuel)), (weisfeiler_lehman_S fuel).
      apply fm_bind; [apply fm_refl|]. intros _.
      apply fm_bind; [apply fm_refl|]. intros iterations.
      apply fm_bind; [|intros _; apply fm_refl].
      apply fm_for. intros n. apply fm_for. intros v.
      apply fm_bind; [apply IHcl | intros l; apply fm_refl].
    + intros kg v n.
      rewrite (create_label_S (S fuel)), (create_label_S fuel).
      apply fm_bind; [apply fm_refl|]. intros len.
      apply fm_bind; [|intros _; apply fm_refl].
      destruct (len =? 0); [apply IHwl | apply fm_refl].
Qed.

Lemma fm_relabel_le fuel fuel' :
  (fuel <= fuel')%nat ->
  (forall kg, fuel_mono (_weisfeiler_lehman fuel kg)
                        (_weisfeiler_lehman fuel' kg)) /\
  (forall kg v n, fuel_mono (_create_label fuel kg v n)
                            (_create_label fuel' kg v n)).
Proof.
  induction 1 as [|fuel' Hle [IHwl IHcl]].
  - split; intros; apply fm_refl.
  - destruct (fm_relabel_S fuel') as [Hwl Hcl]. split.
    + intros kg self o self' Hrun Ho. apply Hwl; [|done]. by apply IHwl.
    + intros kg v n self o self' Hrun Ho. apply Hcl; [|done]. by apply IHcl.
Qed.

(** With two calls of depth a pass returns or raises. *)
Lemma relabel_finishes fuel kg self :
  fst (_weisfeiler_lehman (S (S fuel)) kg self) <> OutOfFuel.
Proof.
  pose proof (relabel_as_writes fuel kg self) as H.
  destruct (levels_pure kg (range 1 (wl_iterations self + 1))
              (apply_writes (init_writes (_vertices kg)) (_label_map self))).
  - destruct H as (self' & -> & _). done.
  - destruct H as (e & self' & ->). done.
Qed.

(** The outcome of a pass that returns or raises is its outcome at every
    depth of two calls or more. *)
Lemma relabel_at_fuel fuel fuel' kg self o self' :
  _weisfeiler_lehman fuel kg self = (o, self') -> o <> OutOfFuel ->
  _weisfeiler_lehman (S (S fuel')) kg self = (o, self').
Proof.
  intros Hrun Ho.
  pose proof (proj1 (fm_relabel_le fuel (fuel + S (S fuel')) ltac:(lia))
                kg self o self' Hrun Ho) as Hbig.
  pose proof (relabel_finishes fuel' kg self) as Hfin.
  destruct (_weisfeiler_lehman (S (S fuel')) kg self) as [o' s'] eqn:Hsmall.
  rewrite <- Hbig. symmetry.
  apply (proj1 (fm_relabel_le (S (S fuel')) (fuel + S (S fuel')) ltac:(lia))
           kg self o' s' Hsmall Hfin).
Qed.

(** What [_create_label] does after the test of line 57 returns or raises. *)
Lemma create_label_tail_finishes kg v n self :
  fst ((do labels <- comprehension
                       (fun neighbor => label_map_getitem (name neighbor) (n - 1))
                       (get_neighbors kg v true);
        do own <- label_map_getitem (name v) (n - 1);
        ret (own ++ "-" ++ join "-" (sorted_set labels))%string) self)
  <> OutOfFuel.
Proof.
  pose proof (labels_at_run (get_neighbors kg v true) (n - 1) self) as Hlabels.
  destruct (labels_at (_label_map self) (get_neighbors kg v true) (n - 1))
    as [ls|].
  - rewrite (bind_ret_run _ _ _ _ _ Hlabels).
    destruct (label_of self (name v) (n - 1)) as [own|] eqn:Hown.
    + pose proof (label_map_getitem_some _ _ _ _ Hown) as Hget.
      by rewrite (bind_ret_run _ _ _ _ _ Hget).
    + pose proof (label_map_getitem_none _ _ _ Hown) as Hget.
      by rewrite (bind_raise_run _ _ _ _ _ Hget).
  - destruct Hlabels as (e & self' & Hrun).
    by rewrite (bind_raise_run _ _ _ _ _ Hrun).
Qed.

Lemma create_label_finishes fuel kg v n self :
  fst (_create_label (S (S (S fuel))) kg v n self) <> OutOfFuel.
Proof.
  rewrite create_label_S. unfold bind at 1. unfold label_map_len.
  destruct (Z.of_nat (size (_label_map self)) =? 0).
  - pose proof (relabel_finishes fuel kg self) as Hfin.
    destruct (_weisfeiler_lehman (S (S fuel)) kg self) as [[[]|e|] s1] eqn:Hwl.
    + rewrite (bind_ret_run _ _ _ _ _ Hwl). apply create_label_tail_finishes.
    + by rewrite (bind_raise_run _ _ _ _ _ Hwl).
    + done.
  - unfold bind at 1. unfold ret at 1. apply create_label_tail_finishes.
Qed.

(** X2. The two methods call each other at most one call deep: for every
    graph and every state of the walker a relabeling pass returns or raises
    with the depth of two calls, and a larger depth gives the same outcome
    and the same walker. *)
Theorem relabel_terminates (fuel : nat) (kg : KG) (self : WLWalker) :
  fst (_weisfeiler_lehman 2 kg self) <> OutOfFuel /\
  _weisfeiler_lehman (S (S fuel)) kg self = _weisfeiler_lehman 2 kg self.
Proof.
  split; [apply relabel_finishes|].
  destruct (_weisfeiler_lehman 2 kg self) as [o s] eqn:Hrun.
  apply (relabel_at_fuel 2 fuel kg self o s Hrun).
  pose proof (relabel_finishes 0 kg self) as Hfin. by rewrite Hrun in Hfin.
Qed.

(** X3. [_create_label] returns or raises with the depth of three calls,
    whether it finds the label table empty and relabels first or not, and a
    larger depth gives the same outcome and the same walker. *)
Theorem create_label_terminates
    (fuel : nat) (kg : KG) (v : Vertex) (n : Z) (self : WLWalker) :
  fst (_create_label 3 kg v n self) <> OutOfFuel /\
  _create_label (S (S (S fuel))) kg v n self = _create_label 3 kg v n self.
Proof.
  split; [apply create_label_finishes|].
  pose proof (create_label_finishes 0 kg v n self) as Hfin.
  destruct (_create_label 3 kg v n self) as [o s] eqn:Hrun.
  apply (proj2 (fm_relabel_le 3 (S (S (S fuel))) ltac:(lia)) kg v n self o s Hrun).
  exact Hfin.
Qed.

(** ** Stored labels after a pass over any graph *)

Lemma labels_at_Forall2 m ps k ls :
  labels_at m ps k = Some ls ->
  Forall2 (fun p l => lm_get m (name p) k = Some l) ps ls.
Proof.
  revert ls. induction ps as [|p ps IH]; intros ls; simpl.
  - intros [= <-]. constructor.
  - destruct (lm_get m (name p) k) as [l|] eqn:Hl; [|done].
    destruct (labels_at m ps k) as [ls'|]; [|done].
    intros [= <-]. constructor; [done|]. by apply IH.
Qed.

Lemma level_writes_elem m kg n vs ws key l :
  level_writes m kg n vs = Some ws -> (key, l) ∈ ws ->
  exists w s, w ∈ vs /\ key = (name w, n) /\
              pre_hash_of m kg w n = Some s /\ l = md5_digest_str s.
Proof.
  revert ws. induction vs as [|v vs IH]; intros ws; simpl.
  - intros [= <-] Hin. by apply elem_of_nil in Hin.
  - destruct (pre_hash_of m kg v n) as [s|] eqn:Hs; [|done].
    destruct (level_writes m kg n vs) as [ws'|]; [|done].
    intros [= <-] [[= -> ->]|Hin]%elem_of_cons.
    + exists v, s. repeat split; try done. left.
    + destruct (IH ws' eq_refl Hin) as (w & s' & Hw & Hkey & Hpre & Hl).
      exists w, s'. repeat split; try done. by right.
Qed.

Lemma level_writes_keys m kg n vs ws v :
  level_writes m kg n vs = Some ws -> v ∈ vs -> (name v, n) ∈ map fst ws.
Proof.
  revert ws. induction vs as [|v0 vs IH]; intros ws; simpl.
  - intros _ Hv. by apply elem_of_nil in Hv.
  - destruct (pre_hash_of m kg v0 n); [|done].
    destruct (level_writes m kg n vs) as [ws'|]; [|done].
    intros [= <-] [->|Hv]%elem_of_cons; simpl; [left|right]. by apply IH.
Qed.

(** A pass that returns has performed the writes of [levels_pure], and the
    table it leaves is settled. *)
Lemma relabel_returns_settled fuel kg self self' :
  _weisfeiler_lehman fuel kg self = (Ret tt, self') ->
  wl_iterations self' = wl_iterations self /\
  levels_pure kg (range 1 (wl_iterations self + 1))
    (apply_writes (init_writes (_vertices kg)) (_label_map self))
  = Some (_label_map self') /\
  settled kg (_label_map self') (range 1 (wl_iterations self + 1)).
Proof.
  intros Hrun.
  apply (relabel_at_fuel fuel 0 kg self) in Hrun; [|done].
  pose proof (relabel_as_writes 0 kg self) as H.
  destruct (levels_pure kg (range 1 (wl_iterations self + 1))
              (apply_writes (init_writes (_vertices kg)) (_label_map self)))
    as [m|] eqn:Hpure.
  - destruct H as (s1 & Hrun1 & Hlm & Hwl).
    rewrite Hrun in Hrun1. injection Hrun1 as <-.
    split; [done|]. rewrite Hlm. split; [done|].
    by apply (relabel_settles kg (_label_map self) (wl_iterations self)).
  - destruct H as (e & s1 & Hrun1). rewrite Hrun in Hrun1. discriminate.
Qed.

(** On a settled table the label of a name at a settled level is the digest
    of the pre-hash string of a vertex of that name. *)
Lemma settled_level kg m levels v n :
  settled kg m levels -> n ∈ levels -> v ∈ _vertices kg ->
  exists w own labels,
    w ∈ _vertices kg /\ name w = name v /\
    lm_get m (name w) (n - 1) = Some own /\
    Forall2 (fun p l => lm_get m (name p) (n - 1) = Some l)
      (predecessors kg w) labels /\
    lm_get m (name v) n = Some (md5_digest_str (pre_hash own labels)).
Proof.
  intros [_ Hlevels] Hn Hv.
  destruct (Hlevels n Hn) as (ws & Hws & Hlast).
  destruct (last_write_is_Some ws (name v, n)) as [l Hl].
  { by apply (level_writes_keys m kg n (_vertices kg)). }
  pose proof (Hlast (name v, n) l Hl) as Hget. simpl in Hget.
  apply last_write_Some_elem in Hl.
  destruct (level_writes_elem m kg n _ ws _ l Hws Hl)
    as (w & s & Hw & [= Hname] & Hpre & ->).
  unfold pre_hash_of in Hpre.
  destruct (labels_at m (predecessors kg w) (n - 1)) as [labels|] eqn:Hlabels;
    [|done].
  destruct (lm_get m (name w) (n - 1)) as [own|] eqn:Hown; [|done].
  injection Hpre as <-.
  exists w, own, labels. repeat split; try done.
  by apply labels_at_Forall2.
Qed.

(** X4. For every graph, also one with repeated names or with predecessors
    outside its vertex set, and every state of the walker: when a relabeling
    pass returns, the label stored at level 0 under the name of a vertex is
    the name, and the label stored at a level [n] from 1 to [L] is the MD5
    digest string of the pre-hash string of a vertex of that name, built
    from the labels stored at level [n - 1] for that vertex and for its
    predecessors.  The iteration count is unchanged. *)
Theorem relabel_stores_hash_any_graph
    (fuel : nat) (kg : KG) (self self' : WLWalker) :
  _weisfeiler_lehman fuel kg self = (Ret tt, self') ->
  wl_iterations self' = wl_iterations self /\
  (forall v, v ∈ _vertices kg -> label_of self' (name v) 0 = Some (name v)) /\
  forall v n,
    v ∈ _vertices kg -> 1 <= n <= wl_iterations self ->
    exists w own labels,
      w ∈ _vertices kg /\ name w = name v /\
      label_of self' (name w) (n - 1) = Some own /\
      Forall2 (fun p l => label_of self' (name p) (n - 1) = Some l)
        (predecessors kg w) labels /\
      label_of self' (name v) n =
        Some (md5_digest_str (own ++ "-" ++ join "-" (sorted_set labels))).
Proof.
  intros Hrun.
  destruct (relabel_returns_settled fuel kg self self' Hrun)
    as (Hwl & _ & Hsettled).
  split; [done|]. split.
  - intros v Hv. by apply (proj1 Hsettled).
  - intros v n Hv Hn.
    apply (settled_level kg _ (range 1 (wl_iterations self + 1)));
      [done| |done].
    apply elem_of_range. lia.
Qed.

Lemma relabel_stores_hash_any_graph_witness :
  wl_iterations (snd (_weisfeiler_lehman 2 kg_dup (fresh 1)))
    = wl_iterations (fresh 1) /\
  (forall v, v ∈ _vertices kg_dup ->
     label_of (snd (_weisfeiler_lehman 2 kg_dup (fresh 1))) (name v) 0
       = Some (name v)) /\
  forall v n,
    v ∈ _vertices kg_dup -> 1 <= n <= wl_iterations (fresh 1) ->
    exists w own labels,
      w ∈ _vertices kg_dup /\ name w = name v /\
      label_of (snd (_weisfeiler_lehman 2 kg_dup (fresh 1))) (name w) (n - 1)
        = Some own /\
      Forall2 (fun p l =>
                 label_of (snd (_weisfeiler_lehman 2 kg_dup (fresh 1)))
                   (name p) (n - 1) = Some l)
        (predecessors kg_dup w) labels /\
      label_of (snd (_weisfeiler_lehman 2 kg_dup (fresh 1))) (name v) n =
        Some (md5_digest_str (own ++ "-" ++ join "-" (sorted_set labels))).
Proof.
  apply (relabel_stores_hash_any_graph 2 kg_dup (fresh 1)).
  vm_compute. reflexivity.
Defined.

(** ** Edge cases of a pass *)

Lemma for_ret {A} (l : list A) (body : A -> M unit) self :
  (forall x s, body x s = (Ret tt, s)) -> for_ l body self = (Ret tt, self).
Proof.
  intros Hbody. induction l as [|x l IH]; simpl; [done|].
  by rewrite (bind_ret_run _ _ _ _ _ (Hbody x self)).
Qed.

(** X5. A relabeling pass over a graph without vertices returns and leaves
    the walker exactly as it was, whatever the iteration count. *)
Theorem relabel_empty_graph (fuel : nat) (kg : KG) (self : WLWalker) :
  _vertices kg = [] ->
  _weisfeiler_lehman (S fuel) kg self = (Ret tt, self).
Proof.
  intros HV. rewrite weisfeiler_lehman_S, HV. cbn [for_].
  unfold bind at 1. unfold ret at 1.
  rewrite bind_get_wl_iterations.
  by rewrite (bind_ret_run _ _ _ _ _
                (for_ret (range 1 (wl_iterations self + 1)) _ self
                   (fun n s => eq_refl))).
Qed.

Lemma relabel_empty_graph_witness :
  _weisfeiler_lehman 1 kg_empty relabelled_abc = (Ret tt, relabelled_abc).
Proof. apply (relabel_empty_graph 0 kg_empty relabelled_abc). reflexivity. Defined.

(** X6. With an iteration count of 0 or below, a relabeling pass returns for
    every graph, also one with predecessors outside its vertex set: it
    stores the name of every vertex as its label of level 0 and leaves every
    other label as it was. *)
Theorem relabel_without_iterations (fuel : nat) (kg : KG) (self : WLWalker) :
  wl_iterations self <= 0 ->
  exists self',
    _weisfeiler_lehman (S (S fuel)) kg self = (Ret tt, self') /\
    wl_iterations self' = wl_iterations self /\
    (forall v, v ∈ _vertices kg -> label_of self' (name v) 0 = Some (name v)) /\
    (forall x n, n <> 0 \/ x ∉ kg_names kg ->
                 label_of self' x n = label_of self x n).
Proof.
  intros HL. pose proof (relabel_as_writes fuel kg self) as H.
  rewrite range_nil in H by lia. simpl in H.
  destruct H as (self' & Hrun & Hlm & Hwl).
  exists self'. split; [done|]. split; [done|].
  assert (Hget : forall x n,
            label_of self' x n =
            lm_get (apply_writes (init_writes (_vertices kg)) (_label_map self))
              x n).
  { intros x n. unfold label_of. by rewrite Hlm. }
  split.
  - intros v Hv. by rewrite Hget, lm_get_apply_writes, last_write_init.
  - intros x n Hxn. rewrite Hget, lm_get_apply_writes.
    destruct (last_write (init_writes (_vertices kg)) (x, n)) as [l|] eqn:Hl;
      [|done].
    apply last_write_init_inv in Hl as (v & Hv & [= -> ->] & _).
    destruct Hxn as [Hn|Hx]; [done|].
    exfalso. apply Hx, elem_of_map_name. eauto.
Qed.

Lemma relabel_without_iterations_witness :
  exists self',
    _weisfeiler_lehman 2 kg_dangling (fresh 0) = (Ret tt, self') /\
    wl_iterations self' = wl_iterations (fresh 0) /\
    (forall v, v ∈ _vertices kg_dangling ->
               label_of self' (name v) 0 = Some (name v)) /\
    (forall x n, n <> 0 \/ x ∉ kg_names kg_dangling ->
                 label_of self' x n = label_of (fresh 0) x n).
Proof. apply (relabel_without_iterations 0 kg_dangling (fresh 0)). done. Defined.

(** ** A predecessor without a label *)

Lemma ro_create_label_tail L kg v n :
  raises_only L (fun k => k = n - 1)
    (do labels <- comprehension
                    (fun neighbor => label_map_getitem (name neighbor) (n - 1))
                    (get_neighbors kg v true);
     do own <- label_map_getitem (name v) (n - 1);
     ret (own ++ "-" ++ join "-" (sorted_set labels))%string).
Proof.
  apply ro_bind.
  { apply ro_comprehension. intros p. apply ro_label_map_getitem. }
  intros labels. apply ro_bind; [apply ro_label_map_getitem|].
  intros own. apply ro_ret.
Qed.

(** On a table that is not empty, the error of [_create_label] is the
    [KeyError] of the level it reads. *)
Lemma create_label_raise fuel kg v n self e self' :
  _label_map self <> ∅ ->
  _create_label (S fuel) kg v n self = (Raise e, self') ->
  e = KeyError (AInt (n - 1)).
Proof.
  intros Hne. rewrite (create_label_nonempty fuel kg v n self Hne). intros Hrun.
  destruct (ro_create_label_tail (wl_iterations self) kg v n self _ self'
              eq_refl Hrun) as [_ Hraise].
  by destruct (Hraise e eq_refl) as (k & -> & ->).
Qed.

Lemma level_pass_raise fuel kg n vs :
  forall self e self',
    _label_map self <> ∅ ->
    for_ vs (fun vertex =>
      do label <- _create_label (S fuel) kg vertex n;
      label_map_setitem (name vertex) n (md5_digest_str label)) self
    = (Raise e, self') ->
    e = KeyError (AInt (n - 1)).
Proof.
  induction vs as [|v vs IH]; intros self e self' Hne; [done|].
  cbn [for_].
  destruct (_create_label (S fuel) kg v n self) as [[l|e0|] s1] eqn:Hcl.
  - pose proof (create_label_pure fuel kg v n self Hne) as Hpure.
    destruct (pre_hash_of (_label_map self) kg v n) as [l'|].
    + rewrite Hpure in Hcl. injection Hcl as <- <-.
      assert (Hbody :
        (do label <- _create_label (S fuel) kg v n;
         label_map_setitem (name v) n (md5_digest_str label)) self
        = (Ret tt,
           set_label_map
             (lm_set (name v) n (md5_digest_str l') (_label_map self)) self)).
      { rewrite (bind_ret_run _ _ _ _ _ Hpure). apply label_map_setitem_run. }
      rewrite (bind_ret_run _ _ _ _ _ Hbody). apply IH.
      rewrite label_map_set. apply insert_non_empty.
    + destruct Hpure as (e1 & s2 & Hpure). rewrite Hpure in Hcl. discriminate.
  - pose proof (create_label_raise fuel kg v n self e0 s1 Hne Hcl) as ->.
    rewrite (bind_raise_run _ _ _ _ _ (bind_raise_run _ _ _ _ _ Hcl)).
    by intros [= <- _].
  - unfold bind at 1. unfold bind at 1. rewrite Hcl. discriminate.
Qed.

Lemma labels_at_None m ps k p :
  p ∈ ps -> lm_get m (name p) k = None -> labels_at m ps k = None.
Proof.
  induction ps as [|q ps IH]; intros Hp Hget; [by apply elem_of_nil in Hp|].
  simpl. apply elem_of_cons in Hp as [<-|Hp].
  - by rewrite Hget.
  - rewrite (IH Hp Hget). by destruct (lm_get m (name q) k).
Qed.

Lemma level_writes_None m kg n vs v :
  v ∈ vs -> pre_hash_of m kg v n = None -> level_writes m kg n vs = None.
Proof.
  induction vs as [|w vs IH]; intros Hv Hpre; [by apply elem_of_nil in Hv|].
  simpl. apply elem_of_cons in Hv as [<-|Hv].
  - by rewrite Hpre.
  - rewrite (IH Hv Hpre). by destruct (pre_hash_of m kg w n).
Qed.

(** X7. When the iteration count is 1 or more and a vertex of the graph has
    a predecessor whose name is not the name of a vertex of the graph and
    has no stored label of level 0, a relabeling pass raises [KeyError] with
    the key 0, whatever else the graph and the tables hold. *)
Theorem relabel_dangling_predecessor
    (fuel : nat) (kg : KG) (self : WLWalker) (v p : Vertex) :
  1 <= wl_iterations self ->
  v ∈ _vertices kg -> p ∈ predecessors kg v ->
  name p ∉ kg_names kg -> label_of self (name p) 0 = None ->
  exists self',
    _weisfeiler_lehman (S (S fuel)) kg self = (Raise (KeyError (AInt 0)), self').
Proof.
  intros HL Hv Hp Hname Hlabel. rewrite weisfeiler_lehman_S.
  destruct (init_loop_writes (_vertices kg) self) as (s0 & Hrun0 & Hwl0 & Hlm0).
  rewrite (bind_ret_run _ _ _ _ _ Hrun0), bind_get_wl_iterations, Hwl0.
  rewrite range_cons by lia. cbn [for_].
  assert (Hne : _label_map s0 <> ∅).
  { intros Hempty.
    assert (Hv0 : lm_get (_label_map s0) (name v) 0 = Some (name v))
      by (by rewrite Hlm0, lm_get_apply_writes, last_write_init).
    unfold lm_get in Hv0. by rewrite Hempty, lookup_empty in Hv0. }
  assert (Hp0 : lm_get (_label_map s0) (name p) (1 - 1) = None).
  { rewrite Hlm0, lm_get_apply_writes.
    destruct (last_write (init_writes (_vertices kg)) (name p, 1 - 1))
      as [l|] eqn:Hl; [|exact Hlabel].
    apply last_write_init_inv in Hl as (w & Hw & [= Hpw] & _).
    exfalso. apply Hname, elem_of_map_name. eauto. }
  assert (Hnone : level_writes (_label_map s0) kg 1 (_vertices kg) = None).
  { apply (level_writes_None _ kg 1 _ v Hv). unfold pre_hash_of.
    by rewrite (labels_at_None _ _ _ p Hp Hp0). }
  pose proof (level_pass_writes fuel kg 1 (_vertices kg) s0 (_label_map s0)
                Hne (fun _ => eq_refl)) as Hpass.
  rewrite Hnone in Hpass. destruct Hpass as (e & self' & Hrun).
  pose proof (level_pass_raise fuel kg 1 (_vertices kg) s0 e self' Hne Hrun)
    as ->.
  exists self'. apply bind_raise_run, bind_raise_run, Hrun.
Qed.

Lemma relabel_dangling_predecessor_witness :
  exists self',
    _weisfeiler_lehman 2 kg_dangling (fresh 1)
    = (Raise (KeyError (AInt 0)), self').
Proof.
  apply (relabel_dangling_predecessor 0 kg_dangling (fresh 1) vB vA).
  - simpl. lia.
  - apply (bool_decide_unpack _). vm_compute. exact I.
  - apply (bool_decide_unpack _). vm_compute. exact I.
  - apply (bool_decide_unpack _). vm_compute. exact I.
  - reflexivity.
Defined.

(** ** What the lookups leave alone *)

Lemma same_labels_refl self : same_labels self self.
Proof. by repeat split. Qed.

Lemma same_labels_trans s1 s2 s3 :
  same_labels s1 s2 -> same_labels s2 s3 -> same_labels s1 s3.
Proof.
  intros (Hwl & Him & Hlab & Hrow) (Hwl' & Him' & Hlab' & Hrow').
  repeat split.
  - by rewrite Hwl'.
  - by rewrite Him'.
  - intros x n. by rewrite Hlab'.
  - intros x Hx. rewrite <- (Hrow x Hx). apply Hrow'. by rewrite (Hrow x Hx).
Qed.

Lemma kl_ret {A} (a : A) : keeps_labels (ret a).
Proof. intros self o self' [= <- <-]. apply same_labels_refl. Qed.

Lemma kl_bind {A B} (m : M A) (k : A -> M B) :
  keeps_labels m -> (forall a, keeps_labels (k a)) -> keeps_labels (bind m k).
Proof.
  intros Hm Hk self o self'. unfold bind.
  destruct (m self) as [[a|e|] s1] eqn:E; pose proof (Hm self _ s1 E) as H1.
  - intros Hrun. apply (same_labels_trans _ s1); [done|]. by apply (Hk a s1 o).
  - by intros [= <- <-].
  - by intros [= <- <-].
Qed.

Lemma kl_label_map_row x : keeps_labels (label_map_row x).
Proof.
  intros self o self'. unfold label_map_row.
  destruct (_label_map self !! x) as [d|] eqn:Hx; intros [= <- <-].
  - apply same_labels_refl.
  - repeat split.
    + intros y n. unfold label_of. simpl.
      destruct (decide (x = y)) as [<-|Hne].
      * by rewrite lookup_insert_eq, Hx.
      * by rewrite lookup_insert_ne.
    + intros y Hy. simpl. rewrite lookup_insert_ne; [done|].
      intros <-. rewrite Hx in Hy. by destruct Hy.
Qed.

Lemma kl_label_map_getitem x n : keeps_labels (label_map_getitem x n).
Proof.
  unfold label_map_getitem. apply kl_bind; [apply kl_label_map_row|].
  intros d. destruct (dict_get n d); [apply kl_ret|].
  intros self o self' [= <- <-]. apply same_labels_refl.
Qed.

Lemma kl_comprehension {A B} (f : A -> M B) (l : list A) :
  (forall x, keeps_labels (f x)) -> keeps_labels (comprehension f l).
Proof.
  intros Hf. induction l as [|x l IH]; simpl.
  - apply kl_ret.
  - apply kl_bind; [apply Hf|]. intros y.
    apply kl_bind; [apply IH|]. intros ys. apply kl_ret.
Qed.

Lemma kl_create_label_tail kg v n :
  keeps_labels
    (do labels <- comprehension
                    (fun neighbor => label_map_getitem (name neighbor) (n - 1))
                    (get_neighbors kg v true);
     do own <- label_map_getitem (name v) (n - 1);
     ret (own ++ "-" ++ join "-" (sorted_set labels))%string).
Proof.
  apply kl_bind.
  { apply kl_comprehension. intros p. apply kl_label_map_getitem. }
  intros labels. apply kl_bind; [apply kl_label_map_getitem|].
  intros own. apply kl_ret.
Qed.

(** A dict none of whose levels holds a label is empty. *)
Lemma dict_get_all_None {K V} `{EqDecision K} (d : list (K * V)) :
  (forall k, dict_get k d = None) -> d = [].
Proof.
  destruct d as [|[k v] d]; [done|]. intros H. specialize (H k).
  simpl in H. by rewrite decide_True in H.
Qed.

(** X8. On a label table that is not empty, [_create_label] does not
    relabel: it reads the labels of level [n - 1] of the vertex and of its
    predecessors.  When one of them is missing, as for [n = 0], it raises
    [KeyError] with the key [n - 1], and it leaves the iteration count, the
    inverse table, every stored label and every dict of the label table as
    they were. *)
Theorem create_label_missing_label
    (fuel : nat) (kg : KG) (v p : Vertex) (n : Z) (self : WLWalker) :
  _label_map self <> ∅ ->
  p = v \/ p ∈ predecessors kg v ->
  label_of self (name p) (n - 1) = None ->
  exists self',
    _create_label (S fuel) kg v n self = (Raise (KeyError (AInt (n - 1))), self') /\
    wl_iterations self' = wl_iterations self /\
    _inv_label_map self' = _inv_label_map self /\
    (forall x k, label_of self' x k = label_of self x k) /\
    (forall x, is_Some (_label_map self !! x) ->
               _label_map self' !! x = _label_map self !! x).
Proof.
  intros Hne Hp Hlabel.
  pose proof (create_label_pure fuel kg v n self Hne) as Hpure.
  assert (Hnone : pre_hash_of (_label_map self) kg v n = None).
  { unfold pre_hash_of. destruct Hp as [->|Hp].
    - change (lm_get (_label_map self) (name v) (n - 1)) with
        (label_of self (name v) (n - 1)).
      rewrite Hlabel. by destruct (labels_at _ _ _).
    - by rewrite (labels_at_None _ _ _ p Hp Hlabel). }
  rewrite Hnone in Hpure. destruct Hpure as (e & self' & Hrun).
  pose proof (create_label_raise fuel kg v n self e self' Hne Hrun) as ->.
  exists self'. split; [done|].
  rewrite (create_label_nonempty fuel kg v n self Hne) in Hrun.
  exact (kl_create_label_tail kg v n self _ self' Hrun).
Qed.

Lemma create_label_missing_label_witness :
  exists self',
    _create_label 1 kg_abc vB 0 relabelled_abc
    = (Raise (KeyError (AInt (0 - 1))), self') /\
    wl_iterations self' = wl_iterations relabelled_abc /\
    _inv_label_map self' = _inv_label_map relabelled_abc /\
    (forall x k, label_of self' x k = label_of relabelled_abc x k) /\
    (forall x, is_Some (_label_map relabelled_abc !! x) ->
               _label_map self' !! x = _label_map relabelled_abc !! x).
Proof.
  apply (create_label_missing_label 0 kg_abc vB vA 0 relabelled_abc).
  - apply (bool_decide_unpack _). vm_compute. exact I.
  - right. apply (bool_decide_unpack _). vm_compute. exact I.
  - vm_compute. reflexivity.
Defined.

Lemma labels_at_of_Forall2 m ps k ls :
  Forall2 (fun p l => lm_get m (name p) k = Some l) ps ls ->
  labels_at m ps k = Some ls.
Proof.
  induction 1 as [|p l ps ls Hl _ IH]; simpl; [done|]. by rewrite Hl, IH.
Qed.

(** X9. On a label table that is not empty and holds the labels of level
    [n - 1] of the vertex and of its predecessors, [_create_label] returns
    the label of the vertex, a hyphen, and the labels of the predecessors
    without repetition, sorted and joined by hyphens; it does not relabel
    and leaves the walker exactly as it was. *)
Theorem create_label_returns
    (fuel : nat) (kg : KG) (v : Vertex) (n : Z) (self : WLWalker)
    (own : string) (labels : list string) :
  _label_map self <> ∅ ->
  label_of self (name v) (n - 1) = Some own ->
  Forall2 (fun p l => label_of self (name p) (n - 1) = Some l)
    (predecessors kg v) labels ->
  _create_label (S fuel) kg v n self =
  (Ret (own ++ "-" ++ join "-" (sorted_set labels))%string, self).
Proof.
  intros Hne Hown Hlabels.
  pose proof (create_label_pure fuel kg v n self Hne) as Hpure.
  unfold pre_hash_of in Hpure.
  rewrite (labels_at_of_Forall2 _ _ _ labels Hlabels) in Hpure.
  change (lm_get (_label_map self) (name v) (n - 1)) with
    (label_of self (name v) (n - 1)) in Hpure.
  by rewrite Hown in Hpure.
Qed.

Lemma create_label_returns_witness :
  _create_label 1 kg_abc vB 1 relabelled_abc =
  (Ret ("B" ++ "-" ++ join "-" (sorted_set ["A"]))%string, relabelled_abc).
Proof.
  apply (create_label_returns 0 kg_abc vB 1 relabelled_abc "B" ["A"]).
  - apply (bool_decide_unpack _). vm_compute. exact I.
  - vm_compute. reflexivity.
  - repeat constructor.
Defined.

Lemma level_writes_Some_all m kg n vs ws v :
  level_writes m kg n vs = Some ws -> v ∈ vs -> is_Some (pre_hash_of m kg v n).
Proof.
  revert ws. induction vs as [|w vs IH]; intros ws; simpl.
  - intros _ Hv. by apply elem_of_nil in Hv.
  - destruct (pre_hash_of m kg w n) as [s|] eqn:Hs; [|done].
    destruct (level_writes m kg n vs) as [ws'|]; [|done].
    intros _ [->|Hv]%elem_of_cons; [by rewrite Hs|]. by apply (IH ws').
Qed.

(** X10. The test of line 57: on an empty label table [_create_label] runs
    a relabeling pass first.  When that pass returns, [_create_label]
    returns for every vertex of the graph and every level [n] from 1 to [L]
    the pre-hash string built from the labels of level [n - 1] that the pass
    stored, and leaves the walker as the pass left it. *)
Theorem create_label_relabels_empty_table
    (fuel : nat) (kg : KG) (v : Vertex) (n : Z) (self self' : WLWalker) :
  _label_map self = ∅ ->
  v ∈ _vertices kg -> 1 <= n <= wl_iterations self ->
  _weisfeiler_lehman (S (S fuel)) kg self = (Ret tt, self') ->
  exists own labels,
    label_of self' (name v) (n - 1) = Some own /\
    Forall2 (fun p l => label_of self' (name p) (n - 1) = Some l)
      (predecessors kg v) labels /\
    _create_label (S (S (S fuel))) kg v n self =
    (Ret (own ++ "-" ++ join "-" (sorted_set labels))%string, self').
Proof.
  intros Hempty Hv Hn Hrun.
  destruct (relabel_returns_settled _ kg self self' Hrun)
    as (_ & _ & _ & Hlevels).
  destruct (Hlevels n) as (ws & Hws & _); [apply elem_of_range; lia|].
  destruct (level_writes_Some_all _ kg n _ ws v Hws Hv) as [s Hs].
  unfold pre_hash_of in Hs.
  destruct (labels_at (_label_map self') (predecessors kg v) (n - 1))
    as [labels|] eqn:Hlabels; [|done].
  destruct (lm_get (_label_map self') (name v) (n - 1)) as [own|] eqn:Hown;
    [|done].
  exists own, labels. split; [done|].
  split; [by apply labels_at_Forall2|].
  rewrite create_label_S. unfold bind at 1. unfold label_map_len.
  rewrite Hempty, map_size_empty. simpl.
  rewrite (bind_ret_run _ _ _ _ _ Hrun).
  pose proof (labels_at_run (get_neighbors kg v true) (n - 1) self') as Hcomp.
  unfold predecessors in Hlabels. rewrite Hlabels in Hcomp.
  rewrite (bind_ret_run _ _ _ _ _ Hcomp).
  pose proof (label_map_getitem_some _ _ _ _ Hown) as Hget.
  by rewrite (bind_ret_run _ _ _ _ _ Hget).
Qed.

Lemma create_label_relabels_empty_table_witness :
  exists own labels,
    label_of relabelled_abc (name vB) (1 - 1) = Some own /\
    Forall2 (fun p l => label_of relabelled_abc (name p) (1 - 1) = Some l)
      (predecessors kg_abc vB) labels /\
    _create_label 3 kg_abc vB 1 (fresh 1) =
    (Ret (own ++ "-" ++ join "-" (sorted_set labels))%string, relabelled_abc).
Proof.
  apply (create_label_relabels_empty_table 0 kg_abc vB 1 (fresh 1)
           relabelled_abc).
  - reflexivity.
  - apply (bool_decide_unpack _). vm_compute. exact I.
  - simpl. lia.
  - vm_compute. reflexivity.
Defined.

(** ** What [_extract] leaves alone and when it raises *)

Lemma kl_canonical_hops n hops : forall acc, keeps_labels (canonical_hops n hops acc).
Proof.
  induction hops as [|[i hop] hops IH]; intros acc; simpl.
  - apply kl_ret.
  - destruct ((i =? 0) || (i mod 2 =? 1)); [apply IH|].
    apply kl_bind; [apply kl_label_map_getitem|]. intros label. apply IH.
Qed.

Lemma kl_extract_walks_loop n walks :
  forall cws, keeps_labels (extract_walks_loop n walks cws).
Proof.
  induction walks as [|w walks IH]; intros cws; simpl.
  - apply kl_ret.
  - apply kl_bind; [apply kl_canonical_hops|]. intros cw. apply IH.
Qed.

Lemma kl_extract_levels_loop levels walks :
  forall cws, keeps_labels (extract_levels_loop levels walks cws).
Proof.
  induction levels as [|n levels IH]; intros cws; simpl.
  - apply kl_ret.
  - apply kl_bind; [apply kl_extract_walks_loop|]. intros cws'. apply IH.
Qed.

Lemma kl_extract extract_walks kg instance :
  keeps_labels (_extract extract_walks kg instance).
Proof.
  unfold _extract. apply kl_bind.
  { intros self o self' [= <- <-]. apply same_labels_refl. }
  intros iterations. apply kl_bind; [apply kl_extract_levels_loop|].
  intros cws. apply kl_ret.
Qed.

(** X11. Whatever its outcome, [_extract] leaves the iteration count, the
    inverse table and every stored label as they were; the only change it
    can make to the label table is an empty dict under a name that had none,
    and when it returns it has changed nothing at all. *)
Theorem extract_keeps_labels
    (extract_walks : KG -> Vertex -> list (list Vertex))
    (kg : KG) (instance : Vertex) (self self' : WLWalker)
    (o : outcome (gmap string (list (list string)))) :
  _extract extract_walks kg instance self = (o, self') ->
  wl_iterations self' = wl_iterations self /\
  _inv_label_map self' = _inv_label_map self /\
  (forall x n, label_of self' x n = label_of self x n) /\
  (forall x d, _label_map self' !! x = Some d ->
     _label_map self !! x = Some d \/ (_label_map self !! x = None /\ d = [])) /\
  (forall r, o = Ret r -> self' = self).
Proof.
  intros Hrun.
  destruct (kl_extract extract_walks kg instance self o self' Hrun)
    as (Hwl & Him & Hlab & Hrow).
  split; [done|]. split; [done|]. split; [done|]. split.
  - intros x d Hd. destruct (_label_map self !! x) as [d0|] eqn:Hx.
    + left. pose proof (Hrow x ltac:(by rewrite Hx)) as Hr. congruence.
    + right. split; [done|]. apply dict_get_all_None. intros k.
      specialize (Hlab x k). unfold label_of in Hlab.
      by rewrite Hd, Hx in Hlab.
  - intros r ->.
    destruct (decide (levels_present self (range 0 (wl_iterations self + 1))
                        (extract_walks kg instance))) as [Hp|Hp].
    + rewrite (extract_ok extract_walks kg instance self Hp) in Hrun.
      by injection Hrun.
    + destruct (extract_absent extract_walks kg instance self Hp)
        as (k & s & Habs).
      rewrite Habs in Hrun. discriminate.
Qed.

Lemma extract_keeps_labels_witness :
  wl_iterations (snd (_extract sample_abc kg_abc vA (fresh 1)))
    = wl_iterations (fresh 1) /\
  _inv_label_map (snd (_extract sample_abc kg_abc vA (fresh 1)))
    = _inv_label_map (fresh 1) /\
  (forall x n,
     label_of (snd (_extract sample_abc kg_abc vA (fresh 1))) x n
     = label_of (fresh 1) x n) /\
  (forall x d,
     _label_map (snd (_extract sample_abc kg_abc vA (fresh 1))) !! x = Some d ->
     _label_map (fresh 1) !! x = Some d \/
     (_label_map (fresh 1) !! x = None /\ d = [])) /\
  (forall r, fst (_extract sample_abc kg_abc vA (fresh 1)) = Ret r ->
             snd (_extract sample_abc kg_abc vA (fresh 1)) = fresh 1).
Proof.
  apply (extract_keeps_labels sample_abc kg_abc vA (fresh 1)).
  vm_compute. reflexivity.
Defined.

Lemma extract_levels_loop_raise levels walks :
  forall cws self e self',
    extract_levels_loop levels walks cws self = (Raise e, self') ->
    exists n, n ∈ levels /\ e = KeyError (AInt n) /\
              ~ walks_present self n walks.
Proof.
  induction levels as [|n levels IH]; intros cws self e self'; simpl; [done|].
  destruct (decide (walks_present self n walks)) as [Hn|Hn].
  - rewrite (bind_ret_run _ _ _ _ _ (extract_walks_loop_ok n walks cws self Hn)).
    intros (n' & Hn' & He & Hp)%IH. exists n'. split; [by right|done].
  - destruct (extract_walks_loop_absent n walks cws self Hn) as (s & Hrun).
    rewrite (bind_raise_run _ _ _ _ _ Hrun). intros [= <- _].
    exists n. split; [left|done].
Qed.

Lemma walks_absent_hop self n walks :
  ~ walks_present self n walks ->
  exists walk (i : nat) hop,
    walk ∈ walks /\ walk !! i = Some hop /\ i <> O /\ (i mod 2 = 0)%nat /\
    label_of self (name hop) n = None.
Proof.
  intros Hp. unfold walks_present in Hp.
  apply not_Forall_Exists in Hp; [|apply _].
  apply Exists_exists in Hp as (walk & Hwalk & Hhops). simpl in Hhops.
  unfold hops_present in Hhops.
  apply not_Forall_Exists in Hhops; [|apply _].
  apply Exists_exists in Hhops as ([z hop] & Hin & Hnone). simpl in Hnone.
  apply list_elem_of_lookup_1 in Hin as [i Hi].
  rewrite enumerate_lookup in Hi.
  destruct (walk !! i) as [hop'|] eqn:Hhop; [|done].
  injection Hi as <- <-.
  exists walk, i, hop'. split; [done|]. split; [done|].
  destruct (decide (i = O \/ (i mod 2 = 1)%nat)) as [Hid|Hlab].
  - exfalso. apply Hnone. by rewrite canonical_hop_identity.
  - pose proof (Nat.mod_upper_bound i 2 ltac:(lia)).
    split; [lia|]. split; [lia|].
    rewrite canonical_hop_label in Hnone by lia.
    destruct (label_of self (name hop') n); [|done].
    exfalso. by apply Hnone.
Qed.

(** X12. [_extract] raises only for a missing label: when it raises, the
    exception is [KeyError] with a level [n] from 0 to [L] as its key, and
    some sampled walk has, at an even position above 0, a hop without a
    stored label of level [n]. *)
Theorem extract_raises_missing_label
    (extract_walks : KG -> Vertex -> list (list Vertex))
    (kg : KG) (instance : Vertex) (self self' : WLWalker) (e : exn) :
  _extract extract_walks kg instance self = (Raise e, self') ->
  exists n walk (i : nat) hop,
    e = KeyError (AInt n) /\ 0 <= n <= wl_iterations self /\
    walk ∈ extract_walks kg instance /\ walk !! i = Some hop /\
    i <> O /\ (i mod 2 = 0)%nat /\
    label_of self (name hop) n = None.
Proof.
  unfold _extract. rewrite bind_get_wl_iterations. unfold bind at 1.
  destruct (extract_levels_loop (range 0 (wl_iterations self + 1))
              (extract_walks kg instance) ∅ self) as [[cws|e0|] s1] eqn:Hloop;
    [done| |done].
  intros [= <- _].
  apply extract_levels_loop_raise in Hloop as (n & Hn%elem_of_range & -> & Hp).
  apply walks_absent_hop in Hp as (walk & i & hop & Hw & Hi & Hi0 & Heven & Hl).
  exists n, walk, i, hop. repeat split; try done; lia.
Qed.

Lemma extract_raises_missing_label_witness :
  exists n walk (i : nat) hop,
    KeyError (AInt 0) = KeyError (AInt n) /\ 0 <= n <= wl_iterations (fresh 1) /\
    walk ∈ sample_abc kg_abc vA /\ walk !! i = Some hop /\
    i <> O /\ (i mod 2 = 0)%nat /\
    label_of (fresh 1) (name hop) n = None.
Proof.
  apply (extract_raises_missing_label sample_abc kg_abc vA (fresh 1)
           (snd (_extract sample_abc kg_abc vA (fresh 1)))).
  vm_compute. reflexivity.
Defined.

(** ** The size of the result of [_extract] *)

Lemma all_canonical_length self levels walks :
  length (all_canonical self levels walks) = (length levels * length walks)%nat.
Proof.
  unfold all_canonical. induction levels as [|n levels IH]; simpl; [done|].
  by rewrite length_app, length_map, IH.
Qed.

Lemma size_list_to_set_le (l : list (list string)) :
  (size (list_to_set l : gset (list string)) <= length l)%nat.
Proof.
  induction l as [|x l IH].
  - change (size (∅ : gset (list string)) <= 0)%nat. by rewrite size_empty.
  - cbn [list_to_set foldr length]. rewrite size_union_alt, size_singleton.
    assert (Hsub : (list_to_set l : gset (list string)) ∖ {[x]} ⊆ list_to_set l)
      by (by intros y [Hy _]%elem_of_difference).
    apply subseteq_size in Hsub. lia.
Qed.

(** Whenever [_extract] returns, every label it needs is stored. *)
Lemma extract_returns_present extract_walks kg instance self r self' :
  _extract extract_walks kg instance self = (Ret r, self') ->
  levels_present self (range 0 (wl_iterations self + 1))
    (extract_walks kg instance).
Proof.
  intros Hrun.
  destruct (decide (levels_present self (range 0 (wl_iterations self + 1))
                      (extract_walks kg instance))) as [Hp|Hp]; [done|].
  destruct (extract_absent extract_walks kg instance self Hp) as (k & s & Habs).
  rewrite Habs in Hrun. discriminate.
Qed.

(** X13. With an iteration count below 0, or when the sampler gives no
    walk, [_extract] returns the empty tuple under the name of the instance
    without a lookup: it returns on every walker and leaves it as it was. *)
Theorem extract_nothing_to_walk
    (extract_walks : KG -> Vertex -> list (list Vertex))
    (kg : KG) (instance : Vertex) (self : WLWalker) :
  wl_iterations self < 0 \/ extract_walks kg instance = [] ->
  _extract extract_walks kg instance self
  = (Ret {[ name instance := [] ]}, self).
Proof.
  intros Hcase.
  assert (Hnil : all_canonical self (range 0 (wl_iterations self + 1))
                   (extract_walks kg instance) = []).
  { apply length_zero_iff_nil. rewrite all_canonical_length.
    destruct Hcase as [HL| ->]; [rewrite range_nil by lia; done | simpl; lia]. }
  rewrite extract_ok.
  - rewrite Hnil. simpl. by rewrite elements_empty.
  - destruct Hcase as [HL| ->].
    + rewrite range_nil by lia. constructor.
    + apply Forall_forall. intros n _. constructor.
Qed.

Lemma extract_nothing_to_walk_witness :
  _extract sample_abc kg_abc vA (fresh (-1))
  = (Ret {[ name vA := [] ]}, fresh (-1)).
Proof.
  apply (extract_nothing_to_walk sample_abc kg_abc vA (fresh (-1))).
  left. simpl. lia.
Defined.

(** X14. Whenever [_extract] returns, its result is a dict with the single
    key [instance.name]; the tuple under it has no repeated walk and at
    most one canonical walk per sampled walk and level, that is, at most the
    number of walks times [L + 1], and at least one when there is a walk and
    [L] is 0 or more. *)
Theorem extract_result_size
    (extract_walks : KG -> Vertex -> list (list Vertex))
    (kg : KG) (instance : Vertex) (self self' : WLWalker)
    (r : gmap string (list (list string))) :
  _extract extract_walks kg instance self = (Ret r, self') ->
  exists cws,
    r = {[ name instance := cws ]} /\ NoDup cws /\
    (length cws <=
     length (extract_walks kg instance) * Z.to_nat (wl_iterations self + 1))%nat /\
    (extract_walks kg instance <> [] -> 0 <= wl_iterations self -> cws <> []).
Proof.
  intros Hrun.
  pose proof (extract_returns_present _ _ _ _ _ _ Hrun) as Hp.
  rewrite (extract_ok extract_walks kg instance self Hp) in Hrun.
  injection Hrun as <- _.
  eexists. split; [done|]. split; [apply NoDup_elements|]. split.
  - etrans; [apply size_list_to_set_le|].
    rewrite all_canonical_length, range_length.
    replace (wl_iterations self + 1 - 0) with (wl_iterations self + 1) by lia.
    lia.
  - intros Hwalks HL Hnil.
    destruct (extract_walks kg instance) as [|w walks] eqn:Hw; [done|].
    assert (Hin : canonical_walk_of self 0 (enumerate w)
                  ∈ elements (list_to_set
                       (all_canonical self (range 0 (wl_iterations self + 1))
                          (w :: walks)) : gset (list string))).
    { rewrite elem_of_elements, elem_of_list_to_set, elem_of_all_canonical.
      exists 0, w. split; [apply elem_of_range; lia|]. split; [left|done]. }
    rewrite Hnil in Hin. by apply elem_of_nil in Hin.
Qed.

Lemma extract_result_size_witness :
  exists cws,
    ({[ name vA :=
          elements (list_to_set
                      (all_canonical relabelled_abc
                         (range 0 (wl_iterations relabelled_abc + 1))
                         (sample_abc kg_abc vA)) : gset (list string)) ]}
     : gmap string (list (list string)))
    = {[ name vA := cws ]} /\ NoDup cws /\
    (length cws <=
     length (sample_abc kg_abc vA)
     * Z.to_nat (wl_iterations relabelled_abc + 1))%nat /\
    (sample_abc kg_abc vA <> [] -> 0 <= wl_iterations relabelled_abc ->
     cws <> []).
Proof.
  apply (extract_result_size sample_abc kg_abc vA relabelled_abc
           relabelled_abc).
  apply extract_ok. apply (bool_decide_unpack _). vm_compute. exact I.
Defined.



(** ** The public entry point *)

(** After a pass that returns, the labels of the vertices of the graph are
    stored at the levels [0..L]. *)
Lemma relabel_labels_present fuel kg self self' v n :
  _weisfeiler_lehman fuel kg self = (Ret tt, self') ->
  v ∈ _vertices kg -> 0 <= n <= wl_iterations self ->
  is_Some (label_of self' (name v) n).
Proof.
  intros Hrun Hv Hn.
  destruct (relabel_returns_settled fuel kg self self' Hrun)
    as (_ & _ & Hsettled).
  destruct (decide (n = 0)) as [->|Hn0].
  - pose proof (proj1 Hsettled v Hv) as Hl.
    change (label_of self' (name v) 0 = Some (name v)) in Hl. by rewrite Hl.
  - destruct (settled_level kg _ (range 1 (wl_iterations self + 1)) v n Hsettled)
      as (w & own & labels & _ & _ & _ & _ & Hl); [apply elem_of_range; lia|done|].
    change (label_of self' (name v) n = Some (md5_digest_str (pre_hash own labels)))
      in Hl.
    by rewrite Hl.
Qed.

(** X16. [extract] relabels before it hands over to the base class: when
    the relabeling pass raises, [extract] raises the same exception and the
    method of the base class does not run; when the pass returns, the method
    of the base class runs on the walker that the pass left, in which the
    labels of levels [0..L] are stored for every vertex of the graph, so
    that [_extract] returns on it, and leaves it as it is, for every sampler
    whose walks stay within the vertices of the graph. *)
Theorem extract_relabels_first
    (R : Type) (super_extract : KG -> list string -> Z -> M R)
    (fuel : nat) (kg : KG) (instances : list string) (verbose : Z)
    (self : WLWalker) :
  (forall e self',
     _weisfeiler_lehman fuel kg self = (Raise e, self') ->
     extract super_extract fuel kg instances verbose self = (Raise e, self')) /\
  (forall self1,
     _weisfeiler_lehman fuel kg self = (Ret tt, self1) ->
     extract super_extract fuel kg instances verbose self
     = super_extract kg instances verbose self1 /\
     (forall v n, v ∈ _vertices kg -> 0 <= n <= wl_iterations self1 ->
                  is_Some (label_of self1 (name v) n)) /\
     forall (extract_walks : KG -> Vertex -> list (list Vertex)) instance,
       (forall walk hop, walk ∈ extract_walks kg instance -> hop ∈ walk ->
                         hop ∈ _vertices kg) ->
       exists cws,
         _extract extract_walks kg instance self1
         = (Ret {[ name instance := cws ]}, self1)).
Proof.
  split.
  - intros e self' Hrun. unfold extract. by apply bind_raise_run.
  - intros self1 Hrun.
    destruct (relabel_returns_settled fuel kg self self1 Hrun) as (Hwl & _).
    assert (Hlabels : forall v n, v ∈ _vertices kg -> 0 <= n <= wl_iterations self1 ->
                                  is_Some (label_of self1 (name v) n)).
    { intros v n Hv Hn. rewrite Hwl in Hn.
      by apply (relabel_labels_present fuel kg self). }
    split; [|split; [done|]].
    + unfold extract. by rewrite (bind_ret_run _ _ _ _ _ Hrun).
    + intros extract_walks instance Hwalks.
      destruct (extract_returns extract_walks kg instance self1)
        as (cws & Hext & _); [|by exists cws].
      apply labels_present_levels. intros n walk i hop Hn Hw Hi _ _.
      apply Hlabels; [|done].
      apply (Hwalks walk); [done|]. by apply list_elem_of_lookup_2 in Hi.
Qed.

(** ** The inverse table after a pass from any state *)

Lemma dict_get_Some_elem {K V} `{EqDecision K} (k : K) (v : V) (d : list (K * V)) :
  dict_get k d = Some v -> (k, v) ∈ d.
Proof.
  induction d as [|[k' v'] d IH]; simpl; [done|].
  destruct (decide (k = k')) as [->|Hne].
  - intros [= ->]. left.
  - intros H. right. by apply IH.
Qed.

Lemma last_level_Some_elem row s n : last_level row s = Some n -> (n, s) ∈ row.
Proof.
  induction row as [|[k l] row IH] using rev_ind; [done|].
  rewrite last_level_snoc, elem_of_app.
  destruct (decide (l = s)) as [->|Hne].
  - intros [= ->]. right. left.
  - intros H. left. by apply IH.
Qed.

Lemma last_level_None row s : last_level row s = None <-> s ∉ map snd row.
Proof.
  induction row as [|[k l] row IH] using rev_ind.
  - split; [intros _; apply not_elem_of_nil | done].
  - rewrite last_level_snoc, map_app, elem_of_app. simpl.
    destruct (decide (l = s)) as [->|Hne].
    + split; [done|]. intros H. exfalso. apply H. right. left.
    + rewrite IH. split.
      * intros H [?|Hin%list_elem_of_singleton]; [done|congruence].
      * intros H Hin. apply H. by left.
Qed.

Lemma last_level_is_Some row n s : (n, s) ∈ row -> is_Some (last_level row s).
Proof.
  intros Hin. destruct (last_level row s) eqn:E; [done|].
  apply last_level_None in E. exfalso. apply E.
  apply list_elem_of_In, in_map_iff. exists (n, s).
  by rewrite <- list_elem_of_In.
Qed.

(** X17. After a relabeling pass over a graph of the data model, from any
    state of the walker, the inverse dict of every vertex of the graph holds
    the vertex name under the integer key 0 and has every label of the
    vertex's dict in the label table as a key, mapped to a level under which
    that dict holds the label.  The other keys are as before the pass:
    entries of earlier passes are not removed. *)
Theorem inverse_table_after_pass (kg : KG) (self : WLWalker) (fuel : nat) :
  well_formed kg ->
  exists self',
    _weisfeiler_lehman (S (S fuel)) kg self = (Ret tt, self') /\
    forall v, v ∈ _vertices kg ->
      exists row d,
        _label_map self' !! name v = Some row /\
        _inv_label_map self' !! name v = Some d /\
        dict_get (AInt 0) d = Some (AStr (name v)) /\
        (forall n l, label_of self' (name v) n = Some l ->
           exists n', dict_get (AStr l) d = Some (AInt n') /\
                      (n', l) ∈ dict_items row) /\
        (forall s, (forall n, (n, s) ∉ dict_items row) ->
           dict_get (AStr s) d =
           dict_get (AStr s) (default [] (_inv_label_map self !! name v))) /\
        (forall z, z <> 0 ->
           dict_get (AInt z) d =
           dict_get (AInt z) (default [] (_inv_label_map self !! name v))).
Proof.
  intros Hwf.
  destruct (relabel_run kg self Hwf fuel) as (self' & Hrun & Hpost).
  exists self'. split; [done|].
  destruct Hpost as (_ & Hlm & _ & Him & _).
  intros v Hv. exists (final_row kg self v). eexists.
  split; [by apply Hlm|]. split; [by apply Him|].
  unfold dict_items. split; [|split; [|split]].
  - rewrite invert_row_get_int. unfold inv_row0. apply dict_get_set_eq.
  - intros n l Hl. unfold label_of in Hl. rewrite (Hlm v Hv) in Hl.
    apply dict_get_Some_elem in Hl.
    destruct (last_level_is_Some _ _ _ Hl) as [n' Hn'].
    exists n'. rewrite invert_row_get_str, Hn'. split; [done|].
    by apply last_level_Some_elem.
  - intros s Hs. rewrite invert_row_get_str.
    destruct (last_level (final_row kg self v) s) as [n|] eqn:Hn.
    + apply last_level_Some_elem in Hn. by apply Hs in Hn.
    + unfold inv_row0. apply dict_get_set_ne. congruence.
  - intros z Hz. rewrite invert_row_get_int. unfold inv_row0.
    apply dict_get_set_ne. congruence.
Qed.

Lemma inverse_table_after_pass_witness :
  exists self',
    _weisfeiler_lehman 2 kg_abc_cut relabelled_abc = (Ret tt, self') /\
    forall v, v ∈ _vertices kg_abc_cut ->
      exists row d,
        _label_map self' !! name v = Some row /\
        _inv_label_map self' !! name v = Some d /\
        dict_get (AInt 0) d = Some (AStr (name v)) /\
        (forall n l, label_of self' (name v) n = Some l ->
           exists n', dict_get (AStr l) d = Some (AInt n') /\
                      (n', l) ∈ dict_items row) /\
        (forall s, (forall n, (n, s) ∉ dict_items row) ->
           dict_get (AStr s) d =
           dict_get (AStr s)
             (default [] (_inv_label_map relabelled_abc !! name v))) /\
        (forall z, z <> 0 ->
           dict_get (AInt z) d =
           dict_get (AInt z)
             (default [] (_inv_label_map relabelled_abc !! name v))).
Proof.
  apply (inverse_table_after_pass kg_abc_cut relabelled_abc 0).
  apply (bool_decide_unpack _). vm_compute. exact I.
Defined.

(** ** What a pass keeps, whatever its outcome *)

Lemma keeps_weaken {A} (R R' : relation WLWalker) (m : M A) :
  (forall s s', R s s' -> R' s s') -> keeps R m -> keeps R' m.
Proof. intros Hsub Hm self o self' Hrun. by apply Hsub, (Hm self o). Qed.

Lemma label_of_setitem x n l self y k :
  label_of (snd (label_map_setitem x n l self)) y k =
  if decide ((x, n) = (y, k)) then Some l else label_of self y k.
Proof.
  rewrite label_map_setitem_run. simpl.
  apply (lm_get_set x n l (_label_map self) y k).
Qed.

Lemma inv_of_setitem x k v self y k' :
  inv_of (snd (inv_label_map_setitem x k v self)) y k' =
  if decide (x = y /\ k = k') then Some v else inv_of self y k'.
Proof.
  rewrite inv_label_map_setitem_run. unfold inv_of. simpl.
  destruct (decide (x = y)) as [<-|Hxy].
  - rewrite lookup_insert_eq, dict_get_set.
    destruct (decide (k = k')) as [<-|Hk].
    + by rewrite decide_True.
    + rewrite decide_False by tauto. by destruct (_inv_label_map self !! x).
  - rewrite lookup_insert_ne by done. rewrite decide_False by tauto. done.
Qed.

Section keeps.
Context (R : relation WLWalker) `{!Reflexive R} `{!Transitive R}.

Lemma keeps_ret {A} (a : A) : keeps R (ret a).
Proof. by intros self o self' [= <- <-]. Qed.

Lemma keeps_out_of_fuel {A} : keeps R (@out_of_fuel A).
Proof. by intros self o self' [= <- <-]. Qed.

Lemma keeps_bind {A B} (m : M A) (k : A -> M B) :
  keeps R m -> (forall a, keeps R (k a)) -> keeps R (bind m k).
Proof.
  intros Hm Hk self o self'. unfold bind.
  destruct (m self) as [[a|e|] s1] eqn:E; pose proof (Hm self _ s1 E) as H1.
  - intros Hrun. trans s1; [done|]. by apply (Hk a s1 o).
  - by intros [= <- <-].
  - by intros [= <- <-].
Qed.

Lemma keeps_for {A} (l : list A) (body : A -> M unit) :
  (forall x, x ∈ l -> keeps R (body x)) -> keeps R (for_ l body).
Proof.
  induction l as [|x l IH]; intros Hbody; simpl.
  - apply keeps_ret.
  - apply keeps_bind; [apply Hbody; left|]. intros _. apply IH.
    intros y Hy. apply Hbody. by right.
Qed.

Lemma keeps_comprehension {A B} (f : A -> M B) (l : list A) :
  (forall x, keeps R (f x)) -> keeps R (comprehension f l).
Proof.
  intros Hf. induction l as [|x l IH]; simpl.
  - apply keeps_ret.
  - apply keeps_bind; [apply Hf|]. intros y.
    apply keeps_bind; [apply IH|]. intros ys. apply keeps_ret.
Qed.

Hypothesis R_lookup : forall s s', same_labels s s' -> R s s'.
Hypothesis R_setitem : forall x n l,
  n <> 0 \/ l = x -> keeps R (label_map_setitem x n l).
Hypothesis R_inv_setitem : forall x k v,
  k <> AInt 0 \/ v = AStr x -> keeps R (inv_label_map_setitem x k v).

(** The second and the third loop of a pass keep what the lookups and the
    assignments keep. *)
Lemma keeps_levels_and_invert fuel kg :
  (forall v n, keeps R (_create_label fuel kg v n)) ->
  keeps R
    (do iterations <- get_wl_iterations;
     for_ (range 1 (iterations + 1)) (fun n =>
       for_ (_vertices kg) (fun vertex =>
         do label <- _create_label fuel kg vertex n;
         label_map_setitem (name vertex) n (md5_digest_str label))) ;;
     for_ (_vertices kg) (fun vertex =>
       do row <- label_map_row (name vertex);
       for_ (dict_items row) (fun '(k, v) =>
         inv_label_map_setitem (name vertex) (AStr v) (AInt k)))).
Proof.
  intros Hcl. apply keeps_bind.
  { by intros self o self' [= <- <-]. }
  intros iterations. apply keeps_bind.
  { apply keeps_for. intros n Hn%elem_of_range. apply keeps_for. intros v _.
    apply keeps_bind; [apply Hcl|]. intros l. apply R_setitem. left. lia. }
  intros _. apply keeps_for. intros v _. apply keeps_bind.
  { apply (keeps_weaken same_labels); [done|]. apply kl_label_map_row. }
  intros row. apply keeps_for. intros [k l] _. apply R_inv_setitem. by left.
Qed.

Lemma keeps_relabel fuel :
  (forall kg, keeps R (_weisfeiler_lehman fuel kg)) /\
  (forall kg v n, keeps R (_create_label fuel kg v n)).
Proof.
  induction fuel as [|fuel [IHwl IHcl]].
  - split; intros; apply keeps_out_of_fuel.
  - split.
    + intros kg. rewrite weisfeiler_lehman_S. apply keeps_bind.
      { apply keeps_for. intros v _. apply keeps_bind.
        - apply R_setitem. by right.
        - intros _. apply R_inv_setitem. by right. }
      intros _. apply keeps_levels_and_invert. apply IHcl.
    + intros kg v n. rewrite create_label_S. apply keeps_bind.
      { by intros self o self' [= <- <-]. }
      intros len. apply keeps_bind.
      { destruct (len =? 0); [apply IHwl | apply keeps_ret]. }
      intros _. apply (keeps_weaken same_labels); [done|].
      apply kl_create_label_tail.
Qed.
End keeps.

Lemma no_entry_lost_refl s : no_entry_lost s s.
Proof. by repeat split. Qed.

Lemma no_entry_lost_trans s1 s2 s3 :
  no_entry_lost s1 s2 -> no_entry_lost s2 s3 -> no_entry_lost s1 s3.
Proof.
  intros (Hwl & Hlab & Hinv) (Hwl' & Hlab' & Hinv'). repeat split.
  - by rewrite Hwl'.
  - intros x n H. by apply Hlab', Hlab.
  - intros x k H. by apply Hinv', Hinv.
Qed.

Lemma same_labels_no_entry_lost s s' : same_labels s s' -> no_entry_lost s s'.
Proof.
  intros (Hwl & Him & Hlab & _). repeat split; [done| |].
  - intros x n. by rewrite Hlab.
  - intros x k. unfold inv_of. by rewrite Him.
Qed.

Lemma setitem_no_entry_lost x n l : keeps no_entry_lost (label_map_setitem x n l).
Proof.
  intros self o self' Hrun.
  assert (self' = snd (label_map_setitem x n l self)) as -> by (by rewrite Hrun).
  repeat split.
  - by rewrite label_map_setitem_run.
  - intros y k. rewrite label_of_setitem.
    by destruct (decide ((x, n) = (y, k))).
  - intros y k. by rewrite label_map_setitem_run.
Qed.

Lemma inv_setitem_no_entry_lost x k v :
  keeps no_entry_lost (inv_label_map_setitem x k v).
Proof.
  intros self o self' Hrun.
  assert (self' = snd (inv_label_map_setitem x k v self)) as ->
    by (by rewrite Hrun).
  repeat split.
  - by rewrite inv_label_map_setitem_run.
  - intros y n. by rewrite inv_label_map_setitem_run.
  - intros y k'. rewrite inv_of_setitem.
    by destruct (decide (x = y /\ k = k')).
Qed.

(** X18. A relabeling pass removes nothing: whatever the graph, the state
    of the walker, the depth of the calls and the outcome, also when the
    pass raises, every level of every name that had a label in the label
    table has one afterwards, every key of every dict of the inverse table
    is still there, and the iteration count is unchanged. *)
Theorem relabel_loses_no_entry
    (fuel : nat) (kg : KG) (self self' : WLWalker) (o : outcome unit) :
  _weisfeiler_lehman fuel kg self = (o, self') ->
  wl_iterations self' = wl_iterations self /\
  (forall x n, is_Some (label_of self x n) -> is_Some (label_of self' x n)) /\
  (forall x k, is_Some (inv_of self x k) -> is_Some (inv_of self' x k)).
Proof.
  intros Hrun.
  apply (proj1 (@keeps_relabel no_entry_lost no_entry_lost_refl
                  no_entry_lost_trans same_labels_no_entry_lost
                  (fun x n l _ => setitem_no_entry_lost x n l)
                  (fun x k v _ => inv_setitem_no_entry_lost x k v) fuel)
           kg self o self' Hrun).
Qed.

Lemma relabel_loses_no_entry_witness :
  wl_iterations (snd (_weisfeiler_lehman 2 kg_dangling relabelled_z))
    = wl_iterations relabelled_z /\
  (forall x n,
     is_Some (label_of relabelled_z x n) ->
     is_Some (label_of (snd (_weisfeiler_lehman 2 kg_dangling relabelled_z)) x n)) /\
  (forall x k,
     is_Some (inv_of relabelled_z x k) ->
     is_Some (inv_of (snd (_weisfeiler_lehman 2 kg_dangling relabelled_z)) x k)).
Proof.
  apply (relabel_loses_no_entry 2 kg_dangling relabelled_z
           (snd (_weisfeiler_lehman 2 kg_dangling relabelled_z))
           (fst (_weisfeiler_lehman 2 kg_dangling relabelled_z))).
  vm_compute. reflexivity.
Defined.

Lemma named_at_zero_same_labels kg s s' :
  same_labels s s' -> named_at_zero kg s -> named_at_zero kg s'.
Proof.
  intros (_ & Him & Hlab & _) Hs v Hv. destruct (Hs v Hv) as [H0 Hi].
  split; [by rewrite Hlab|]. unfold inv_of in *. by rewrite Him.
Qed.

Lemma named_at_zero_setitem kg x n l :
  n <> 0 \/ l = x ->
  keeps (fun s s' => named_at_zero kg s -> named_at_zero kg s')
    (label_map_setitem x n l).
Proof.
  intros Hnl self o self' Hrun Hs v Hv. destruct (Hs v Hv) as [H0 Hi].
  assert (self' = snd (label_map_setitem x n l self)) as -> by (by rewrite Hrun).
  split.
  - rewrite label_of_setitem.
    destruct (decide ((x, n) = (name v, 0))) as [[= -> ->]|_]; [|done].
    by destruct Hnl as [?| ->].
  - by rewrite label_map_setitem_run.
Qed.

Lemma named_at_zero_inv_setitem kg x k w :
  k <> AInt 0 \/ w = AStr x ->
  keeps (fun s s' => named_at_zero kg s -> named_at_zero kg s')
    (inv_label_map_setitem x k w).
Proof.
  intros Hkw self o self' Hrun Hs v Hv. destruct (Hs v Hv) as [H0 Hi].
  assert (self' = snd (inv_label_map_setitem x k w self)) as ->
    by (by rewrite Hrun).
  split.
  - by rewrite inv_label_map_setitem_run.
  - rewrite inv_of_setitem.
    destruct (decide (x = name v /\ k = AInt 0)) as [[-> ->]|_]; [|done].
    by destruct Hkw as [?| ->].
Qed.

(** The first loop stores the name of every vertex at level 0 and under the
    key 0 of its inverse dict. *)
Lemma init_loop_named kg vs :
  forall self,
    (forall v, v ∈ _vertices kg -> v ∈ vs \/
       (label_of self (name v) 0 = Some (name v) /\
        inv_of self (name v) (AInt 0) = Some (AStr (name v)))) ->
    exists self',
      for_ vs (fun vertex =>
        label_map_setitem (name vertex) 0 (name vertex) ;;
        inv_label_map_setitem (name vertex) (AInt 0) (AStr (name vertex))) self
      = (Ret tt, self') /\
      named_at_zero kg self'.
Proof.
  induction vs as [|w vs IH]; intros self Hs.
  - exists self. split; [done|]. intros v Hv.
    destruct (Hs v Hv) as [Hin|H]; [by apply elem_of_nil in Hin|done].
  - cbn [for_].
    pose proof (bind_ret_run _
                  (fun _ => inv_label_map_setitem (name w) (AInt 0)
                              (AStr (name w)))
                  _ _ _ (label_map_setitem_run (name w) 0 (name w) self))
      as Hbody.
    cbv beta in Hbody. rewrite inv_label_map_setitem_run in Hbody.
    rewrite (bind_ret_run _ _ _ _ _ Hbody).
    apply IH. intros v Hv.
    match goal with |- context [label_of ?s1 _ _] => set (s := s1) end.
    assert (Hlab : forall y k,
              label_of s y k =
              if decide ((name w, 0) = (y, k)) then Some (name w)
              else label_of self y k).
    { intros y k. apply (lm_get_set (name w) 0 (name w) (_label_map self) y k). }
    assert (Hinv : forall y k,
              inv_of s y k =
              if decide (name w = y /\ AInt 0 = k) then Some (AStr (name w))
              else inv_of self y k).
    { intros y k. pose proof (inv_of_setitem (name w) (AInt 0) (AStr (name w))
                                (snd (label_map_setitem (name w) 0 (name w) self))
                                y k) as H.
      rewrite inv_label_map_setitem_run, label_map_setitem_run in H.
      exact H. }
    destruct (decide (name v = name w)) as [Heq|Hne].
    + right. rewrite Hlab, Hinv, <- Heq.
      rewrite decide_True by done. by rewrite decide_True.
    + destruct (Hs v Hv) as [[->|Hin]%elem_of_cons|[H0 Hi]]; [done|by left|].
      right. rewrite Hlab, Hinv.
      rewrite decide_False by congruence.
      rewrite decide_False by (intros [? _]; congruence). done.
Qed.

(** X19. What the first loop wrote stays written when the pass raises: after
    a pass that raised, the label table holds the name of every vertex of
    the graph as its label of level 0 and the inverse table holds the name
    under the integer key 0, so that the label table of a graph with a
    vertex is not empty. *)
Theorem relabel_raise_leaves_level_zero
    (fuel : nat) (kg : KG) (self self' : WLWalker) (e : exn) :
  _weisfeiler_lehman fuel kg self = (Raise e, self') ->
  (forall v, v ∈ _vertices kg ->
     label_of self' (name v) 0 = Some (name v) /\
     inv_of self' (name v) (AInt 0) = Some (AStr (name v))) /\
  (_vertices kg <> [] -> _label_map self' <> ∅).
Proof.
  intros Hrun.
  assert (Hnamed : named_at_zero kg self').
  { destruct fuel as [|fuel]; [done|].
    rewrite weisfeiler_lehman_S in Hrun.
    destruct (init_loop_named kg (_vertices kg) self) as (s0 & Hrun0 & Hs0);
      [by left|].
    rewrite (bind_ret_run _ _ _ _ _ Hrun0) in Hrun.
    pose (R := fun s s' => named_at_zero kg s -> named_at_zero kg s').
    assert (Hrefl : Reflexive R) by (by intros s H).
    assert (Htrans : Transitive R) by (intros s1 s2 s3 H1 H2 H; by apply H2, H1).
    apply (@keeps_levels_and_invert R Hrefl Htrans
             (named_at_zero_same_labels kg) (named_at_zero_setitem kg)
             (named_at_zero_inv_setitem kg) fuel kg
             (proj2 (@keeps_relabel R Hrefl Htrans
                       (named_at_zero_same_labels kg) (named_at_zero_setitem kg)
                       (named_at_zero_inv_setitem kg) fuel) kg)
             s0 _ self' Hrun Hs0). }
  split; [exact Hnamed|].
  intros HV Hempty. destruct (_vertices kg) as [|v vs] eqn:E; [done|].
  destruct (Hnamed v) as [H0 _]; [rewrite E; left|].
  unfold label_of in H0. by rewrite Hempty, lookup_empty in H0.
Qed.

Lemma relabel_raise_leaves_level_zero_witness :
  (forall v, v ∈ _vertices kg_dangling ->
     label_of (snd (_weisfeiler_lehman 2 kg_dangling (fresh 1))) (name v) 0
       = Some (name v) /\
     inv_of (snd (_weisfeiler_lehman 2 kg_dangling (fresh 1))) (name v) (AInt 0)
       = Some (AStr (name v))) /\
  (_vertices kg_dangling <> [] ->
   _label_map (snd (_weisfeiler_lehman 2 kg_dangling (fresh 1))) <> ∅).
Proof.
  apply (relabel_raise_leaves_level_zero 2 kg_dangling (fresh 1)
           (snd (_weisfeiler_lehman 2 kg_dangling (fresh 1)))
           (KeyError (AInt 0))).
  vm_compute. reflexivity.
Defined.

(** ** A second pass *)

Lemma last_level_cons_in k l row s :
  s ∈ map snd row -> last_level ((k, l) :: row) s = last_level row s.
Proof.
  revert k l. induction row as [|[k' l'] row IH] using rev_ind; intros k l Hin.
  - by apply elem_of_nil in Hin.
  - rewrite app_comm_cons, !last_level_snoc.
    destruct (decide (l' = s)); [done|].
    apply IH. rewrite map_app, elem_of_app in Hin.
    destruct Hin as [?|Hin%list_elem_of_singleton]; [done|]. simpl in Hin.
    congruence.
Qed.

Lemma last_level_cons_notin k l row :
  l ∉ map snd row -> last_level ((k, l) :: row) l = Some k.
Proof.
  induction row as [|[k' l'] row IH] using rev_ind; intros Hin.
  - unfold last_level. simpl. by rewrite decide_True.
  - rewrite app_comm_cons, last_level_snoc.
    rewrite map_app, elem_of_app in Hin.
    rewrite decide_False.
    + apply IH. intros ?. apply Hin. by left.
    + intros ->. apply Hin. right. left.
Qed.

Lemma invert_row_cons k l row d :
  invert_row ((k, l) :: row) d = invert_row row (dict_set (AStr l) (AInt k) d).
Proof. reflexivity. Qed.

(** An assignment to a key that the items assign later is absorbed. *)
Lemma invert_row_absorb row :
  forall d s k,
    s ∈ map snd row ->
    is_Some (dict_get (AStr s) d) ->
    (forall s', s' ∈ map snd row -> is_Some (dict_get (AStr s') d)) ->
    invert_row row (dict_set (AStr s) (AInt k) d) = invert_row row d.
Proof.
  induction row as [|[k0 l0] row IH]; intros d s k Hin Hs Hkeys.
  - by apply elem_of_nil in Hin.
  - rewrite !invert_row_cons. destruct (decide (l0 = s)) as [->|Hne].
    + by rewrite dict_set_set.
    + simpl in Hin. apply elem_of_cons in Hin as [?|Hin]; [congruence|].
      pose proof (Hkeys l0 ltac:(left)) as Hl0.
      rewrite (dict_set_comm (AStr l0) (AStr s)); [|congruence|done|done].
      apply IH; [done| |].
      * rewrite dict_get_set. by destruct (decide (AStr l0 = AStr s)).
      * intros s' Hs'. rewrite dict_get_set.
        destruct (decide (AStr l0 = AStr s')); [done|].
        apply Hkeys. by right.
Qed.

(** Inverting a row into a dict that holds the result already changes
    nothing. *)
Lemma invert_row_id row :
  forall d,
    (forall s n, last_level row s = Some n -> dict_get (AStr s) d = Some (AInt n)) ->
    invert_row row d = d.
Proof.
  induction row as [|[k0 l0] row IH]; intros d Hd; [done|].
  assert (Hkeys : forall s, s ∈ map snd ((k0, l0) :: row) ->
                            is_Some (dict_get (AStr s) d)).
  { intros s Hs. destruct (last_level ((k0, l0) :: row) s) as [n|] eqn:Hn.
    - by rewrite (Hd s n Hn).
    - by apply last_level_None in Hn. }
  assert (Htail : forall s n, last_level row s = Some n ->
                              dict_get (AStr s) d = Some (AInt n)).
  { intros s n Hn. apply Hd. rewrite last_level_cons_in; [done|].
    destruct (decide (s ∈ map snd row)) as [?|Hnot]; [done|].
    apply last_level_None in Hnot. congruence. }
  rewrite invert_row_cons. destruct (decide (l0 ∈ map snd row)) as [Hin|Hnot].
  - rewrite invert_row_absorb; [by apply IH|done| |].
    + apply Hkeys. left.
    + intros s Hs. apply Hkeys. by right.
  - rewrite dict_set_id; [by apply IH|].
    apply Hd. by apply last_level_cons_notin.
Qed.

Lemma row_upto_id kg v row n :
  (forall m, (m <= n)%nat -> dict_get (Z.of_nat m) row = Some (wl_label kg m v)) ->
  row_upto kg v row n = row.
Proof.
  induction n as [|n IH]; intros Hrow.
  - simpl. apply dict_set_id. apply (Hrow O). lia.
  - change (row_upto kg v row (S n))
      with (dict_set (Z.of_nat (S n)) (wl_label kg (S n) v) (row_upto kg v row n)).
    rewrite IH by (intros m Hm; apply Hrow; lia).
    apply dict_set_id. apply Hrow. lia.
Qed.

(** X20. Over a graph of the data model a second relabeling pass changes
    nothing at all: after a first pass from any state of the walker, a second
    pass over the same graph returns and leaves the label table, the inverse
    table and the iteration count exactly as the first pass left them, the
    order of the entries included. *)
Theorem relabel_twice_same_walker
    (kg : KG) (self : WLWalker) (fuel1 fuel2 : nat) :
  well_formed kg ->
  exists self1,
    _weisfeiler_lehman (S (S fuel1)) kg self = (Ret tt, self1) /\
    _weisfeiler_lehman (S (S fuel2)) kg self1 = (Ret tt, self1).
Proof.
  intros Hwf.
  destruct (relabel_run kg self Hwf fuel1) as (self1 & Hrun1 & Hpost1).
  destruct (relabel_run kg self1 Hwf fuel2) as (self2 & Hrun2 & Hpost2).
  exists self1. split; [done|]. rewrite Hrun2. f_equal.
  destruct Hpost1 as (Hwl1 & Hlm1 & _ & Him1 & _).
  destruct Hpost2 as (Hwl2 & Hlm2 & Hlm2' & Him2 & Him2').
  assert (Hrow : forall v, v ∈ _vertices kg ->
                           final_row kg self1 v = final_row kg self v).
  { intros v Hv. unfold final_row at 1. unfold row0. rewrite (Hlm1 v Hv), Hwl1.
    simpl. apply row_upto_id. intros m Hm. by apply row_upto_get. }
  assert (Hlm : _label_map self2 = _label_map self1).
  { apply map_eq. intros x.
    destruct (decide (x ∈ map name (_vertices kg))) as [Hx|Hx].
    - apply elem_of_map_name in Hx as (v & Hv & <-).
      by rewrite (Hlm2 v Hv), (Hlm1 v Hv), Hrow.
    - by apply Hlm2'. }
  assert (Him : _inv_label_map self2 = _inv_label_map self1).
  { apply map_eq. intros x.
    destruct (decide (x ∈ map name (_vertices kg))) as [Hx|Hx].
    - apply elem_of_map_name in Hx as (v & Hv & <-).
      rewrite (Him2 v Hv), (Him1 v Hv), (Hrow v Hv). f_equal.
      assert (Hinv0 : inv_row0 self1 v
                      = invert_row (final_row kg self v) (inv_row0 self v)).
      { unfold inv_row0 at 1. rewrite (Him1 v Hv). simpl.
        apply dict_set_id. rewrite invert_row_get_int.
        unfold inv_row0. apply dict_get_set_eq. }
      rewrite Hinv0. apply invert_row_id. intros s n Hn.
      by rewrite invert_row_get_str, Hn.
    - by apply Him2'. }
  destruct self1, self2. simpl in *. by subst.
Qed.

Lemma relabel_twice_same_walker_witness :
  exists self1,
    _weisfeiler_lehman 2 kg_abc relabelled_z = (Ret tt, self1) /\
    _weisfeiler_lehman 2 kg_abc self1 = (Ret tt, self1).
Proof.
  apply (relabel_twice_same_walker kg_abc relabelled_z 0 0).
  apply (bool_decide_unpack _). vm_compute. exact I.
Defined.

(** ** The form of a label *)

Lemma bytes_le_bytes n x :
  length (MD5.bytes_le n x) = n /\
  Forall (fun b => 0 <= b < 256) (MD5.bytes_le n x).
Proof.
  unfold MD5.bytes_le. split.
  - by rewrite length_map, length_seq.
  - apply Forall_forall. intros b Hb.
    apply list_elem_of_In, in_map_iff in Hb as (k & <- & _).
    apply Z.mod_pos_bound. lia.
Qed.

(** A digest is 16 bytes. *)
Lemma digest_bytes msg :
  length (MD5.digest msg) = 16%nat /\
  Forall (fun b => 0 <= b < 256) (MD5.digest msg).
Proof.
  unfold MD5.digest.
  set (r := fold_left MD5.process_chunk _ MD5.init_regs).
  destruct (bytes_le_bytes 4 (MD5.rA r)) as [HlA HA].
  destruct (bytes_le_bytes 4 (MD5.rB r)) as [HlB HB].
  destruct (bytes_le_bytes 4 (MD5.rC r)) as [HlC HC].
  destruct (bytes_le_bytes 4 (MD5.rD r)) as [HlD HD].
  split.
  - rewrite !length_app, HlA, HlB, HlC, HlD. done.
  - by repeat (apply Forall_app; split).
Qed.

(** The characters that [bytes.__repr__] writes for one byte: one to four,
    all printable ASCII. *)
Lemma repr_byte_shape q c :
  q = quote1 \/ q = quote2 -> 0 <= c < 256 ->
  Forall (fun a => 32 <= byte_of_ascii a <= 126) (repr_byte q c) /\
  (1 <= length (repr_byte q c) <= 4)%nat.
Proof.
  intros Hq Hc.
  pose (check := fun q c =>
    forallb (fun a => (32 <=? byte_of_ascii a) && (byte_of_ascii a <=? 126))
      (repr_byte q c)
    && (1 <=? length (repr_byte q c))%nat
    && (length (repr_byte q c) <=? 4)%nat).
  assert (Hall : forall q, q = quote1 \/ q = quote2 ->
                           forallb (check q) (range 0 256) = true).
  { intros q' [-> | ->]; vm_compute; reflexivity. }
  assert (Hcheck : check q c = true).
  { apply (proj1 (forallb_forall _ _) (Hall q Hq)).
    apply list_elem_of_In, elem_of_range. lia. }
  unfold check in Hcheck.
  apply andb_true_iff in Hcheck as [[Hchars Hlo]%andb_true_iff Hhi].
  split.
  - apply Forall_forall. intros a Ha. apply list_elem_of_In in Ha.
    apply (proj1 (forallb_forall _ _) Hchars) in Ha.
    apply andb_true_iff in Ha as [H1 H2]. lia.
  - apply Nat.leb_le in Hlo, Hhi. lia.
Qed.

Lemma flat_map_repr_shape q bs :
  q = quote1 \/ q = quote2 -> Forall (fun b => 0 <= b < 256) bs ->
  Forall (fun a => 32 <= byte_of_ascii a <= 126) (flat_map (repr_byte q) bs) /\
  (length bs <= length (flat_map (repr_byte q) bs) <= 4 * length bs)%nat.
Proof.
  intros Hq. induction 1 as [|b bs Hb _ [IHchars IHlen]]; simpl.
  - split; [constructor|lia].
  - destruct (repr_byte_shape q b Hq Hb) as [Hchars Hlen]. split.
    + by apply Forall_app.
    + rewrite length_app. lia.
Qed.

(** X21. Every label of level 1 or more is the text that [str] gives for
    the 16 bytes of a digest: the letter b, a quote character, between 16
    and 64 printable ASCII characters, and the same quote character; the
    quote is the single or the double one. *)
Theorem md5_digest_str_shape (s : string) :
  exists q body,
    list_ascii_of_string (md5_digest_str s) = "b"%char :: q :: body ++ [q] /\
    (q = ascii_of_byte quote1 \/ q = ascii_of_byte quote2) /\
    Forall (fun a => 32 <= byte_of_ascii a <= 126) body /\
    (16 <= length body <= 64)%nat.
Proof.
  unfold md5_digest_str, bytes_repr.
  destruct (digest_bytes (encode s)) as [Hlen Hbytes].
  set (bs := MD5.digest (encode s)) in *.
  set (quote := if memZ quote1 bs && negb (memZ quote2 bs)
                then quote2 else quote1).
  assert (Hq : quote = quote1 \/ quote = quote2).
  { unfold quote. destruct (memZ quote1 bs && negb (memZ quote2 bs)); auto. }
  destruct (flat_map_repr_shape quote bs Hq Hbytes) as [Hchars Hbody].
  exists (ascii_of_byte quote), (flat_map (repr_byte quote) bs).
  rewrite list_ascii_of_string_of_list_ascii. split; [done|].
  split; [by destruct Hq as [-> | ->]; auto|]. split; [done|]. lia.
Qed.

(** ** Walks by name *)

(** X22. After a relabeling pass that returned, with an iteration count of
    0 or more, the result of [_extract] holds every sampled walk by the
    names of its hops, for every sampler whose walks stay within the
    vertices of the graph: at level 0 the canonical walk of a walk is the
    list of the names of its hops. *)
Theorem extract_holds_walk_names
    (extract_walks : KG -> Vertex -> list (list Vertex))
    (fuel : nat) (kg : KG) (instance : Vertex) (self self1 : WLWalker)
    (walk : list Vertex) :
  _weisfeiler_lehman fuel kg self = (Ret tt, self1) ->
  0 <= wl_iterations self ->
  (forall w hop, w ∈ extract_walks kg instance -> hop ∈ w ->
                 hop ∈ _vertices kg) ->
  walk ∈ extract_walks kg instance ->
  exists cws,
    _extract extract_walks kg instance self1
    = (Ret {[ name instance := cws ]}, self1) /\
    map name walk ∈ cws.
Proof.
  intros Hrun HL Hwalks Hwalk.
  destruct (relabel_returns_settled fuel kg self self1 Hrun)
    as (Hwl & _ & Hzero & _).
  destruct (extract_returns extract_walks kg instance self1)
    as (cws & Hext & _ & Hmem).
  { apply labels_present_levels. intros n w i hop Hn Hw Hi _ _.
    rewrite Hwl in Hn. apply (relabel_labels_present fuel kg self); [done| |done].
    apply (Hwalks w); [done|]. by apply list_elem_of_lookup_2 in Hi. }
  exists cws. split; [done|]. apply Hmem. exists 0, walk.
  split; [lia|]. split; [done|].
  apply list_eq. intros i.
  rewrite canonical_walk_of_lookup, list_lookup_fmap.
  destruct (walk !! i) as [hop|] eqn:Hi; [|done]. simpl. f_equal.
  unfold canonical_hop.
  destruct ((Z.of_nat i =? 0) || (Z.of_nat i mod 2 =? 1)); [done|].
  assert (Hhop : hop ∈ _vertices kg).
  { apply (Hwalks walk); [done|]. by apply list_elem_of_lookup_2 in Hi. }
  pose proof (Hzero hop Hhop) as Hl.
  change (label_of self1 (name hop) 0 = Some (name hop)) in Hl.
  by rewrite Hl.
Qed.

Lemma extract_holds_walk_names_witness :
  exists cws,
    _extract sample_abc kg_abc vA relabelled_abc
    = (Ret {[ name vA := cws ]}, relabelled_abc) /\
    map name [vA; vB; vC] ∈ cws.
Proof.
  apply (extract_holds_walk_names sample_abc 2 kg_abc vA (fresh 1)
           relabelled_abc [vA; vB; vC]).
  - vm_compute. reflexivity.
  - simpl. lia.
  - intros w hop Hw Hhop. apply list_elem_of_singleton in Hw as ->.
    exact Hhop.
  - apply (bool_decide_unpack _). vm_compute. exact I.
Defined.

(** ** Repeated edges *)

Lemma labels_at_Some m ps k ls :
  labels_at m ps k = Some ls ->
  ls = map (fun p => default ""%string (lm_get m (name p) k)) ps /\
  forall p, p ∈ ps -> is_Some (lm_get m (name p) k).
Proof.
  revert ls. induction ps as [|q ps IH]; intros ls; simpl.
  - intros [= <-]. split; [done|]. intros p Hp. by apply elem_of_nil in Hp.
  - destruct (lm_get m (name q) k) as [l|] eqn:Hl; [|done].
    destruct (labels_at m ps k) as [ls'|]; [|done].
    intros [= <-]. destruct (IH ls' eq_refl) as [-> Hall]. split; [done|].
    intros p [->|Hp]%elem_of_cons; [by rewrite Hl | by apply Hall].
Qed.

Lemma labels_at_all m ps k :
  (forall p, p ∈ ps -> is_Some (lm_get m (name p) k)) ->
  labels_at m ps k
  = Some (map (fun p => default ""%string (lm_get m (name p) k)) ps).
Proof.
  induction ps as [|q ps IH]; intros Hall; simpl; [done|].
  destruct (Hall q ltac:(left)) as [l Hl]. rewrite Hl, IH; [done|].
  intros p Hp. apply Hall. by right.
Qed.

(** X23. The label that [_create_label] builds depends on the predecessors
    of the vertex as a set: on a label table that is not empty, when it
    returns for one graph it returns the same label, and leaves the same
    walker, for every graph in which the vertex has the same predecessors,
    in whatever order and however often repeated. *)
Theorem create_label_predecessors_as_set
    (fuel : nat) (kg1 kg2 : KG) (v : Vertex) (n : Z) (self self' : WLWalker)
    (label : string) :
  _label_map self <> ∅ ->
  (forall p, p ∈ predecessors kg1 v <-> p ∈ predecessors kg2 v) ->
  _create_label (S fuel) kg1 v n self = (Ret label, self') ->
  _create_label (S fuel) kg2 v n self = (Ret label, self').
Proof.
  intros Hne Hsame Hrun.
  pose proof (create_label_pure fuel kg1 v n self Hne) as H1.
  pose proof (create_label_pure fuel kg2 v n self Hne) as H2.
  unfold pre_hash_of in H1, H2.
  destruct (labels_at (_label_map self) (predecessors kg1 v) (n - 1))
    as [ls1|] eqn:Hls1;
    [|destruct H1 as (e & s & H1); rewrite H1 in Hrun; discriminate].
  destruct (lm_get (_label_map self) (name v) (n - 1)) as [own|];
    [|destruct H1 as (e & s & H1); rewrite H1 in Hrun; discriminate].
  rewrite H1 in Hrun. injection Hrun as <- <-.
  destruct (labels_at_Some _ _ _ _ Hls1) as [-> Hall].
  rewrite labels_at_all in H2 by (intros p Hp; by apply Hall, Hsame).
  rewrite H2. do 2 f_equal. unfold pre_hash. do 3 f_equal.
  apply sorted_set_ext. intros x. rewrite !list_elem_of_In, !in_map_iff.
  split; intros (p & Hp & Hin); exists p; (split; [done|]);
    apply list_elem_of_In; apply Hsame; by apply list_elem_of_In.
Qed.

Lemma create_label_predecessors_as_set_witness :
  _create_label 1 (kg_of_edges [vA; vB; vC] [(vA, vB); (vA, vB); (vB, vC)])
    vB 1 relabelled_abc
  = (Ret ("B" ++ "-" ++ join "-" (sorted_set ["A"]))%string, relabelled_abc).
Proof.
  apply (create_label_predecessors_as_set 0 kg_abc
           (kg_of_edges [vA; vB; vC] [(vA, vB); (vA, vB); (vB, vC)])
           vB 1 relabelled_abc).
  - apply (bool_decide_unpack _). vm_compute. exact I.
  - intros p. change (p ∈ [vA] <-> p ∈ [vA; vA]). rewrite !elem_of_cons. tauto.
  - vm_compute. reflexivity.
Defined.
